(** * Live-agent frontend: media transport and playback scheduling

    A shallow embedding of the React hooks [useAudioCapture],
    [useAudioPlayback], [useCameraCapture], [useWebSocket] and of the
    [AgentPanel] component that wires them together, followed by the
    properties of the specification that were checked against them.

    Conventions of the embedding.
    - A hook's [useRef] cells and [useState] values are the fields of a
      record; every callback is a function from that record to the new
      record and the list of platform calls it made, in program order.
    - Platform objects (audio contexts, sockets, tracks, timers) are
      handles; what the platform answers (the audio clock, a socket's
      ready state, the pixels of the camera) is an argument of the
      callback that reads it.
    - Times on the audio clock are exact rationals in [AudioPlayback],
      which is used where only their order and [Math.max] matter, and
      binary64 numbers in [Playback64], where the sum that moves the
      cursor does.  Microphone samples are binary32 values, every
      finite one of which is a rational, and the products with [0x8000]
      and [0x7fff] are exact in binary64, so the sample conversion is
      modelled without rounding error.
    - JavaScript strings are lists of UTF-16 code units. *)

From Stdlib Require Import ZArith QArith Qminmax Qround List Bool Lia Lqa.
From Stdlib Require Import Strings.Byte Strings.String Strings.Ascii.
From Stdlib Require Import SpecFloat.
Import ListNotations.

Local Open Scope Z_scope.

(* ================================================================= *)
(** * Part I.  The embedding *)
(* ================================================================= *)

(** ** JavaScript strings and the few coercions the code relies on *)

Module Js.

Definition code_unit := N.
Definition jsstring := list code_unit.

(** A string literal of the source. *)
Definition lit (s : string) : jsstring :=
  map N_of_ascii (list_ascii_of_string s).

(** [ToBoolean] on a string: only the empty string is falsy. *)
Definition truthy (s : jsstring) : bool :=
  match s with
  | [] => false
  | _ :: _ => true
  end.

(** [x || d] for an optional string field [x]: [undefined] and the empty
    string both select [d]. *)
Definition or_else (x : option jsstring) (d : jsstring) : jsstring :=
  match x with
  | Some s => if truthy s then s else d
  | None => d
  end.

(** [`${x}`] for an optional string field. *)
Definition interpolate (x : option jsstring) : jsstring :=
  match x with
  | Some s => s
  | None => lit "undefined"
  end.

(** The code units ECMAScript calls WhiteSpace or LineTerminator. *)
Definition is_white_space (c : code_unit) : bool :=
  existsb (N.eqb c)
    [9; 10; 11; 12; 13; 32; 160; 5760; 8232; 8233; 8239; 8287; 12288; 65279]%N
  || ((8192 <=? c) && (c <=? 8202))%N.

Fixpoint trim_start (s : jsstring) : jsstring :=
  match s with
  | [] => []
  | c :: r => if is_white_space c then trim_start r else s
  end.

(** [String.prototype.trim]. *)
Definition trim (s : jsstring) : jsstring :=
  rev (trim_start (rev (trim_start s))).

(** Nothing but white space, the empty string included. *)
Definition blank (s : jsstring) : bool := forallb is_white_space s.

(** [s.split(",")[1]]: the text between the first and the second comma,
    [None] ([undefined]) when [s] has no comma. *)
Fixpoint until_comma (s : jsstring) : jsstring :=
  match s with
  | [] => []
  | c :: r => if (c =? 44)%N then [] else c :: until_comma r
  end.

Fixpoint split_comma_1 (s : jsstring) : option jsstring :=
  match s with
  | [] => None
  | c :: r => if (c =? 44)%N then Some (until_comma r) else split_comma_1 r
  end.

End Js.

Import Js.

(** ** 16-bit PCM and binary32 samples *)

Module Pcm.

(** The modular step of [ToInt16]. *)
Definition wrap16 (z : Z) : Z := (z + 32768) mod 65536 - 32768.

(** A [Float32Array] element. *)
Inductive float :=
| Finite (q : Q)
| PosInf
| NegInf
| NaN.

Definition is_nan (x : float) : bool :=
  match x with
  | NaN => true
  | _ => false
  end.

(** [a <= b] on numbers that are not [NaN]. *)
Definition fleb (a b : float) : bool :=
  match a, b with
  | NegInf, _ => true
  | _, PosInf => true
  | Finite p, Finite q => Qle_bool p q
  | _, _ => false
  end.

(** [Math.min(a, b)] and [Math.max(a, b)]. *)
Definition math_min (a b : float) : float :=
  if is_nan a || is_nan b then NaN else if fleb a b then a else b.

Definition math_max (a b : float) : float :=
  if is_nan a || is_nan b then NaN else if fleb a b then b else a.

(** [s < 0]. *)
Definition lt_zero (s : float) : bool :=
  match s with
  | Finite q => negb (Qle_bool 0 q)
  | NegInf => true
  | PosInf | NaN => false
  end.

(** [s * k] for a positive integer constant [k]. *)
Definition scale (s : float) (k : Z) : float :=
  match s with
  | Finite q => Finite (q * inject_Z k)
  | other => other
  end.

(** Truncation of a rational toward zero. *)
Definition Qtrunc (q : Q) : Z := Z.quot (Qnum q) (Zpos (Qden q)).

(** Storing a number into an [Int16Array] element ([ToInt16]): not a
    number and the infinities become 0, anything else is truncated
    toward zero and reduced modulo 2^16. *)
Definition to_int16 (v : float) : Z :=
  match v with
  | Finite q => wrap16 (Qtrunc q)
  | _ => 0
  end.

(** The body of the conversion loop of [onaudioprocess]:
    [s = Math.max(-1, Math.min(1, x)); int16[i] = s < 0 ? s * 0x8000 : s * 0x7fff]. *)
Definition sample_to_int16 (x : float) : Z :=
  let s := math_max (Finite (-1)) (math_min (Finite 1) x) in
  to_int16 (if lt_zero s then scale s 32768 else scale s 32767).

(** Bytes of a typed array, least significant first. *)
Definition byte_of_Z (z : Z) : byte :=
  match Byte.of_N (Z.to_N (z mod 256)) with
  | Some b => b
  | None => x00
  end.

Definition Z_of_byte (b : byte) : Z := Z.of_N (Byte.to_N b).

Definition int16_bytes (v : Z) : list byte :=
  [byte_of_Z v; byte_of_Z (v / 256)].

Definition int16_of_bytes (lo hi : byte) : Z :=
  wrap16 (Z_of_byte lo + 256 * Z_of_byte hi).

(** [int16.buffer]. *)
Definition buffer_of_int16 (vs : list Z) : list byte :=
  flat_map int16_bytes vs.

(** [new Int16Array(buffer)]; [None] is the [RangeError] raised when the
    byte length is odd. *)
Fixpoint int16_array (bs : list byte) : option (list Z) :=
  match bs with
  | [] => Some []
  | [_] => None
  | lo :: hi :: r => option_map (cons (int16_of_bytes lo hi)) (int16_array r)
  end.

End Pcm.

Import Pcm.

(** ** Constants ([lib/constants]) *)

Module Constants.

Definition AUDIO_SEND_SAMPLE_RATE : Z := 16000.
Definition AUDIO_RECEIVE_SAMPLE_RATE : Z := 24000.
Definition AUDIO_CHANNELS : Z := 1.
Definition AUDIO_CHUNK_SIZE : Z := 4096.
Definition CAMERA_FRAME_INTERVAL_MS : Z := 1000.

End Constants.

Import Constants.

(** ** Platform handles, calls made to the platform, and completions *)

Definition handle := nat.

Inductive level := LOG | WARN | ERROR.

(** What a console line says. *)
Inductive diag :=
| MicAccessError
| RequestingCameraAccess
| CameraAccessError
| CameraAccessGranted
| VideoElementPlaying
| VideoRefIsNull
| CameraCaptureStarted
| FrameSkippedRefsNotReady
| FrameSkippedVideoNotReady (readyState : Z)
| FrameCaptured (count : Z) (chars : nat)
| CameraStopped (frames : Z)
| InvalidWsMessage
| WebSocketError.

Inductive exn :=
| RangeError | NotSupportedError | TypeError | InvalidStateError
| AcquisitionError.

Inductive completion := Returned | Thrown (e : exn).

(** A unit of playback handed to the audio device: [source.start(startTime)]
    on a buffer of the given samples and duration. *)
Record sched_unit := {
  u_start : Q;
  u_duration : Q;
  u_samples : list Q
}.

Definition u_end (u : sched_unit) : Q := (u_start u + u_duration u)%Q.

(** What goes out on the socket. *)
Inductive outbound :=
| Binary (buffer : list byte)
| Config (preset : jsstring)
| Image (data : option jsstring)
| Text (text : jsstring).

(** The inbound control message, [WSMessage]. *)
Module Tag.
Inductive t :=
| session_ready | transcript | input_transcript
| turn_complete | interrupted | error
| unrecognized.
End Tag.

Record WSMessage := {
  type : Tag.t;
  text : option jsstring;
  session_id : option jsstring;
  agent : option jsstring;
  message : option jsstring
}.

(** Calls a callback makes, in program order: console lines, calls on
    platform objects, and calls of the callback props a hook was given
    ([onChunk], [onFrame], [onAudioChunk], [onMessage], [onDisconnect]). *)
Inductive effect :=
| Console (l : level) (d : diag)
| NewAudioContext (c : handle) (sampleRate : Z)
| ResumeContext (c : handle)
| CloseContext (c : handle)
| StartSource (c : handle) (u : sched_unit)
| InstallProcessor (p : handle) (blockSize : Z)
| DisconnectNode (p : handle)
| StopTrack (t : handle)
| SetInterval (t : handle) (ms : Z)
| ClearInterval (t : handle)
| DrawImage
| NewWebSocket (k : handle) (sessionId : jsstring)
| SocketSend (k : handle) (p : outbound)
| SocketClose (k : handle)
| OnChunk (pcmBuffer : list byte)
| OnFrame (base64Jpeg : option jsstring)
| OnAudioChunk (data : list byte)
| OnMessage (msg : WSMessage)
| OnDisconnect.

Definition is_console (e : effect) : bool :=
  match e with
  | Console _ _ => true
  | _ => false
  end.

(** [ref.current?.method()] and [if (ref.current) f(ref.current)]. *)
Definition if_some {A} (r : option A) (f : A -> list effect) : list effect :=
  match r with
  | Some x => f x
  | None => []
  end.

(** ** [useAudioCapture]: the Capture Pipeline *)

Module AudioCapture.

Record t := {
  audioContextRef : option handle;
  streamRef : option (list handle);      (* the stream's tracks *)
  processorRef : option handle;
  isCapturing : bool
}.

Definition init : t :=
  {| audioContextRef := None; streamRef := None; processorRef := None;
     isCapturing := false |}.

(** [processor.onaudioprocess]: one block of samples in, one call of
    [onChunk] with the converted buffer. *)
Definition onaudioprocess (float32 : list float) : list effect :=
  let int16 := map sample_to_int16 float32 in
  [OnChunk (buffer_of_int16 int16)].

(** What [getUserMedia] answered. *)
Inductive acquisition := Granted (tracks : list handle) | Refused.

(** [start()], with the platform's answer and the handles it allocates. *)
Definition start (a : acquisition) (ctx processor : handle) (s : t)
  : t * list effect * completion :=
  match a with
  | Granted tracks =>
      ({| audioContextRef := Some ctx; streamRef := Some tracks;
          processorRef := Some processor; isCapturing := true |},
       [NewAudioContext ctx AUDIO_SEND_SAMPLE_RATE;
        InstallProcessor processor AUDIO_CHUNK_SIZE],
       Returned)
  | Refused => (s, [Console ERROR MicAccessError], Thrown AcquisitionError)
  end.

Definition stop (s : t) : t * list effect :=
  ({| audioContextRef := None; streamRef := None; processorRef := None;
      isCapturing := false |},
   if_some (processorRef s) (fun p => [DisconnectNode p])
   ++ if_some (audioContextRef s) (fun c => [CloseContext c])
   ++ if_some (streamRef s) (map StopTrack)).

End AudioCapture.

(** ** [useAudioPlayback]: the Playback Scheduler *)

Module AudioPlayback.

Inductive ctx_state := running | suspended | closed.

Record AudioContext := {
  ctx_id : handle;
  state : ctx_state
}.

Record t := {
  ctxRef : option AudioContext;
  nextTimeRef : Q;
  isPlayingRef : bool;
  fresh : handle                         (* next handle the platform hands out *)
}.

Definition init : t :=
  {| ctxRef := None; nextTimeRef := 0%Q; isPlayingRef := false; fresh := O |}.

Definition is_closed (c : AudioContext) : bool :=
  match state c with
  | closed => true
  | _ => false
  end.

Definition is_suspended (c : AudioContext) : bool :=
  match state c with
  | suspended => true
  | _ => false
  end.

(** [new AudioContext({sampleRate})]: a context is created suspended. *)
Definition new_context (s : t) : AudioContext * t * list effect :=
  let c := {| ctx_id := fresh s; state := suspended |} in
  (c,
   {| ctxRef := Some c; nextTimeRef := nextTimeRef s;
      isPlayingRef := isPlayingRef s; fresh := S (fresh s) |},
   [NewAudioContext (fresh s) AUDIO_RECEIVE_SAMPLE_RATE]).

Definition getContext (s : t) : AudioContext * t * list effect :=
  let '(c, s1, e1) :=
    match ctxRef s with
    | Some c => if is_closed c then new_context s else (c, s, [])
    | None => new_context s
    end in
  (c, s1, e1 ++ (if is_suspended c then [ResumeContext (ctx_id c)] else [])).

(** What a call of [playChunk] came to. *)
Inductive outcome :=
| Scheduled (u : sched_unit)
| Failed (e : exn).

(** [playChunk(pcmData)], [now] being [ctx.currentTime] when it is read.
    [new Int16Array] raises on an odd byte length and [createBuffer] on a
    length of zero; both happen after the context was acquired and before
    anything is scheduled.  The buffer's duration and the sum that moves
    the cursor are exact here; [Playback64.playChunk] has them rounded to
    binary64 as the program computes them. *)
Definition playChunk (now : Q) (pcmData : list byte) (s : t)
  : t * list effect * outcome :=
  let '(ctx, s1, e1) := getContext s in
  match int16_array pcmData with
  | None => (s1, e1, Failed RangeError)
  | Some int16 =>
      let float32 := map (fun v => (inject_Z v / 32768)%Q) int16 in
      match float32 with
      | [] => (s1, e1, Failed NotSupportedError)
      | _ :: _ =>
          let duration :=
            (inject_Z (Z.of_nat (List.length float32))
             / inject_Z AUDIO_RECEIVE_SAMPLE_RATE)%Q in
          let startTime := Qmax now (nextTimeRef s1) in
          let u := {| u_start := startTime; u_duration := duration;
                      u_samples := float32 |} in
          ({| ctxRef := ctxRef s1;
              nextTimeRef := (startTime + duration)%Q;
              isPlayingRef := true;
              fresh := fresh s1 |},
           e1 ++ [StartSource (ctx_id ctx) u],
           Scheduled u)
      end
  end.

(** [source.onended], [now] being the clock of the context the source
    was created on.  The comparison is on exact values here and on
    binary64 numbers in [Playback64.onended]. *)
Definition onended (now : Q) (s : t) : t :=
  if Qle_bool (nextTimeRef s) (now + (5 # 100))%Q
  then {| ctxRef := ctxRef s; nextTimeRef := nextTimeRef s;
          isPlayingRef := false; fresh := fresh s |}
  else s.

Definition flush (s : t) : t * list effect :=
  ({| ctxRef := None; nextTimeRef := 0%Q; isPlayingRef := false;
      fresh := fresh s |},
   if_some (ctxRef s) (fun c => [CloseContext (ctx_id c)])).

(** The platform moves the context the hook holds to another state (it
    starts running after [resume], the browser suspends it, ...). *)
Definition statechange (st : ctx_state) (s : t) : t :=
  {| ctxRef :=
       option_map (fun c => {| ctx_id := ctx_id c; state := st |}) (ctxRef s);
     nextTimeRef := nextTimeRef s;
     isPlayingRef := isPlayingRef s;
     fresh := fresh s |}.

(** The callbacks of the hook and the platform's moves as one alphabet,
    and the history of a run:
    for each call the state before, the state after, the platform calls
    and, for [playChunk], the outcome. *)
Inductive call :=
| PlayChunk (now : Q) (pcmData : list byte)
| Ended (now : Q)
| StateChange (st : ctx_state)
| Flush.

Record entry := {
  e_call : call;
  e_before : t;
  e_after : t;
  e_effects : list effect;
  e_outcome : option outcome
}.

Definition step (c : call) (s : t) : entry :=
  match c with
  | PlayChunk now pcm =>
      let '(s', e, o) := playChunk now pcm s in
      {| e_call := c; e_before := s; e_after := s'; e_effects := e;
         e_outcome := Some o |}
  | Ended now =>
      {| e_call := c; e_before := s; e_after := onended now s;
         e_effects := []; e_outcome := None |}
  | StateChange st =>
      {| e_call := c; e_before := s; e_after := statechange st s;
         e_effects := []; e_outcome := None |}
  | Flush =>
      let '(s', e) := flush s in
      {| e_call := c; e_before := s; e_after := s'; e_effects := e;
         e_outcome := None |}
  end.

Fixpoint history (s : t) (cs : list call) : list entry :=
  match cs with
  | [] => []
  | c :: r => let e := step c s in e :: history (e_after e) r
  end.

Fixpoint final (s : t) (cs : list call) : t :=
  match cs with
  | [] => s
  | c :: r => final (e_after (step c s)) r
  end.

(** The units a history scheduled, oldest first, each with the clock
    reading of its call. *)
Definition unit_of (e : entry) : list (Q * sched_unit) :=
  match e_call e, e_outcome e with
  | PlayChunk now _, Some (Scheduled u) => [(now, u)]
  | _, _ => []
  end.

Definition timed_units (h : list entry) : list (Q * sched_unit) :=
  flat_map unit_of h.

(** The same state with another value in the cursor. *)
Definition with_cursor (q : Q) (s : t) : t :=
  {| ctxRef := ctxRef s; nextTimeRef := q; isPlayingRef := isPlayingRef s;
     fresh := fresh s |}.

End AudioPlayback.

(** ** Binary64 numbers on the audio clock *)

Module Binary64.

(** The clock of an audio context, the duration of a buffer and the
    cursor are JavaScript numbers that are never negative and never
    [NaN]: zero, a positive finite binary64 number, or [Infinity].
    Every finite binary64 number is a whole number of units of 2^-1074
    second, the least positive one, and is held here as that whole
    number.  Sums and quotients are the exact ones rounded to nearest,
    ties to even; Part II shows that they, and the comparison, are
    those of the Standard Library's [SpecFloat]. *)
Inductive t :=
| Num (units : Z)
| Infinity.

(** How far apart the binary64 numbers around [n] units are: one unit
    below 2^53 units, and 2^(k-52) units from 2^k to 2^(k+1) (53
    significant bits). *)
Definition spacing (n : Z) : Z := 2 ^ Z.max 0 (Z.log2 n - 52).

(** 2^1024, in units. *)
Definition overflow : Z := 2 ^ 2098.

(** The whole numbers of units that are binary64 numbers. *)
Definition representable (a : Z) : bool :=
  (0 <=? a) && (a mod spacing a =? 0) && (a <? overflow).

Definition valid (x : t) : bool :=
  match x with
  | Num a => representable a
  | Infinity => true
  end.

(** The whole number nearest to [a / b], the even one of the two when
    [a / b] is half way between them. *)
Definition nearest_even (a b : Z) : Z :=
  let q := a / b in
  match 2 * (a mod b) ?= b with
  | Lt => q
  | Gt => q + 1
  | Eq => if Z.even q then q else q + 1
  end.

(** [a / b] units rounded to the nearest multiple of the spacing at its
    magnitude, ties to even, as if the exponent had no upper bound. *)
Definition round_ratio (a b : Z) : Z :=
  let g := spacing (a / b) in nearest_even a (b * g) * g.

(** Rounding to nearest: what reaches 2^1024 becomes [Infinity]. *)
Definition rounded (a b : Z) : t :=
  let r := round_ratio a b in
  if r <? overflow then Num r else Infinity.

(** [x + y]: the exact sum, rounded. *)
Definition add (x y : t) : t :=
  match x, y with
  | Num a, Num b => rounded (a + b) 1
  | _, _ => Infinity
  end.

(** [n / d] for two whole numbers below 2^53, which are binary64
    numbers themselves, [d] positive: the exact quotient, rounded. *)
Definition quotient (n d : Z) : t := rounded (n * 2 ^ 1074) d.

(** [x <= y]. *)
Definition leb (x y : t) : bool :=
  match x, y with
  | Num a, Num b => a <=? b
  | _, Infinity => true
  | Infinity, Num _ => false
  end.

(** [Math.max(x, y)]. *)
Definition max (x y : t) : t := if leb x y then y else x.

(** Not below zero. *)
Definition nonneg (x : t) : Prop :=
  match x with
  | Num a => 0 <= a
  | Infinity => True
  end.

(** The sum of two numbers of units without rounding. *)
Definition exact_add (x y : t) : t :=
  match x, y with
  | Num a, Num b => Num (a + b)
  | _, _ => Infinity
  end.

(** A number of units in seconds. *)
Definition seconds (a : Z) : Q := inject_Z a / inject_Z (2 ^ 1074).

(** The numbers of the Standard Library's specification of IEEE 754
    ([SpecFloat], at precision 53 and maximal exponent 1024) that are
    not negative and not [NaN], as numbers of units: mantissa [m] and
    exponent [e] stand for [m * 2^e]. *)
Definition units_of (m : positive) (e : Z) : Z := Zpos m * 2 ^ (e + 1074).

Definition of_spec (x : spec_float) : option t :=
  match x with
  | S754_zero false => Some (Num 0)
  | S754_infinity false => Some Infinity
  | S754_finite false m e => Some (Num (units_of m e))
  | _ => None
  end.

Definition to_spec (a : Z) : spec_float :=
  binary_normalize 53 1024 a (-1074) false.

(** A whole number as a binary64 number. *)
Definition of_whole (n : Z) : spec_float := binary_normalize 53 1024 n 0 false.

(** Where [(q * b + r) / b] lies between [q] and [q + 1], in the terms
    of [SpecFloat]. *)
Definition location_of (b r : Z) : location :=
  if r =? 0 then loc_Exact else loc_Inexact (2 * r ?= b).

End Binary64.

(** ** [useAudioPlayback] with the clock in binary64 *)

Module Playback64.

Import AudioPlayback.

(** The hook of [AudioPlayback] with [nextTimeRef], [ctx.currentTime]
    and [buffer.duration] as the binary64 numbers the program computes
    with; clock readings are given in units of 2^-1074 second. *)
Record t := {
  ctxRef : option AudioContext;
  nextTimeRef : Binary64.t;
  isPlayingRef : bool;
  fresh : handle
}.

Definition init : t :=
  {| ctxRef := None; nextTimeRef := Binary64.Num 0; isPlayingRef := false;
     fresh := O |}.

Definition new_context (s : t) : AudioContext * t * list effect :=
  let c := {| ctx_id := fresh s; state := suspended |} in
  (c,
   {| ctxRef := Some c; nextTimeRef := nextTimeRef s;
      isPlayingRef := isPlayingRef s; fresh := S (fresh s) |},
   [NewAudioContext (fresh s) AUDIO_RECEIVE_SAMPLE_RATE]).

Definition getContext (s : t) : AudioContext * t * list effect :=
  let '(c, s1, e1) :=
    match ctxRef s with
    | Some c => if is_closed c then new_context s else (c, s, [])
    | None => new_context s
    end in
  (c, s1, e1 ++ (if is_suspended c then [ResumeContext (ctx_id c)] else [])).

(** [source.start(startTime)] on a buffer of the given samples and
    [duration], on the context [on_context]. *)
Record sched_unit64 := {
  start : Z;
  duration : Binary64.t;
  samples : list Q;
  on_context : handle
}.

(** Where the cursor is put after the unit was started:
    [startTime + buffer.duration]. *)
Definition computed_end (u : sched_unit64) : Binary64.t :=
  Binary64.add (Binary64.Num (start u)) (duration u).

(** The start plus the duration, without rounding. *)
Definition exact_end (u : sched_unit64) : Binary64.t :=
  Binary64.exact_add (Binary64.Num (start u)) (duration u).

Inductive outcome64 :=
| Scheduled64 (u : sched_unit64)
| Failed64 (e : exn).

(** [playChunk(pcmData)], [now] being [ctx.currentTime] when it is read.
    [buffer.duration] is the length, which is below 2^53 for every
    array, over the sample rate; [start] raises a [TypeError] on a time
    that is not finite.  The calls listed are those of [getContext];
    the call of [start] is the outcome. *)
Definition playChunk (now : Z) (pcmData : list byte) (s : t)
  : t * list effect * outcome64 :=
  let '(ctx, s1, e1) := getContext s in
  match int16_array pcmData with
  | None => (s1, e1, Failed64 RangeError)
  | Some int16 =>
      let float32 := map (fun v => (inject_Z v / 32768)%Q) int16 in
      match float32 with
      | [] => (s1, e1, Failed64 NotSupportedError)
      | _ :: _ =>
          let buffer_duration :=
            Binary64.quotient (Z.of_nat (List.length float32))
                              AUDIO_RECEIVE_SAMPLE_RATE in
          match Binary64.max (Binary64.Num now) (nextTimeRef s1) with
          | Binary64.Infinity => (s1, e1, Failed64 TypeError)
          | Binary64.Num startTime =>
              let u := {| start := startTime; duration := buffer_duration;
                          samples := float32; on_context := ctx_id ctx |} in
              ({| ctxRef := ctxRef s1;
                  nextTimeRef :=
                    Binary64.add (Binary64.Num startTime) buffer_duration;
                  isPlayingRef := true;
                  fresh := fresh s1 |},
               e1, Scheduled64 u)
          end
      end
  end.

(** [source.onended], [now] being the clock of the context the source
    was created on, and [0.05] the binary64 number nearest to 5/100. *)
Definition onended (now : Z) (s : t) : t :=
  if Binary64.leb (nextTimeRef s)
                  (Binary64.add (Binary64.Num now) (Binary64.quotient 5 100))
  then {| ctxRef := ctxRef s; nextTimeRef := nextTimeRef s;
          isPlayingRef := false; fresh := fresh s |}
  else s.

Definition flush (s : t) : t * list effect :=
  ({| ctxRef := None; nextTimeRef := Binary64.Num 0; isPlayingRef := false;
      fresh := fresh s |},
   if_some (ctxRef s) (fun c => [CloseContext (ctx_id c)])).

Definition statechange (st : ctx_state) (s : t) : t :=
  {| ctxRef :=
       option_map (fun c => {| ctx_id := ctx_id c; state := st |}) (ctxRef s);
     nextTimeRef := nextTimeRef s;
     isPlayingRef := isPlayingRef s;
     fresh := fresh s |}.

(** The callbacks of the hook and the platform's moves, and the history
    of a run, as in [AudioPlayback]. *)
Inductive call64 :=
| PlayChunk64 (now : Z) (pcmData : list byte)
| Ended64 (now : Z)
| StateChange64 (st : ctx_state)
| Flush64.

Record entry64 := {
  e_call64 : call64;
  e_before64 : t;
  e_after64 : t;
  e_outcome64 : option outcome64
}.

Definition step64 (c : call64) (s : t) : entry64 :=
  match c with
  | PlayChunk64 now pcm =>
      let '(s', _, o) := playChunk now pcm s in
      {| e_call64 := c; e_before64 := s; e_after64 := s';
         e_outcome64 := Some o |}
  | Ended64 now =>
      {| e_call64 := c; e_before64 := s; e_after64 := onended now s;
         e_outcome64 := None |}
  | StateChange64 st =>
      {| e_call64 := c; e_before64 := s; e_after64 := statechange st s;
         e_outcome64 := None |}
  | Flush64 =>
      {| e_call64 := c; e_before64 := s; e_after64 := fst (flush s);
         e_outcome64 := None |}
  end.

Fixpoint history64 (s : t) (cs : list call64) : list entry64 :=
  match cs with
  | [] => []
  | c :: r => let e := step64 c s in e :: history64 (e_after64 e) r
  end.

Fixpoint final64 (s : t) (cs : list call64) : t :=
  match cs with
  | [] => s
  | c :: r => final64 (e_after64 (step64 c s)) r
  end.

Definition flush_free (cs : list call64) : bool :=
  forallb (fun c => match c with Flush64 => false | _ => true end) cs.

(** Every clock reading of the run is a binary64 number. *)
Definition clock_readings_ok (cs : list call64) : bool :=
  forallb (fun c => match c with
                    | PlayChunk64 now _ | Ended64 now =>
                        Binary64.representable now
                    | _ => true
                    end) cs.

(** The unit of a step, if it scheduled one, and the units a history
    scheduled, oldest first. *)
Definition unit_of64 (e : entry64) : list sched_unit64 :=
  match e_outcome64 e with
  | Some (Scheduled64 u) => [u]
  | _ => []
  end.

Definition units64 (h : list entry64) : list sched_unit64 :=
  flat_map unit_of64 h.

(** The units of a run from a cursor [c]: the first starts at a binary64
    number not before [c], each one after it at one not before the
    cursor the unit before it left. *)
Fixpoint chained64 (c : Binary64.t) (us : list sched_unit64) : Prop :=
  match us with
  | [] => True
  | u :: r =>
      Binary64.leb c (Binary64.Num (start u)) = true
      /\ Binary64.representable (start u) = true
      /\ Binary64.nonneg (duration u)
      /\ chained64 (computed_end u) r
  end.

(** Every [playChunk] of the run reads a clock that has not passed the
    cursor: the chunk arrives in time. *)
Fixpoint in_time64 (s : t) (cs : list call64) : Prop :=
  match cs with
  | [] => True
  | c :: r =>
      match c with
      | PlayChunk64 now _ =>
          Binary64.leb (Binary64.Num now) (nextTimeRef s) = true
      | _ => True
      end
      /\ in_time64 (e_after64 (step64 c s)) r
  end.

(** The first unit starts at [c], each one after it at the cursor the
    unit before it left. *)
Fixpoint back_to_back64 (c : Binary64.t) (us : list sched_unit64) : Prop :=
  match us with
  | [] => True
  | u :: r => Binary64.Num (start u) = c /\ back_to_back64 (computed_end u) r
  end.

(** Every unit but the first starts at or after the cursor the unit
    before it left. *)
Fixpoint after_computed_ends (us : list sched_unit64) : Prop :=
  match us with
  | [] => True
  | u :: r =>
      match r with
      | [] => True
      | v :: _ =>
          Binary64.leb (computed_end u) (Binary64.Num (start v)) = true
          /\ after_computed_ends r
      end
  end.

(** Every unit but the first starts at or after the exact sum of the
    start and the duration of the unit before it. *)
Fixpoint no_overlap64 (us : list sched_unit64) : Prop :=
  match us with
  | [] => True
  | u :: r =>
      match r with
      | [] => True
      | v :: _ =>
          Binary64.leb (exact_end u) (Binary64.Num (start v)) = true
          /\ no_overlap64 r
      end
  end.

(** Every unit but the first starts no more than half a spacing of
    binary64 numbers before the exact sum of the start and the duration
    of the unit before it. *)
Fixpoint overlap_within_rounding (us : list sched_unit64) : Prop :=
  match us with
  | [] => True
  | u :: r =>
      match r with
      | [] => True
      | v :: _ =>
          (forall d, duration u = Binary64.Num d ->
                     2 * (start u + d) - Binary64.spacing (start u + d)
                     <= 2 * start v)
          /\ overlap_within_rounding r
      end
  end.

(** The durations added up without rounding, and one by one in
    binary64, from [x]. *)
Definition exact_sum (x : Binary64.t) (us : list sched_unit64) : Binary64.t :=
  fold_left (fun acc u => Binary64.exact_add acc (duration u)) us x.

Definition running_sum (x : Binary64.t) (us : list sched_unit64) : Binary64.t :=
  fold_left (fun acc u => Binary64.add acc (duration u)) us x.

(** From the start of the first unit to the exact end of the last
    there is at least the sum of the durations. *)
Definition span_covers_durations64 (us : list sched_unit64) : Prop :=
  match us with
  | [] => True
  | u :: r =>
      Binary64.leb (exact_sum (Binary64.Num (start u)) us)
                   (exact_end (last r u)) = true
  end.

(** Eight chunks of 2400 samples, a tenth of a second each, all handed
    over at clock zero. *)
Definition eight_tenths : list call64 :=
  repeat (PlayChunk64 0 (repeat x00 4800)) 8.

End Playback64.

(** ** [useCameraCapture]: the Frame Pacer *)

Module CameraCapture.

(** The mounted [<video>] element, as far as the hook writes it. *)
Record video := {
  srcObject : option (list handle)
}.

Record t := {
  videoRef : option video;
  streamRef : option (list handle);      (* the stream's tracks *)
  intervalRef : option handle;
  canvasRef : option handle;
  isActive : bool;
  frameCountRef : Z
}.

Definition init : t :=
  {| videoRef := None; streamRef := None; intervalRef := None;
     canvasRef := None; isActive := false; frameCountRef := 0 |}.

(** What the platform shows the interval callback at one tick: the video
    element's [readyState], whether the canvas hands out a 2d context,
    and what [toDataURL] returns. *)
Record observation := {
  readyState : Z;
  context2d : bool;
  dataUrl : jsstring
}.

Definition count_frame (s : t) : t :=
  {| videoRef := videoRef s; streamRef := streamRef s;
     intervalRef := intervalRef s; canvasRef := canvasRef s;
     isActive := isActive s; frameCountRef := frameCountRef s + 1 |}.

(** The callback given to [setInterval]. *)
Definition interval_callback (o : observation) (s : t)
  : t * list effect * completion :=
  match videoRef s, canvasRef s with
  | Some _, Some _ =>
      if readyState o <? 2 then
        (s, [Console WARN (FrameSkippedVideoNotReady (readyState o))], Returned)
      else if negb (context2d o) then (s, [], Returned)
      else
        let base64 := split_comma_1 (dataUrl o) in
        let s' := count_frame s in
        let n := frameCountRef s' in
        if (n <=? 3) || (Z.rem n 10 =? 0) then
          match base64 with
          | Some b =>
              (s',
               [DrawImage; Console LOG (FrameCaptured n (List.length b));
                OnFrame base64],
               Returned)
          | None => (s', [DrawImage], Thrown TypeError)
          end
        else (s', [DrawImage; OnFrame base64], Returned)
  | _, _ => (s, [Console WARN FrameSkippedRefsNotReady], Returned)
  end.

(** What [getUserMedia] answered. *)
Inductive acquisition := Granted (tracks : list handle) | Refused.

(** [start()], with the platform's answer and the handles it allocates;
    the stream is taken to have a video track and [video.play()] to
    resolve ([IntervalTimers.start] has the other answers). *)
Definition start (a : acquisition) (canvas timer : handle) (s : t)
  : t * list effect * completion :=
  match a with
  | Granted tracks =>
      ({| videoRef :=
            option_map (fun _ => {| srcObject := Some tracks |}) (videoRef s);
          streamRef := Some tracks;
          intervalRef := Some timer;
          canvasRef := Some canvas;
          isActive := true;
          frameCountRef := 0 |},
       [Console LOG RequestingCameraAccess; Console LOG CameraAccessGranted;
        match videoRef s with
        | Some _ => Console LOG VideoElementPlaying
        | None => Console WARN VideoRefIsNull
        end;
        SetInterval timer CAMERA_FRAME_INTERVAL_MS;
        Console LOG CameraCaptureStarted],
       Returned)
  | Refused =>
      (s, [Console LOG RequestingCameraAccess; Console ERROR CameraAccessError],
       Thrown AcquisitionError)
  end.

Definition stop (s : t) : t * list effect :=
  ({| videoRef := option_map (fun _ => {| srcObject := None |}) (videoRef s);
      streamRef := None;
      intervalRef := None;
      canvasRef := canvasRef s;
      isActive := false;
      frameCountRef := frameCountRef s |},
   if_some (intervalRef s) (fun t => [ClearInterval t])
   ++ if_some (streamRef s) (map StopTrack)
   ++ [Console LOG (CameraStopped (frameCountRef s))]).

(** The frames a callback handed to [onFrame]. *)
Definition frames (es : list effect) : list (option jsstring) :=
  flat_map (fun e => match e with OnFrame f => [f] | _ => [] end) es.

(** Successive runs of the callback, each against what the platform
    shows at that run. *)
Fixpoint run (os : list observation) (s : t) : t * list (list effect) :=
  match os with
  | [] => (s, [])
  | o :: r =>
      let '(s1, e, _) := interval_callback o s in
      let '(s2, es) := run r s1 in
      (s2, e :: es)
  end.

End CameraCapture.

(** ** The interval timers of the Frame Pacer *)

Module IntervalTimers.

Import CameraCapture.

(** The hook together with the interval timers that are installed on
    the platform and not cleared: [setInterval] adds one, with an id
    that was not handed out before, and [clearInterval] removes the one
    it names.  [intervalRef] holds the id of the timer installed last. *)
Record t := {
  hook : CameraCapture.t;
  live : list handle;
  next_timer : handle
}.

Definition init (h : CameraCapture.t) : t :=
  {| hook := h; live := []; next_timer := 1%nat |}.

(** What the platform answers during [start()]: [getUserMedia] resolves
    with a stream of the given video tracks or rejects, and [video.play()]
    resolves or rejects with an exception. *)
Inductive answer :=
| Stream (tracks : list handle) (play : option exn)
| Denied.

Definition set_hook (h : CameraCapture.t) (p : t) : t :=
  {| hook := h; live := live p; next_timer := next_timer p |}.

(** [start()].  [getVideoTracks()[0].label] raises a [TypeError] on a
    stream without a video track, and a rejected [play()] is raised
    after the stream was given to the video element; either way the
    [catch] logs and raises again before a timer is installed.
    Otherwise the hook moves as in [CameraCapture.start], and the
    platform has one more timer.  No path clears a timer. *)
Definition start (a : answer) (canvas : handle) (p : t)
  : t * list effect * completion :=
  match a with
  | Denied =>
      (p, [Console LOG RequestingCameraAccess; Console ERROR CameraAccessError],
       Thrown AcquisitionError)
  | Stream [] _ =>
      (p, [Console LOG RequestingCameraAccess; Console ERROR CameraAccessError],
       Thrown TypeError)
  | Stream tracks play =>
      match videoRef (hook p), play with
      | Some _, Some e =>
          (set_hook
             {| videoRef := Some {| srcObject := Some tracks |};
                streamRef := streamRef (hook p);
                intervalRef := intervalRef (hook p);
                canvasRef := canvasRef (hook p);
                isActive := isActive (hook p);
                frameCountRef := frameCountRef (hook p) |} p,
           [Console LOG RequestingCameraAccess; Console LOG CameraAccessGranted;
            Console ERROR CameraAccessError],
           Thrown e)
      | _, _ =>
          let '(h, e, c) :=
            CameraCapture.start (Granted tracks) canvas (next_timer p) (hook p) in
          ({| hook := h; live := live p ++ [next_timer p];
              next_timer := S (next_timer p) |}, e, c)
      end
  end.

(** [clearInterval(id)]. *)
Definition clear (id : option handle) (l : list handle) : list handle :=
  match id with
  | Some t => remove Nat.eq_dec t l
  | None => l
  end.

Definition stop (p : t) : t * list effect :=
  let '(h, e) := CameraCapture.stop (hook p) in
  ({| hook := h; live := clear (intervalRef (hook p)) (live p);
      next_timer := next_timer p |}, e).

(** [handleToggleCamera] of the panel: [stop] when the camera is
    active, [start] when it is not, [isCameraActive] being the hook's
    [isActive] as of the click (the panel has rendered since it last
    changed). *)
Definition handleToggleCamera (a : answer) (canvas : handle) (p : t)
  : t * list effect :=
  if isActive (hook p) then stop p
  else let '(p', e, _) := start a canvas p in (p', e).

(** The callbacks of the timers in [ts], one after the other in the
    order of [ts], [shows t] being what the platform shows the callback
    of timer [t]. *)
Fixpoint fire (shows : handle -> observation) (ts : list handle)
         (h : CameraCapture.t) : CameraCapture.t * list effect :=
  match ts with
  | [] => (h, [])
  | t :: r =>
      let '(h1, e, _) := interval_callback (shows t) h in
      let '(h2, es) := fire shows r h1 in
      (h2, e ++ es)
  end.

(** One interval window, [CAMERA_FRAME_INTERVAL_MS] long, between two
    calls of the hook: every live timer fires once in it, all timers
    having that period. *)
Definition window (shows : handle -> observation) (p : t) : t * list effect :=
  let '(h, e) := fire shows (live p) (hook p) in (set_hook h p, e).

(** What happens to the camera of a mounted panel. *)
Inductive event :=
| Start (a : answer) (canvas : handle)
| Stop
| Toggle (a : answer) (canvas : handle)
| Window (shows : handle -> observation).

Definition react (ev : event) (p : t) : t * list effect :=
  match ev with
  | Start a canvas => let '(p', e, _) := start a canvas p in (p', e)
  | Stop => stop p
  | Toggle a canvas => handleToggleCamera a canvas p
  | Window shows => window shows p
  end.

(** A run, with what each event made the platform do. *)
Fixpoint run (evs : list event) (p : t) : t * list (event * list effect) :=
  match evs with
  | [] => (p, [])
  | ev :: r =>
      let '(p1, e) := react ev p in
      let '(p2, log) := run r p1 in
      (p2, (ev, e) :: log)
  end.






(** The hook before any [start], with the video element mounted. *)
Definition mounted : CameraCapture.t :=
  {| videoRef := Some {| srcObject := None |}; streamRef := None;
     intervalRef := None; canvasRef := None; isActive := false;
     frameCountRef := 0 |}.

End IntervalTimers.

(** ** [useWebSocket]: the Connection Manager *)

Module WebSocket.

Inductive ready_state := CONNECTING | OPEN | CLOSING | CLOSED.

Inductive WSStatus := disconnected | connecting | connected | error.

(** A socket the hook created: its ready state, and the preset its
    [onopen] closure captured. *)
Record socket := {
  readyState : ready_state;
  preset : jsstring
}.

(** The sockets created so far are kept by handle, so that a socket no
    longer referenced by [wsRef] still has a state its handlers act on. *)
Record t := {
  sockets : list socket;
  wsRef : option handle;
  status : WSStatus
}.

Definition init : t :=
  {| sockets := []; wsRef := None; status := disconnected |}.

Fixpoint set_nth {A} (n : nat) (x : A) (l : list A) : list A :=
  match l, n with
  | [], _ => []
  | _ :: r, O => x :: r
  | y :: r, S m => y :: set_nth m x r
  end.

Definition set_ready (k : handle) (rs : ready_state) (l : list socket)
  : list socket :=
  match nth_error l k with
  | Some w => set_nth k {| readyState := rs; preset := preset w |} l
  | None => l
  end.

(** [wsRef.current?.readyState]; [None] is [undefined]. *)
Definition ref_readyState (s : t) : option ready_state :=
  match wsRef s with
  | Some k => option_map readyState (nth_error (sockets s) k)
  | None => None
  end.

Definition is_open (r : option ready_state) : bool :=
  match r with
  | Some OPEN => true
  | _ => false
  end.

(** [connect(sessionId, preset = "general")]. *)
Definition connect (sessionId : jsstring) (preset : option jsstring) (s : t)
  : t * list effect :=
  if is_open (ref_readyState s) then (s, [])
  else
    let k := List.length (sockets s) in
    let p := match preset with Some p => p | None => lit "general" end in
    ({| sockets := sockets s ++ [{| readyState := CONNECTING; preset := p |}];
        wsRef := Some k;
        status := connecting |},
     [NewWebSocket k sessionId]).

(** [ws.send(data)] as the platform defines it: it raises on a socket
    that is still connecting, transmits on an open one, and discards the
    data on one that is closing or closed. *)
Definition socket_send (k : handle) (rs : option ready_state) (p : outbound)
  : list effect * completion :=
  match rs with
  | Some CONNECTING => ([], Thrown InvalidStateError)
  | Some OPEN => ([SocketSend k p], Returned)
  | Some CLOSING | Some CLOSED => ([], Returned)
  | None => ([], Thrown TypeError)
  end.

(** [ws.close()]: starts the closing handshake of a socket that is
    connecting or open, does nothing on one that is closing or closed. *)
Definition close (k : handle) (l : list socket) : list socket * list effect :=
  match option_map readyState (nth_error l k) with
  | Some CONNECTING | Some OPEN => (set_ready k CLOSING l, [SocketClose k])
  | _ => (l, [])
  end.

Definition disconnect (s : t) : t * list effect :=
  let '(l, e) :=
    match wsRef s with
    | Some k => close k (sockets s)
    | None => (sockets s, [])
    end in
  ({| sockets := l; wsRef := None; status := disconnected |}, e).

(** [if (wsRef.current?.readyState === WebSocket.OPEN) wsRef.current.send(p)]. *)
Definition send (p : outbound) (s : t) : t * list effect * completion :=
  if is_open (ref_readyState s) then
    match wsRef s with
    | Some k => let '(e, c) := socket_send k (ref_readyState s) p in (s, e, c)
    | None => (s, [], Thrown TypeError)
    end
  else (s, [], Returned).

Definition sendAudio (buffer : list byte) : t -> t * list effect * completion :=
  send (Binary buffer).

Definition sendImage (base64Jpeg : option jsstring)
  : t -> t * list effect * completion :=
  send (Image base64Jpeg).

Definition sendText (text : jsstring) : t -> t * list effect * completion :=
  send (Text text).

(** What arrives in a message event: binary data, or text that
    [JSON.parse] and the dispatch on the result accept ([Some]) or that
    makes one of them raise ([None]). *)
Inductive inbound :=
| BinaryFrame (data : list byte)
| TextFrame (parsed : option WSMessage).

Definition with_status (st : WSStatus) (l : list socket) (s : t) : t :=
  {| sockets := l; wsRef := wsRef s; status := st |}.

(** The handlers [connect] installs on socket [k].  The platform moves
    the socket to its new ready state before it runs [onopen] and
    [onclose]. *)
Definition onopen (k : handle) (s : t) : t * list effect :=
  let l := set_ready k OPEN (sockets s) in
  (with_status connected l s,
   if_some (nth_error l k)
     (fun w => fst (socket_send k (Some (readyState w)) (Config (preset w))))).

Definition onmessage (d : inbound) (s : t) : t * list effect :=
  match d with
  | BinaryFrame data => (s, [OnAudioChunk data])
  | TextFrame (Some msg) => (s, [OnMessage msg])
  | TextFrame None => (s, [Console WARN InvalidWsMessage])
  end.

Definition onerror (s : t) : t * list effect :=
  (with_status error (sockets s) s, [Console ERROR WebSocketError]).

Definition onclose (k : handle) (s : t) : t * list effect :=
  (with_status disconnected (set_ready k CLOSED (sockets s)) s, [OnDisconnect]).

End WebSocket.

(** ** [AgentPanel]: the Session Controller *)

Module AgentPanel.

Inductive SessionState := idle | active.

Inductive role := user | assistant | system.

(** A transcript entry is its role and text; the [id] and [timestamp]
    fields, drawn from the wall clock and the random generator, are left
    out. *)
Definition TranscriptEntry : Type := role * jsstring.

Record t := {
  sessionState : SessionState;
  agentName : jsstring;
  transcript : list TranscriptEntry;
  sessionIdRef : jsstring;
  assistantBufferRef : jsstring;
  playback : AudioPlayback.t;
  mic : AudioCapture.t;
  camera : CameraCapture.t;
  ws : WebSocket.t
}.

Definition init : t :=
  {| sessionState := idle;
     agentName := lit "general";
     transcript := [];
     sessionIdRef := [];
     assistantBufferRef := [];
     playback := AudioPlayback.init;
     mic := AudioCapture.init;
     camera := CameraCapture.init;
     ws := WebSocket.init |}.

Definition setSessionState (x : SessionState) (p : t) : t :=
  {| sessionState := x; agentName := agentName p; transcript := transcript p;
     sessionIdRef := sessionIdRef p; assistantBufferRef := assistantBufferRef p;
     playback := playback p; mic := mic p; camera := camera p; ws := ws p |}.

Definition setAgentName (x : jsstring) (p : t) : t :=
  {| sessionState := sessionState p; agentName := x; transcript := transcript p;
     sessionIdRef := sessionIdRef p; assistantBufferRef := assistantBufferRef p;
     playback := playback p; mic := mic p; camera := camera p; ws := ws p |}.

Definition setTranscript (x : list TranscriptEntry) (p : t) : t :=
  {| sessionState := sessionState p; agentName := agentName p; transcript := x;
     sessionIdRef := sessionIdRef p; assistantBufferRef := assistantBufferRef p;
     playback := playback p; mic := mic p; camera := camera p; ws := ws p |}.

Definition set_sessionId (x : jsstring) (p : t) : t :=
  {| sessionState := sessionState p; agentName := agentName p;
     transcript := transcript p;
     sessionIdRef := x; assistantBufferRef := assistantBufferRef p;
     playback := playback p; mic := mic p; camera := camera p; ws := ws p |}.

Definition set_assistantBuffer (x : jsstring) (p : t) : t :=
  {| sessionState := sessionState p; agentName := agentName p;
     transcript := transcript p;
     sessionIdRef := sessionIdRef p; assistantBufferRef := x;
     playback := playback p; mic := mic p; camera := camera p; ws := ws p |}.

Definition set_playback (x : AudioPlayback.t) (p : t) : t :=
  {| sessionState := sessionState p; agentName := agentName p;
     transcript := transcript p;
     sessionIdRef := sessionIdRef p; assistantBufferRef := assistantBufferRef p;
     playback := x; mic := mic p; camera := camera p; ws := ws p |}.

Definition set_mic (x : AudioCapture.t) (p : t) : t :=
  {| sessionState := sessionState p; agentName := agentName p;
     transcript := transcript p;
     sessionIdRef := sessionIdRef p; assistantBufferRef := assistantBufferRef p;
     playback := playback p; mic := x; camera := camera p; ws := ws p |}.

Definition set_camera (x : CameraCapture.t) (p : t) : t :=
  {| sessionState := sessionState p; agentName := agentName p;
     transcript := transcript p;
     sessionIdRef := sessionIdRef p; assistantBufferRef := assistantBufferRef p;
     playback := playback p; mic := mic p; camera := x; ws := ws p |}.

Definition set_ws (x : WebSocket.t) (p : t) : t :=
  {| sessionState := sessionState p; agentName := agentName p;
     transcript := transcript p;
     sessionIdRef := sessionIdRef p; assistantBufferRef := assistantBufferRef p;
     playback := playback p; mic := mic p; camera := camera p; ws := x |}.

(** [addEntry(role, text)]: [setTranscript(prev => [...prev, entry])]. *)
Definition addEntry (r : role) (text : jsstring) (p : t) : t :=
  setTranscript (transcript p ++ [(r, text)]) p.

(** [handleAudioChunk], [now] being the audio clock [playChunk] reads. *)
Definition handleAudioChunk (now : Q) (data : list byte) (p : t)
  : t * list effect :=
  let '(pb, e, _) := AudioPlayback.playChunk now data (playback p) in
  (set_playback pb p, e).

Definition handleMessage (msg : WSMessage) (p : t) : t * list effect :=
  match type msg with
  | Tag.session_ready =>
      let name := or_else (agent msg) (lit "general") in
      (addEntry system (lit "Connected to " ++ name ++ lit " agent.")
         (setAgentName name p),
       [])
  | Tag.transcript =>
      (set_assistantBuffer (assistantBufferRef p ++ or_else (text msg) []) p, [])
  | Tag.input_transcript =>
      match text msg with
      | Some txt =>
          if truthy txt && truthy (trim txt)
          then (addEntry user txt p, [])
          else (p, [])
      | None => (p, [])
      end
  | Tag.turn_complete =>
      if truthy (assistantBufferRef p)
      then (set_assistantBuffer [] (addEntry assistant (assistantBufferRef p) p),
            [])
      else (p, [])
  | Tag.interrupted =>
      let '(pb, e) := AudioPlayback.flush (playback p) in
      let p1 := set_playback pb p in
      if truthy (assistantBufferRef p1)
      then (set_assistantBuffer []
              (addEntry assistant
                 (assistantBufferRef p1 ++ lit " [interrupted]") p1),
            e)
      else (p1, e)
  | Tag.error =>
      (addEntry system (lit "Error: " ++ interpolate (message msg)) p, [])
  | Tag.unrecognized => (p, [])
  end.

Definition handleDisconnect (p : t) : t :=
  addEntry system (lit "Session ended.") (setSessionState idle p).

(** [handleStart(presetId)], [sessionId] being what [crypto.randomUUID()]
    returned. *)
Definition handleStart (presetId sessionId : jsstring) (p : t)
  : t * list effect :=
  let p1 := setAgentName presetId
              (setTranscript [] (setSessionState active
                 (set_sessionId sessionId p))) in
  let '(w, e) := WebSocket.connect sessionId (Some presetId) (ws p1) in
  (set_ws w p1, e).

Definition handleEndSession (p : t) : t * list effect :=
  let '(m, e1) := AudioCapture.stop (mic p) in
  let '(c, e2) := CameraCapture.stop (camera p) in
  let '(w, e3) := WebSocket.disconnect (ws p) in
  (setSessionState idle (set_ws w (set_camera c (set_mic m p))),
   e1 ++ e2 ++ e3).

Definition handleSendText (text : jsstring) (p : t) : t * list effect :=
  let '(w, e, _) := WebSocket.sendText text (ws p) in
  (addEntry user text (set_ws w p), e).

(** The callback props, as the component passes them to the hooks:
    [onChunk = sendAudio], [onFrame = sendImage],
    [onAudioChunk = handleAudioChunk], [onMessage = handleMessage],
    [onDisconnect = handleDisconnect].  Calls on the platform pass
    through. *)
Definition prop (now : Q) (e : effect) (p : t) : t * list effect :=
  match e with
  | OnChunk buffer =>
      let '(w, e', _) := WebSocket.sendAudio buffer (ws p) in (set_ws w p, e')
  | OnFrame base64 =>
      let '(w, e', _) := WebSocket.sendImage base64 (ws p) in (set_ws w p, e')
  | OnAudioChunk data => handleAudioChunk now data p
  | OnMessage msg => handleMessage msg p
  | OnDisconnect => (handleDisconnect p, [])
  | other => (p, [other])
  end.

Fixpoint props (now : Q) (es : list effect) (p : t) : t * list effect :=
  match es with
  | [] => (p, [])
  | e :: r =>
      let '(p1, e1) := prop now e p in
      let '(p2, e2) := props now r p1 in
      (p2, e1 ++ e2)
  end.

(** What can happen to a mounted panel: the user's commands and the
    callbacks the platform drives. *)
Inductive event :=
| Start (presetId sessionId : jsstring)
| EndSession
| SendText (text : jsstring)
| MicBlock (float32 : list float)
| CameraTick (o : CameraCapture.observation)
| SocketOpen (k : handle)
| SocketMessage (d : WebSocket.inbound) (now : Q)
| SocketError
| SocketClosed (k : handle)
| SourceEnded (now : Q).

Definition react (ev : event) (p : t) : t * list effect :=
  match ev with
  | Start presetId sessionId => handleStart presetId sessionId p
  | EndSession => handleEndSession p
  | SendText text => handleSendText text p
  | MicBlock float32 => props 0 (AudioCapture.onaudioprocess float32) p
  | CameraTick o =>
      let '(c, e, _) := CameraCapture.interval_callback o (camera p) in
      props 0 e (set_camera c p)
  | SocketOpen k =>
      let '(w, e) := WebSocket.onopen k (ws p) in props 0 e (set_ws w p)
  | SocketMessage d now =>
      let '(w, e) := WebSocket.onmessage d (ws p) in props now e (set_ws w p)
  | SocketError =>
      let '(w, e) := WebSocket.onerror (ws p) in props 0 e (set_ws w p)
  | SocketClosed k =>
      let '(w, e) := WebSocket.onclose k (ws p) in props 0 e (set_ws w p)
  | SourceEnded now =>
      (set_playback (AudioPlayback.onended now (playback p)) p, [])
  end.

Fixpoint reacts (evs : list event) (p : t) : t * list effect :=
  match evs with
  | [] => (p, [])
  | ev :: r =>
      let '(p1, e1) := react ev p in
      let '(p2, e2) := reacts r p1 in
      (p2, e1 ++ e2)
  end.

(** An inbound control message with the given tag and [text]. *)
Definition control (tag : Tag.t) (txt : option jsstring) : WSMessage :=
  {| type := tag; text := txt; session_id := None; agent := None;
     message := None |}.

(** The entries of a transcript that announce the end of the session. *)
Definition ended_notices (l : list TranscriptEntry) : nat :=
  List.length
    (filter (fun e =>
               match fst e with
               | system => if list_eq_dec N.eq_dec (snd e) (lit "Session ended.")
                           then true else false
               | _ => false
               end) l).

End AgentPanel.

(** ** The sample conversion in the words of the specification *)

Module Spec.

(** [clamp(x, -1, 1)]. *)
Definition clamp (x : Q) : Q :=
  if Qle_bool 1 x then 1%Q else if Qle_bool (-1) x then x else (-1)%Q.

(** [x < 0 ? 32768 : 32767]. *)
Definition full_scale (x : Q) : Z :=
  if negb (Qle_bool 0 x) then 32768 else 32767.

(** [round]: to the nearest integer, a tie going up as [Math.round] does. *)
Definition round (q : Q) : Z := Qfloor (q + (1 # 2)).

(** [i16 = round(clamp(x, -1, 1) * (x < 0 ? 32768 : 32767))]. *)
Definition rounded_sample (x : Q) : Z :=
  round (clamp x * inject_Z (full_scale x)).

(** The same with truncation toward zero in place of [round]. *)
Definition truncated_sample (x : Q) : Z :=
  Qtrunc (clamp x * inject_Z (full_scale x)).

End Spec.

(** ** [Controls]: the text box *)

Module Controls.

(** [handleTextSend], given the current [textInput]: the new [textInput]
    and the argument of the call of [onSendText], if it is made. *)
Definition handleTextSend (textInput : jsstring) : jsstring * option jsstring :=
  if truthy (trim textInput)
  then ([], Some (trim textInput))
  else (textInput, None).

End Controls.

(** ** [AgentSelector]: the choice of a preset *)

Module AgentSelector.

Record AgentInfo := {
  id : jsstring;
  name : jsstring;
  description : jsstring;
  voice : jsstring
}.

Record t := {
  agents : list AgentInfo;
  selected : jsstring;
  loading : bool
}.

Definition init : t :=
  {| agents := []; selected := lit "general"; loading := true |}.

Definition fallback : AgentInfo :=
  {| id := lit "general";
     name := lit "General Assistant";
     description := lit "A friendly voice assistant.";
     voice := lit "Kore" |}.

(** How the request for the agents ended: with a body whose [agents]
    field is a list or is missing, or with a failure of the request or
    of the decoding of its body. *)
Inductive fetched :=
| Resolved (agents : option (list AgentInfo))
| Rejected.

(** The two continuations of the [fetch] in the mount effect. *)
Definition on_fetch (r : fetched) (s : t) : t :=
  match r with
  | Resolved a =>
      {| agents := match a with Some l => l | None => [] end;
         selected := selected s;
         loading := false |}
  | Rejected =>
      {| agents := [fallback]; selected := selected s; loading := false |}
  end.

(** A click on the button of the [i]-th agent; the buttons are rendered
    only once [loading] is over, one per listed agent. *)
Definition click_agent (i : nat) (s : t) : t :=
  if loading s then s
  else
    match nth_error (agents s) i with
    | Some a =>
        {| agents := agents s; selected := id a; loading := loading s |}
    | None => s
    end.

Definition clicks (l : list nat) (s : t) : t :=
  fold_left (fun s i => click_agent i s) l s.

(** The argument of [onStart] when Start Session is clicked. *)
Definition click_start (s : t) : jsstring := selected s.

End AgentSelector.

(** ** Readings of a list of platform calls *)

(** The sources started, with the context each was started on. *)
Definition started (es : list effect) : list (handle * sched_unit) :=
  flat_map (fun e => match e with
                     | StartSource c u => [(c, u)]
                     | _ => []
                     end) es.

(** The tracks stopped. *)
Definition stopped_tracks (es : list effect) : list handle :=
  flat_map (fun e => match e with StopTrack t => [t] | _ => [] end) es.

(** What was put on the sockets. *)
Definition sent (es : list effect) : list (handle * outbound) :=
  flat_map (fun e => match e with SocketSend k p => [(k, p)] | _ => [] end) es.

(** The sockets on which [close()] took effect. *)
Definition closed_sockets (es : list effect) : list handle :=
  flat_map (fun e => match e with SocketClose k => [k] | _ => [] end) es.

(** A [transcript] control message as it arrives on the socket. *)
Definition transcript_event (txt : option jsstring) : AgentPanel.event :=
  AgentPanel.SocketMessage
    (WebSocket.TextFrame (Some (AgentPanel.control Tag.transcript txt))) 0.

Definition turn_complete_event : AgentPanel.event :=
  AgentPanel.SocketMessage
    (WebSocket.TextFrame (Some (AgentPanel.control Tag.turn_complete None))) 0.

(** [a + b] on strings, for the texts of a run of [transcript] messages. *)
Definition joined (l : list (option jsstring)) : jsstring :=
  List.concat (map (fun t => or_else t []) l).

(** All the platform calls of a run of the playback hook, in order. *)
Definition platform_calls (h : list AudioPlayback.entry) : list effect :=
  flat_map AudioPlayback.e_effects h.

(** The context the playback hook holds, if any, was handed out before
    [fresh] and not before [f0]. *)
Definition held_between (f0 : handle) (s : AudioPlayback.t) : Prop :=
  (f0 <= AudioPlayback.fresh s)%nat
  /\ forall c, AudioPlayback.ctxRef s = Some c ->
               (f0 <= AudioPlayback.ctx_id c < AudioPlayback.fresh s)%nat.

(** The ticks at which the interval callback gets as far as drawing: the
    video element has a current frame and the canvas hands out a 2d
    context. *)
Definition drawable (o : CameraCapture.observation) : bool :=
  (2 <=? CameraCapture.readyState o) && CameraCapture.context2d o.

(** The calls that stay within the capture, camera and socket hooks:
    everything but the three callback props the panel answers by
    touching its playback, transcript or session state. *)
Definition media_only (e : effect) : bool :=
  match e with
  | OnAudioChunk _ | OnMessage _ | OnDisconnect => false
  | _ => true
  end.

(** The tracks of the stream a hook holds. *)
Definition tracks_of (r : option (list handle)) : list handle :=
  match r with
  | Some l => l
  | None => []
  end.

(* ================================================================= *)
(** * Part II.  Properties *)
(* ================================================================= *)

(** ** PCM encoding *)

Lemma wrap16_id (z : Z) : -32768 <= z <= 32767 -> wrap16 z = z.
Proof.
  intros Hz. unfold wrap16.
  rewrite Z.mod_small by lia. lia.
Qed.

Lemma Z_of_byte_of_Z (z : Z) : Z_of_byte (byte_of_Z z) = z mod 256.
Proof.
  unfold Z_of_byte, byte_of_Z.
  assert (Hr : 0 <= z mod 256 < 256) by (apply Z.mod_pos_bound; lia).
  destruct (Byte.of_N (Z.to_N (z mod 256))) as [b|] eqn:E.
  - apply Byte.to_of_N in E. rewrite E. apply Z2N.id. lia.
  - apply Byte.of_N_None_iff in E. lia.
Qed.

Lemma int16_of_bytes_int16_bytes (v : Z) :
  -32768 <= v <= 32767 ->
  int16_of_bytes (byte_of_Z v) (byte_of_Z (v / 256)) = v.
Proof.
  intros Hv. unfold int16_of_bytes, wrap16.
  rewrite !Z_of_byte_of_Z.
  Z.div_mod_to_equations. lia.
Qed.

Lemma int16_array_buffer (vs : list Z) :
  Forall (fun v => -32768 <= v <= 32767) vs ->
  int16_array (buffer_of_int16 vs) = Some vs.
Proof.
  induction 1 as [|v vs Hv _ IH]; [reflexivity|].
  change (buffer_of_int16 (v :: vs))
    with (byte_of_Z v :: byte_of_Z (v / 256) :: buffer_of_int16 vs).
  cbn [int16_array]. rewrite IH. cbn [option_map].
  now rewrite int16_of_bytes_int16_bytes.
Qed.

Lemma buffer_of_int16_length (vs : list Z) :
  List.length (buffer_of_int16 vs) = (2 * List.length vs)%nat.
Proof.
  induction vs as [|v vs IH]; [reflexivity|].
  change (buffer_of_int16 (v :: vs))
    with (byte_of_Z v :: byte_of_Z (v / 256) :: buffer_of_int16 vs).
  cbn [List.length]. rewrite IH. lia.
Qed.

(** Truncation toward zero stays between integer bounds that enclose
    zero. *)
Lemma Qtrunc_bounds (q : Q) (a b : Z) :
  a <= 0 <= b -> (inject_Z a <= q <= inject_Z b)%Q -> a <= Qtrunc q <= b.
Proof.
  intros Hab [Hlo Hhi]. destruct q as [n d]. unfold Qtrunc, Qle in *.
  cbn [Qnum Qden inject_Z] in *.
  assert (Hd : 0 < Zpos d) by lia.
  destruct (Z_le_gt_dec 0 n) as [Hn|Hn].
  - rewrite Z.quot_div_nonneg by lia. split.
    + pose proof (Z.div_pos n (Zpos d) Hn Hd). lia.
    + apply Z.div_le_upper_bound; lia.
  - replace n with (- (- n)) by lia.
    rewrite Z.quot_opp_l by lia.
    rewrite Z.quot_div_nonneg by lia. split.
    + assert (- n / Zpos d <= - a); [|lia].
      apply Z.div_le_upper_bound; lia.
    + pose proof (Z.div_pos (- n) (Zpos d)). lia.
Qed.

Lemma Qle_bool_false (x y : Q) : Qle_bool x y = false -> (y < x)%Q.
Proof.
  intros H. apply Qnot_le_lt. intros Hle.
  apply Qle_bool_iff in Hle. congruence.
Qed.

(** On a finite sample the loop body computes the truncated product. *)
Lemma sample_to_int16_finite (x : Q) :
  sample_to_int16 (Finite x) = Spec.truncated_sample x
  /\ -32768 <= sample_to_int16 (Finite x) <= 32767.
Proof.
  unfold sample_to_int16, Spec.truncated_sample, Spec.clamp, Spec.full_scale.
  unfold math_min, math_max. cbn [is_nan orb fleb].
  destruct (Qle_bool 1 x) eqn:E1.
  - apply Qle_bool_iff in E1.
    assert (E0 : Qle_bool 0 x = true) by (apply Qle_bool_iff; lra).
    rewrite E0. cbn. split; [reflexivity|lia].
  - apply Qle_bool_false in E1. cbn [is_nan orb fleb].
    destruct (Qle_bool (-1) x) eqn:E2; cbn [lt_zero].
    + apply Qle_bool_iff in E2.
      destruct (Qle_bool 0 x) eqn:E0; cbn [negb scale to_int16].
      * apply Qle_bool_iff in E0.
        assert (B : 0 <= Qtrunc (x * inject_Z 32767) <= 32767).
        { apply Qtrunc_bounds; [lia|].
          change (inject_Z 0) with 0%Q. change (inject_Z 32767) with 32767%Q.
          split; lra. }
        rewrite wrap16_id by lia. split; [reflexivity|lia].
      * apply Qle_bool_false in E0.
        assert (B : -32768 <= Qtrunc (x * inject_Z 32768) <= 0).
        { apply Qtrunc_bounds; [lia|].
          change (inject_Z 0) with 0%Q. change (inject_Z 32768) with 32768%Q.
          change (inject_Z (-32768)) with (-32768)%Q.
          split; lra. }
        rewrite wrap16_id by lia. split; [reflexivity|lia].
    + apply Qle_bool_false in E2.
      assert (E0 : Qle_bool 0 x = false).
      { destruct (Qle_bool 0 x) eqn:E0; [|reflexivity].
        apply Qle_bool_iff in E0. lra. }
      rewrite E0. cbn. split; [reflexivity|lia].
Qed.

Lemma sample_to_int16_range (x : float) :
  -32768 <= sample_to_int16 x <= 32767.
Proof.
  destruct x as [q| | |].
  - apply sample_to_int16_finite.
  - cbn. lia.
  - cbn. lia.
  - cbn. lia.
Qed.

(** ** The Capture Pipeline *)

Example capture_two_samples :
  AudioCapture.onaudioprocess [Finite (1 # 2); Finite (- (1 # 2))]
  = [OnChunk [xff; x3f; x00; xc0]].
Proof. reflexivity. Qed.

Example capture_not_a_number :
  AudioCapture.onaudioprocess [NaN; PosInf; NegInf]
  = [OnChunk [x00; x00; xff; x7f; x00; x80]].
Proof. reflexivity. Qed.

(** C3, as the code has it.  A block of N samples makes the capture
    callback call [onChunk] exactly once, with a buffer of 2N bytes that
    holds, in order, the 16-bit value of every sample; a finite sample x
    becomes clamp(x, -1, 1) * (32768 if x < 0, else 32767) truncated
    toward zero (not rounded), so that -1.0 gives -32768, 1.0 gives 32767
    and 0.0 gives 0. *)
Theorem capture_block_is_truncated_pcm (block : list float) :
  exists frame,
    AudioCapture.onaudioprocess block = [OnChunk frame]
    /\ List.length frame = (2 * List.length block)%nat
    /\ int16_array frame = Some (map sample_to_int16 block)
    /\ (forall x : Q, sample_to_int16 (Finite x) = Spec.truncated_sample x)
    /\ sample_to_int16 (Finite (-1)) = -32768
    /\ sample_to_int16 (Finite 1) = 32767
    /\ sample_to_int16 (Finite 0) = 0.
Proof.
  exists (buffer_of_int16 (map sample_to_int16 block)).
  split; [reflexivity|]. split.
  - rewrite buffer_of_int16_length, length_map. reflexivity.
  - split.
    + apply int16_array_buffer. apply Forall_forall.
      intros v Hv. apply in_map_iff in Hv as [x [<- _]].
      apply sample_to_int16_range.
    + split; [intros x; apply sample_to_int16_finite|].
      repeat split; reflexivity.
Qed.

(** C3 as the specification words it fails: the sample 0.25 scales to
    8191.75, which the code stores as 8191 while rounding gives 8192. *)
Lemma capture_does_not_round :
  AudioCapture.onaudioprocess [Finite (1 # 4)] = [OnChunk [xff; x1f]]
  /\ int16_array [xff; x1f] = Some [8191]
  /\ Spec.rounded_sample (1 # 4) = 8192
  /\ sample_to_int16 (Finite (1 # 4)) <> Spec.rounded_sample (1 # 4).
Proof.
  repeat split; try reflexivity.
  vm_compute. discriminate.
Qed.

(** ** Rounding to binary64 *)

Section Rounding.

Import Binary64.

Lemma spacing_pos (n : Z) : 0 < spacing n.
Proof. unfold spacing. apply Z.pow_pos_nonneg; lia. Qed.

Lemma spacing_small (n : Z) : n < 2 ^ 53 -> spacing n = 1.
Proof.
  intros H. unfold spacing.
  assert (Z.log2 n <= 52).
  { destruct (Z.le_gt_cases n 0) as [L|L].
    - rewrite Z.log2_nonpos by exact L. lia.
    - assert (Z.log2 n < 53) by (apply Z.log2_lt_pow2; lia). lia. }
  replace (Z.max 0 (Z.log2 n - 52)) with 0 by lia. reflexivity.
Qed.

Lemma spacing_large (n : Z) :
  2 ^ 53 <= n ->
  spacing n = 2 ^ (Z.log2 n - 52)
  /\ 1 <= Z.log2 n - 52
  /\ 2 ^ 52 * spacing n <= n < 2 ^ 53 * spacing n.
Proof.
  intros H. unfold spacing.
  assert (53 <= Z.log2 n) by (apply Z.log2_le_pow2; lia).
  replace (Z.max 0 (Z.log2 n - 52)) with (Z.log2 n - 52) by lia.
  split; [reflexivity|]. split; [lia|].
  destruct (Z.log2_spec n) as [L U]; [lia|].
  rewrite <- !Z.pow_add_r by lia.
  replace (52 + (Z.log2 n - 52)) with (Z.log2 n) by lia.
  replace (53 + (Z.log2 n - 52)) with (Z.succ (Z.log2 n)) by lia.
  lia.
Qed.

Lemma nearest_even_bounds (a b : Z) :
  0 < b ->
  a / b <= nearest_even a b <= a / b + 1
  /\ 2 * a - b <= 2 * (b * nearest_even a b) <= 2 * a + b.
Proof.
  intros Hb. unfold nearest_even.
  pose proof (Z.div_mod a b ltac:(lia)) as E.
  pose proof (Z.mod_pos_bound a b Hb) as R.
  destruct (Z.compare_spec (2 * (a mod b)) b) as [C|C|C].
  - destruct (Z.even (a / b)); nia.
  - nia.
  - nia.
Qed.

Lemma nearest_even_exact (a b : Z) :
  0 < b -> a mod b = 0 -> nearest_even a b = a / b.
Proof.
  intros Hb H. unfold nearest_even. rewrite H.
  change (2 * 0) with 0. destruct (Z.compare_spec 0 b); lia.
Qed.

Lemma nearest_even_mono (a a' b : Z) :
  0 < b -> a <= a' -> nearest_even a b <= nearest_even a' b.
Proof.
  intros Hb H.
  pose proof (Z.div_le_mono a a' b Hb H) as Q.
  destruct (Z.eq_dec (a / b) (a' / b)) as [E|N].
  - pose proof (Z.div_mod a b ltac:(lia)) as E1.
    pose proof (Z.div_mod a' b ltac:(lia)) as E2.
    assert (a mod b <= a' mod b) by nia.
    unfold nearest_even. rewrite <- E.
    destruct (Z.compare_spec (2 * (a mod b)) b);
      destruct (Z.compare_spec (2 * (a' mod b)) b);
      try lia; try (destruct (Z.even (a / b)); lia).
  - pose proof (nearest_even_bounds a b Hb) as [[_ U] _].
    pose proof (nearest_even_bounds a' b Hb) as [[L _] _].
    lia.
Qed.

Lemma round_int (s : Z) :
  round_ratio s 1 = nearest_even s (spacing s) * spacing s.
Proof. unfold round_ratio. rewrite Z.div_1_r, Z.mul_1_l. reflexivity. Qed.

Lemma round_small (s : Z) : s < 2 ^ 53 -> round_ratio s 1 = s.
Proof.
  intros H. rewrite round_int, spacing_small by exact H.
  rewrite nearest_even_exact by (try lia; apply Z.mod_1_r).
  rewrite Z.div_1_r. lia.
Qed.

Lemma round_fixed (x : Z) : x mod spacing x = 0 -> round_ratio x 1 = x.
Proof.
  intros H. rewrite round_int.
  rewrite nearest_even_exact by (try apply spacing_pos; exact H).
  pose proof (Z.div_mod x (spacing x)) as E.
  pose proof (spacing_pos x). lia.
Qed.

(** Rounding stays within the binade: between the power of two below and
    the power of two above. *)
Lemma round_binade (s : Z) :
  0 < s -> 2 ^ Z.log2 s <= round_ratio s 1 <= 2 ^ (Z.log2 s + 1).
Proof.
  intros Hs. destruct (Z.log2_spec s Hs) as [L U].
  replace (Z.succ (Z.log2 s)) with (Z.log2 s + 1) in U by lia.
  destruct (Z.lt_ge_cases s (2 ^ 53)) as [C|C].
  - rewrite round_small by exact C. lia.
  - destruct (spacing_large s C) as (G & K & B1 & B2).
    rewrite round_int.
    pose proof (spacing_pos s) as P.
    pose proof (nearest_even_bounds s (spacing s) P) as [[N1 N2] _].
    assert (2 ^ 52 <= s / spacing s) by (apply Z.div_le_lower_bound; lia).
    assert (s / spacing s < 2 ^ 53) by (apply Z.div_lt_upper_bound; lia).
    assert (E1 : 2 ^ Z.log2 s = 2 ^ 52 * spacing s).
    { rewrite G, <- Z.pow_add_r by lia. f_equal. lia. }
    assert (E2 : 2 ^ (Z.log2 s + 1) = 2 ^ 53 * spacing s).
    { rewrite G, <- Z.pow_add_r by lia. f_equal. lia. }
    rewrite E1, E2. nia.
Qed.

Lemma round_mono (s s' : Z) :
  0 <= s <= s' -> round_ratio s 1 <= round_ratio s' 1.
Proof.
  intros [H0 H].
  destruct (Z.eq_dec s 0) as [->|N0].
  { rewrite round_small by reflexivity.
    destruct (Z.eq_dec s' 0) as [->|N]; [rewrite round_small by reflexivity; lia|].
    pose proof (round_binade s' ltac:(lia)).
    pose proof (Z.pow_pos_nonneg 2 (Z.log2 s') ltac:(lia) (Z.log2_nonneg s')). lia. }
  pose proof (Z.log2_le_mono s s' H) as M.
  destruct (Z.eq_dec (Z.log2 s) (Z.log2 s')) as [E|N].
  - rewrite !round_int. unfold spacing. rewrite <- E.
    fold (spacing s).
    pose proof (spacing_pos s) as P.
    pose proof (nearest_even_mono s s' (spacing s) P H). nia.
  - pose proof (round_binade s ltac:(lia)) as [_ U].
    pose proof (round_binade s' ltac:(lia)) as [L _].
    assert (2 ^ (Z.log2 s + 1) <= 2 ^ Z.log2 s').
    { apply Z.pow_le_mono_r; lia. }
    lia.
Qed.

Lemma round_nonneg (s : Z) : 0 <= s -> 0 <= round_ratio s 1.
Proof.
  intros H. replace 0 with (round_ratio 0 1) at 1 by reflexivity.
  apply round_mono. lia.
Qed.

Lemma round_on_grid (s : Z) :
  0 <= s -> round_ratio s 1 mod spacing (round_ratio s 1) = 0.
Proof.
  intros H0.
  destruct (Z.lt_ge_cases s (2 ^ 53)) as [C|C].
  - rewrite round_small by exact C. rewrite spacing_small by exact C.
    apply Z.mod_1_r.
  - destruct (spacing_large s C) as (G & K & B1 & B2).
    pose proof (spacing_pos s) as P.
    pose proof (nearest_even_bounds s (spacing s) P) as [[N1 N2] _].
    assert (Q1 : 2 ^ 52 <= s / spacing s) by (apply Z.div_le_lower_bound; lia).
    assert (Q2 : s / spacing s < 2 ^ 53) by (apply Z.div_lt_upper_bound; lia).
    rewrite round_int.
    set (k := nearest_even s (spacing s)) in *.
    assert (Lk : Z.log2 (k * spacing s) = Z.log2 k + (Z.log2 s - 52)).
    { rewrite G. rewrite Z.log2_mul_pow2 by lia. lia. }
    destruct (Z.eq_dec k (2 ^ 53)) as [E|N].
    + assert (S' : spacing (k * spacing s) = 2 * spacing s).
      { unfold spacing at 1. rewrite Lk, E.
        replace (Z.log2 (2 ^ 53)) with 53 by reflexivity.
        replace (Z.max 0 (53 + (Z.log2 s - 52) - 52)) with (Z.succ (Z.log2 s - 52)) by lia.
        rewrite Z.pow_succ_r by lia. rewrite G. reflexivity. }
      rewrite S', E.
      replace (2 ^ 53 * spacing s) with (2 ^ 52 * (2 * spacing s)).
      * apply Z.mod_mul. lia.
      * change (2 ^ 53) with (2 ^ 52 * 2). lia.
    + assert (Z.log2 k = 52).
      { apply Z.log2_unique; [lia|]. change (2 ^ Z.succ 52) with (2 ^ 53). lia. }
      assert (S' : spacing (k * spacing s) = spacing s).
      { unfold spacing at 1. rewrite Lk.
        replace (Z.max 0 (Z.log2 k + (Z.log2 s - 52) - 52)) with (Z.log2 s - 52) by lia.
        symmetry. exact G. }
      rewrite S'. apply Z.mod_mul. lia.
Qed.

Lemma round_error (s : Z) :
  0 <= s -> 2 * s - spacing s <= 2 * round_ratio s 1 <= 2 * s + spacing s.
Proof.
  intros H. rewrite round_int.
  pose proof (spacing_pos s) as P.
  pose proof (nearest_even_bounds s (spacing s) P) as [_ B]. nia.
Qed.

Lemma round_ratio_nonneg (a b : Z) : 0 <= a -> 0 < b -> 0 <= round_ratio a b.
Proof.
  intros A B. unfold round_ratio.
  pose proof (spacing_pos (a / b)) as P.
  assert (G : 0 < b * spacing (a / b)) by nia.
  pose proof (nearest_even_bounds a (b * spacing (a / b)) G) as [[L _] _].
  pose proof (Z.div_pos a (b * spacing (a / b)) A G). nia.
Qed.

(** A number that is zero, positive or [Infinity]. *)
Lemma representable_spec (a : Z) :
  representable a = true <-> 0 <= a /\ a mod spacing a = 0 /\ a < overflow.
Proof.
  unfold representable. rewrite !andb_true_iff, Z.leb_le, Z.eqb_eq, Z.ltb_lt.
  tauto.
Qed.

Lemma rounded_valid (s : Z) : 0 <= s -> valid (rounded s 1) = true.
Proof.
  intros H. unfold rounded.
  destruct (round_ratio s 1 <? overflow) eqn:O; [|reflexivity].
  cbn [valid]. apply representable_spec. apply Z.ltb_lt in O.
  split; [apply round_nonneg; exact H|]. split; [apply round_on_grid; exact H|exact O].
Qed.

Lemma rounded_mono (s s' : Z) :
  0 <= s <= s' -> leb (rounded s 1) (rounded s' 1) = true.
Proof.
  intros H. pose proof (round_mono s s' H) as M. unfold rounded.
  destruct (round_ratio s 1 <? overflow) eqn:O;
    destruct (round_ratio s' 1 <? overflow) eqn:O'; cbn [leb];
    try reflexivity.
  - apply Z.leb_le. exact M.
  - apply Z.ltb_lt in O'. apply Z.ltb_ge in O. lia.
Qed.

Lemma rounded_fixed (a : Z) : representable a = true -> rounded a 1 = Num a.
Proof.
  intros H. apply representable_spec in H as (H0 & H1 & H2).
  unfold rounded. rewrite round_fixed by exact H1.
  apply Z.ltb_lt in H2. rewrite H2. reflexivity.
Qed.

Lemma leb_refl (x : Binary64.t) : leb x x = true.
Proof. destruct x; cbn; [apply Z.leb_refl|reflexivity]. Qed.

Lemma leb_trans (x y z : Binary64.t) :
  leb x y = true -> leb y z = true -> leb x z = true.
Proof.
  destruct x, y, z; cbn; try congruence; rewrite ?Z.leb_le; lia.
Qed.

Lemma leb_max_l (x y : Binary64.t) : leb x (max x y) = true.
Proof.
  unfold max. destruct (leb x y) eqn:L; [exact L|apply leb_refl].
Qed.

Lemma leb_max_r (x y : Binary64.t) : leb y (max x y) = true.
Proof.
  unfold max. destruct (leb x y) eqn:L; [apply leb_refl|].
  destruct x, y; cbn in *; try congruence. apply Z.leb_le. apply Z.leb_gt in L. lia.
Qed.

Lemma max_valid (x y : Binary64.t) :
  valid x = true -> valid y = true -> valid (max x y) = true.
Proof. unfold max. destruct (leb x y); auto. Qed.

(** A binary64 number [x] and a number [y] that is not negative:
    [x <= x + y], and the sum is a binary64 number. *)
Lemma leb_add (a : Z) (y : Binary64.t) :
  representable a = true -> nonneg y -> leb (Num a) (add (Num a) y) = true.
Proof.
  intros V N. destruct y as [b|]; [|reflexivity]. cbn [add nonneg] in *.
  rewrite <- (rounded_fixed a V) at 1. apply rounded_mono.
  apply representable_spec in V. lia.
Qed.

Lemma add_valid (x y : Binary64.t) :
  valid x = true -> nonneg y -> valid (add x y) = true.
Proof.
  intros V N. destruct x as [a|], y as [b|]; try reflexivity.
  cbn [add valid nonneg] in *. apply rounded_valid.
  apply representable_spec in V. lia.
Qed.

Lemma add_mono (x x' y : Binary64.t) :
  nonneg x -> nonneg y -> leb x x' = true ->
  leb (add x y) (add x' y) = true.
Proof.
  intros NX NY L. destruct x as [a|], x' as [a'|], y as [b|];
    cbn [add leb nonneg] in *; try reflexivity; try discriminate.
  - apply rounded_mono. apply Z.leb_le in L. lia.
  - destruct (rounded (a + b) 1); reflexivity.
Qed.

Lemma add_nonneg (x y : Binary64.t) : nonneg x -> nonneg y -> nonneg (add x y).
Proof.
  intros NX NY. destruct x as [a|], y as [b|]; cbn [add nonneg] in *; auto.
  unfold rounded. destruct (_ <? _); cbn [nonneg]; [|exact I].
  apply round_nonneg. lia.
Qed.

Lemma valid_nonneg (x : Binary64.t) : valid x = true -> nonneg x.
Proof.
  destruct x as [a|]; cbn; [|auto]. intros V.
  apply representable_spec in V. lia.
Qed.

Lemma quotient_nonneg (n d : Z) : 0 <= n -> 0 < d -> nonneg (quotient n d).
Proof.
  intros N D. unfold quotient, rounded.
  destruct (_ <? _); cbn [nonneg]; [|exact I].
  apply round_ratio_nonneg; [|exact D].
  apply Z.mul_nonneg_nonneg; [exact N|]. apply Z.pow_nonneg. lia.
Qed.

(** The sum is within half a spacing of the exact sum. *)
Lemma add_error (a b r : Z) :
  0 <= a + b -> add (Num a) (Num b) = Num r ->
  2 * (a + b) - spacing (a + b) <= 2 * r <= 2 * (a + b) + spacing (a + b).
Proof.
  intros H. cbn [add]. unfold rounded.
  destruct (_ <? _); [|discriminate]. intros E. inversion E; subst.
  apply round_error. exact H.
Qed.

End Rounding.

(** ** Agreement with the Standard Library's binary64

    [Binary64.add], [Binary64.leb] and [Binary64.quotient] are the
    addition, the comparison and the division of [SpecFloat] at
    precision 53 and maximal exponent 1024, to which the Standard
    Library's axioms tie the primitive binary64 numbers. *)

Section Ieee754.

Import Binary64.

Lemma fexp64_eq (e : Z) : fexp 53 1024 e = Z.max (e - 53) (-1074).
Proof. reflexivity. Qed.

Lemma digits2_size (p : positive) : digits2_pos p = Pos.size p.
Proof. induction p as [p IH|p IH|]; cbn; congruence. Qed.

Lemma digits2_log2 (p : positive) : Zpos (digits2_pos p) = Z.log2 (Zpos p) + 1.
Proof.
  rewrite digits2_size. destruct p as [p|p|]; cbn [Z.log2 Pos.size];
    rewrite ?Pos2Z.inj_succ; lia.
Qed.

Lemma Zdigits2_log2 (m : Z) : 0 < m -> Zdigits2 m = Z.log2 m + 1.
Proof.
  intros H. destruct m as [|p|p]; [lia| |lia]. apply digits2_log2.
Qed.

Lemma pow2_pos (n : Z) : 0 <= n -> 0 < 2 ^ n.
Proof. intros H. apply Z.pow_pos_nonneg; lia. Qed.

Lemma pow2_split (a b : Z) : 0 <= a -> 0 <= b -> 2 ^ (a + b) = 2 ^ a * 2 ^ b.
Proof. intros A B. apply Z.pow_add_r; assumption. Qed.

Lemma log2_bound (m : Z) (k : Z) : 0 < m -> Z.log2 m <= k -> m < 2 ^ (k + 1).
Proof.
  intros M L. destruct (Z.log2_spec m M) as [_ U].
  assert (2 ^ Z.succ (Z.log2 m) <= 2 ^ (k + 1)) by (apply Z.pow_le_mono_r; lia).
  lia.
Qed.

Lemma log2_add_low (m k x : Z) :
  0 < m -> 0 <= k -> 0 <= x < 2 ^ k -> Z.log2 (m * 2 ^ k + x) = Z.log2 m + k.
Proof.
  intros M K X. destruct (Z.log2_spec m M) as [L U].
  pose proof (Z.log2_nonneg m) as L0.
  apply Z.log2_unique; [lia|].
  replace (Z.succ (Z.log2 m + k)) with (Z.succ (Z.log2 m) + k) by lia.
  rewrite !Z.pow_add_r by lia. nia.
Qed.

Lemma iter_pos_nat {A} (f : A -> A) (n : positive) (x : A) :
  SpecFloat.iter_pos f n x = Nat.iter (Pos.to_nat n) f x.
Proof.
  revert x. induction n as [n IH|n IH|]; intros x; cbn [SpecFloat.iter_pos].
  - rewrite !IH, Pos2Nat.inj_xI.
    replace (S (2 * Pos.to_nat n))%nat with (Pos.to_nat n + (Pos.to_nat n + 1))%nat by lia.
    rewrite !Nat.iter_add. reflexivity.
  - rewrite !IH, Pos2Nat.inj_xO.
    replace (2 * Pos.to_nat n)%nat with (Pos.to_nat n + Pos.to_nat n)%nat by lia.
    rewrite Nat.iter_add. reflexivity.
  - reflexivity.
Qed.

Lemma shr_1_spec (m : Z) (r s : bool) :
  0 <= m ->
  shr_1 {| shr_m := m; shr_r := r; shr_s := s |}
  = {| shr_m := m / 2; shr_r := Z.odd m; shr_s := r || s |}.
Proof.
  intros H. destruct m as [|p|p]; [reflexivity| |lia].
  destruct p as [p|p|]; cbn [shr_1 Z.odd].
  - f_equal. rewrite Pos2Z.inj_xI.
    apply Z.div_unique with 1; lia.
  - f_equal. rewrite Pos2Z.inj_xO.
    apply Z.div_unique with 0; lia.
  - reflexivity.
Qed.

Lemma shr_iter_gen (m : Z) (r s : bool) (k : nat) :
  0 <= m ->
  Nat.iter (S k) shr_1 {| shr_m := m; shr_r := r; shr_s := s |}
  = {| shr_m := m / 2 ^ Z.of_nat (S k);
       shr_r := Z.odd (m / 2 ^ Z.of_nat k);
       shr_s := negb (m mod 2 ^ Z.of_nat k =? 0) || (r || s) |}.
Proof.
  intros H. induction k as [|k IH].
  - cbn [Nat.iter]. rewrite shr_1_spec by exact H.
    change (2 ^ Z.of_nat 1) with 2. change (2 ^ Z.of_nat 0) with 1.
    rewrite Z.div_1_r, Z.mod_1_r. reflexivity.
  - change (Nat.iter (S (S k)) shr_1 ?x) with (shr_1 (Nat.iter (S k) shr_1 x)).
    rewrite IH.
    assert (P : 0 < 2 ^ Z.of_nat (S k)) by (apply Z.pow_pos_nonneg; lia).
    assert (P' : 0 < 2 ^ Z.of_nat k) by (apply Z.pow_pos_nonneg; lia).
    rewrite shr_1_spec by (apply Z.div_pos; lia).
    f_equal.
    + rewrite Z.div_div by lia. f_equal.
      rewrite (Nat2Z.inj_succ (S k)), Z.pow_succ_r by lia. lia.
    + assert (E : 2 ^ Z.of_nat (S k) = 2 ^ Z.of_nat k * 2).
      { rewrite Nat2Z.inj_succ, Z.pow_succ_r by lia. lia. }
      rewrite E, Z.rem_mul_r by lia.
      pose proof (Z.mod_pos_bound m (2 ^ Z.of_nat k) P') as B.
      rewrite <- Z.bit0_mod, Z.bit0_odd.
      destruct (Z.odd (m / 2 ^ Z.of_nat k)); cbn [Z.b2z orb].
      * replace (m mod 2 ^ Z.of_nat k + 2 ^ Z.of_nat k * 1 =? 0) with false
          by (symmetry; apply Z.eqb_neq; lia).
        reflexivity.
      * rewrite Z.mul_0_r, Z.add_0_r. reflexivity.
Qed.

Lemma new_location_spec (b r : Z) :
  0 < b -> 0 <= r < b -> new_location b r = location_of b r.
Proof.
  intros B R. unfold new_location, new_location_even, new_location_odd, location_of.
  destruct (Z.even b) eqn:E; [reflexivity|].
  destruct (r =? 0); [reflexivity|]. f_equal.
  rewrite <- Z.negb_odd in E. apply negb_false_iff in E.
  apply Z.odd_spec in E as [c E].
  destruct (Z.compare_spec (2 * r + 1) b); destruct (Z.compare_spec (2 * r) b);
    first [lia|reflexivity].
Qed.

Lemma nearest_even_one (a : Z) : nearest_even a 1 = a.
Proof.
  rewrite nearest_even_exact by (try lia; apply Z.mod_1_r). apply Z.div_1_r.
Qed.

Lemma nearest_even_scale (a b c : Z) :
  0 < b -> 0 < c -> nearest_even (a * c) (b * c) = nearest_even a b.
Proof.
  intros B C. unfold nearest_even.
  rewrite Z.div_mul_cancel_r by lia.
  rewrite Z.mul_mod_distr_r by lia.
  destruct (Z.compare_spec (2 * (a mod b * c)) (b * c));
    destruct (Z.compare_spec (2 * (a mod b)) b); first [nia|reflexivity].
Qed.

Lemma round_ratio_scale (a b c : Z) :
  0 < b -> 0 < c -> round_ratio (a * c) (b * c) = round_ratio a b.
Proof.
  intros B C. unfold round_ratio. rewrite Z.div_mul_cancel_r by lia.
  pose proof (spacing_pos (a / b)) as G. f_equal.
  replace (b * c * spacing (a / b)) with (b * spacing (a / b) * c) by ring.
  apply nearest_even_scale; nia.
Qed.

Lemma shr_nop (mrs : shr_record) (e n : Z) : n <= 0 -> shr mrs e n = (mrs, e).
Proof. intros H. destruct n as [|p|p]; [reflexivity|lia|reflexivity]. Qed.

(** [shr] on a mantissa with a location, followed by rounding to
    nearest even. *)
Lemma shr_spec_gen (mz b r e n : Z) :
  0 <= mz -> 0 < b -> 0 <= r < b -> 0 <= n ->
  exists mrs,
    shr (shr_record_of_loc mz (location_of b r)) e n = (mrs, e + n)
    /\ round_nearest_even (shr_m mrs) (loc_of_shr_record mrs)
       = nearest_even (mz * b + r) (b * 2 ^ n).
Proof.
  intros M B R N.
  assert (Q : (mz * b + r) / b = mz).
  { symmetry. apply Z.div_unique with r; lia. }
  assert (Rm : (mz * b + r) mod b = r).
  { symmetry. apply Z.mod_unique with mz; lia. }
  destruct n as [|p|p]; [| |lia].
  - eexists. split; [cbn [shr]; f_equal; lia|].
    change (2 ^ 0) with 1. rewrite Z.mul_1_r.
    unfold nearest_even. rewrite Q, Rm. unfold location_of.
    destruct (Z.eqb_spec r 0) as [->|NZ].
    + cbn [shr_m shr_record_of_loc loc_of_shr_record round_nearest_even].
      destruct (Z.compare_spec (2 * 0) b); first [lia|reflexivity].
    + destruct (2 * r ?= b); reflexivity.
  - set (rec := shr_record_of_loc mz (location_of b r)).
    assert (Rec : exists r0 s0,
               rec = {| shr_m := mz; shr_r := r0; shr_s := s0 |}
               /\ r0 || s0 = negb (r =? 0)).
    { subst rec. unfold location_of. destruct (r =? 0); cbn [shr_record_of_loc negb].
      - do 2 eexists. split; reflexivity.
      - destruct (2 * r ?= b); do 2 eexists; split; reflexivity. }
    destruct Rec as (r0 & s0 & -> & RS).
    eexists. split; [reflexivity|].
    rewrite iter_pos_nat.
    destruct (Pos2Nat.is_succ p) as [k K]. rewrite K.
    rewrite shr_iter_gen by exact M. cbn [shr_m]. rewrite RS.
    assert (Ep : 2 ^ Zpos p = 2 ^ Z.of_nat k * 2).
    { rewrite <- (positive_nat_Z p), K, Nat2Z.inj_succ, Z.pow_succ_r by lia. lia. }
    assert (P' : 0 < 2 ^ Z.of_nat k) by (apply Z.pow_pos_nonneg; lia).
    rewrite <- K, positive_nat_Z.
    unfold nearest_even.
    rewrite <- Z.div_div by lia. rewrite Q.
    rewrite Z.rem_mul_r by lia. rewrite Rm, Q.
    rewrite Ep, Z.rem_mul_r by lia.
    pose proof (Z.mod_pos_bound mz (2 ^ Z.of_nat k) P') as Bk.
    rewrite <- Z.bit0_mod, Z.bit0_odd.
    set (lo := mz mod 2 ^ Z.of_nat k) in *.
    set (g := 2 ^ Z.of_nat k) in *.
    destruct (Z.odd (mz / g)) eqn:O; cbn [Z.b2z].
    + destruct (Z.eqb_spec lo 0) as [L0|L0]; destruct (Z.eqb_spec r 0) as [R0|R0];
        cbn [negb orb loc_of_shr_record round_nearest_even];
        destruct (Z.compare_spec (2 * (r + b * (lo + g * 1))) (b * (g * 2)));
        first [nia|reflexivity].
    + destruct (Z.compare_spec (2 * (r + b * (lo + g * 0))) (b * (g * 2)));
        [nia| |nia].
      destruct (negb (lo =? 0) || negb (r =? 0)); reflexivity.
Qed.

(** The mantissa kept by the first shift of [binary_round_aux], for a
    mantissa [mz] with [r] parts out of [b] above it. *)
Lemma kept_mantissa_gen (mz ez b r : Z) :
  0 < mz -> 0 < b -> 0 <= r < b ->
  -1074 <= ez ->
  ez <= fexp 53 1024 (Zdigits2 mz + ez) ->
  let e1 := fexp 53 1024 (Zdigits2 mz + ez) in
  let m1 := nearest_even (mz * b + r) (b * 2 ^ (e1 - ez)) in
  (e1 = -1074 /\ ez = -1074 /\ mz <= m1 <= mz + 1 /\ mz < 2 ^ 52)
  \/ (-1074 <= e1 /\ e1 = Z.log2 mz + ez - 52 /\ 2 ^ 52 <= m1 <= 2 ^ 53).
Proof.
  intros M B R E P e1 m1. subst e1 m1.
  rewrite Zdigits2_log2 in * by exact M. rewrite fexp64_eq in *.
  destruct (Z.log2_spec mz M) as [L U].
  set (l := Z.log2 mz) in *.
  assert (L0 : 0 <= l) by apply Z.log2_nonneg.
  set (e1 := Z.max (l + 1 + ez - 53) (-1074)) in *.
  assert (Q : forall n, 0 <= n -> (mz * b + r) / (b * 2 ^ n) = mz / 2 ^ n).
  { intros n N. rewrite <- Z.div_div by (try apply pow2_pos; lia). f_equal.
    symmetry. apply Z.div_unique with r; lia. }
  destruct (Z.lt_ge_cases (l + 1 + ez - 53) (-1074)) as [C|C].
  - left.
    assert (E1 : e1 = -1074) by (subst e1; lia).
    assert (EZ : ez = -1074) by lia.
    split; [exact E1|]. split; [exact EZ|].
    rewrite E1, EZ. change (2 ^ (-1074 - -1074)) with 1. rewrite Z.mul_1_r.
    pose proof (nearest_even_bounds (mz * b + r) b B) as [N _].
    specialize (Q 0 ltac:(lia)). change (2 ^ 0) with 1 in Q.
    rewrite Z.mul_1_r, Z.div_1_r in Q. rewrite Q in N.
    split; [exact N|].
    assert (2 ^ Z.succ l <= 2 ^ 52) by (apply Z.pow_le_mono_r; lia). lia.
  - right.
    assert (E1 : e1 = l + ez - 52) by (subst e1; lia).
    split; [lia|]. split; [exact E1|].
    assert (N : e1 - ez = l - 52) by lia.
    rewrite N.
    assert (G : 0 < 2 ^ (l - 52)) by (apply pow2_pos; lia).
    pose proof (nearest_even_bounds (mz * b + r) (b * 2 ^ (l - 52)) ltac:(nia))
      as [[B1 B2] _].
    rewrite Q in B1, B2 by lia.
    assert (A1 : 2 ^ l = 2 ^ 52 * 2 ^ (l - 52)).
    { rewrite <- Z.pow_add_r by lia. f_equal. lia. }
    assert (A2 : 2 ^ Z.succ l = 2 ^ 53 * 2 ^ (l - 52)).
    { rewrite <- Z.pow_add_r by lia. f_equal. lia. }
    assert (2 ^ 52 <= mz / 2 ^ (l - 52)) by (apply Z.div_le_lower_bound; lia).
    assert (mz / 2 ^ (l - 52) < 2 ^ 53) by (apply Z.div_lt_upper_bound; lia).
    lia.
Qed.

Lemma binary_round_aux_located (mz ez b r : Z) :
  0 < mz -> 0 < b -> 0 <= r < b ->
  -1074 <= ez ->
  ez <= fexp 53 1024 (Zdigits2 mz + ez) ->
  let e1 := fexp 53 1024 (Zdigits2 mz + ez) in
  let m1 := nearest_even (mz * b + r) (b * 2 ^ (e1 - ez)) in
  binary_round_aux 53 1024 false mz ez (location_of b r)
  = if m1 <? 2 ^ 53
    then if e1 <=? 971 then S754_finite false (Z.to_pos m1) e1
         else S754_infinity false
    else if e1 + 1 <=? 971 then S754_finite false (Z.to_pos (2 ^ 52)) (e1 + 1)
         else S754_infinity false.
Proof.
  intros M B R E P e1 m1.
  pose proof (kept_mantissa_gen mz ez b r M B R E P) as K. cbv zeta in K.
  fold e1 in K. fold m1 in K.
  unfold binary_round_aux, shr_fexp. fold e1.
  change (ez <= e1) in P.
  assert (N0 : 0 <= e1 - ez) by lia.
  destruct (shr_spec_gen mz b r ez (e1 - ez) ltac:(lia) B R N0)
    as (mrs & S1 & R1).
  rewrite S1, R1. fold m1.
  replace (ez + (e1 - ez)) with e1 by lia.
  assert (M0 : 0 < m1) by (destruct K as [(_ & _ & K & _)|(_ & _ & K)]; lia).
  assert (E1 : -1074 <= e1) by (destruct K as [(-> & _)|(K & _)]; lia).
  destruct (m1 <? 2 ^ 53) eqn:C.
  - apply Z.ltb_lt in C.
    assert (D : fexp 53 1024 (Zdigits2 m1 + e1) - e1 <= 0).
    { rewrite Zdigits2_log2 by exact M0. rewrite fexp64_eq.
      assert (Z.log2 m1 < 53) by (apply Z.log2_lt_pow2; lia). lia. }
    cbn [shr_record_of_loc]. rewrite shr_nop by exact D. cbn [shr_m].
    destruct m1 as [|p|p]; [lia| |lia]. reflexivity.
  - apply Z.ltb_ge in C.
    assert (M1 : m1 = 2 ^ 53) by (destruct K as [(_ & _ & K1 & K2)|(_ & _ & K)]; lia).
    rewrite M1.
    assert (D : fexp 53 1024 (Zdigits2 (2 ^ 53) + e1) - e1 = 1).
    { change (Zdigits2 (2 ^ 53)) with 54. rewrite fexp64_eq. lia. }
    cbn [shr_record_of_loc]. rewrite D. reflexivity.
Qed.

Lemma round_located (mz ez b r : Z) :
  0 < mz -> 0 < b -> 0 <= r < b ->
  -1074 <= ez ->
  ez <= fexp 53 1024 (Zdigits2 mz + ez) ->
  round_ratio ((mz * b + r) * 2 ^ (ez + 1074)) b
  = nearest_even (mz * b + r)
      (b * 2 ^ (fexp 53 1024 (Zdigits2 mz + ez) - ez))
    * 2 ^ (fexp 53 1024 (Zdigits2 mz + ez) + 1074).
Proof.
  intros M B R E P.
  set (e1 := fexp 53 1024 (Zdigits2 mz + ez)) in *.
  set (c := 2 ^ (ez + 1074)).
  assert (C : 0 < c) by (apply pow2_pos; lia).
  assert (Q : (mz * b + r) * c / b = mz * c + r * c / b).
  { replace ((mz * b + r) * c) with (mz * c * b + r * c) by ring.
    rewrite Z.div_add_l by lia. reflexivity. }
  assert (X : 0 <= r * c / b < c).
  { split; [apply Z.div_pos; nia|]. apply Z.div_lt_upper_bound; nia. }
  assert (S : spacing ((mz * b + r) * c / b) = 2 ^ (e1 + 1074)).
  { unfold spacing. rewrite Q. unfold c.
    rewrite log2_add_low by (try exact X; lia).
    subst e1. rewrite Zdigits2_log2 by exact M. rewrite fexp64_eq. f_equal.
    pose proof (Z.log2_nonneg mz). lia. }
  unfold round_ratio. rewrite S. f_equal.
  replace (b * 2 ^ (e1 + 1074)) with (b * 2 ^ (e1 - ez) * c).
  - apply nearest_even_scale; [|exact C].
    pose proof (pow2_pos (e1 - ez) ltac:(lia)). nia.
  - unfold c. rewrite <- Z.mul_assoc, <- Z.pow_add_r by lia. do 2 f_equal. lia.
Qed.

(** [binary_round_aux] on a mantissa with a location, in units. *)
Lemma binary_round_aux_located_units (mz ez b r : Z) :
  0 < mz -> 0 < b -> 0 <= r < b ->
  -1074 <= ez ->
  ez <= fexp 53 1024 (Zdigits2 mz + ez) ->
  of_spec (binary_round_aux 53 1024 false mz ez (location_of b r))
  = Some (rounded ((mz * b + r) * 2 ^ (ez + 1074)) b)
  /\ valid_binary 53 1024
       (binary_round_aux 53 1024 false mz ez (location_of b r)) = true.
Proof.
  intros M B R E P.
  pose proof (kept_mantissa_gen mz ez b r M B R E P) as K. cbv zeta in K.
  rewrite (binary_round_aux_located mz ez b r M B R E P).
  unfold rounded. rewrite (round_located mz ez b r M B R E P).
  set (e1 := fexp 53 1024 (Zdigits2 mz + ez)) in *.
  set (m1 := nearest_even (mz * b + r) (b * 2 ^ (e1 - ez))) in *.
  assert (E1 : -1074 <= e1) by (destruct K as [(-> & _)|(K & _)]; lia).
  assert (G : 0 < 2 ^ (e1 + 1074)) by (apply pow2_pos; lia).
  unfold overflow.
  destruct (m1 <? 2 ^ 53) eqn:C.
  - apply Z.ltb_lt in C.
    assert (M0 : 0 < m1) by (destruct K as [(_ & _ & K & _)|(_ & _ & K)]; lia).
    assert (O : (e1 <=? 971) = (m1 * 2 ^ (e1 + 1074) <? 2 ^ 2098)).
    { destruct (e1 <=? 971) eqn:L; symmetry.
      - apply Z.leb_le in L. apply Z.ltb_lt.
        assert (H : 2 ^ (53 + (e1 + 1074)) <= 2 ^ 2098)
          by (apply Z.pow_le_mono_r; lia).
        rewrite (pow2_split 53 (e1 + 1074)) in H by lia. nia.
      - apply Z.leb_gt in L. apply Z.ltb_ge.
        destruct K as [(K & _)|(_ & _ & K)]; [lia|].
        assert (H : 2 ^ 2098 <= 2 ^ (52 + (e1 + 1074)))
          by (apply Z.pow_le_mono_r; lia).
        rewrite (pow2_split 52 (e1 + 1074)) in H by lia. nia. }
    rewrite <- O. destruct (e1 <=? 971) eqn:L; [|split; reflexivity].
    cbn [of_spec valid_binary]. unfold units_of. rewrite Z2Pos.id by exact M0.
    split; [reflexivity|].
    unfold bounded, canonical_mantissa. apply andb_true_iff.
    split; [|exact L]. apply Z.eqb_eq.
    rewrite digits2_log2, Z2Pos.id by exact M0. rewrite fexp64_eq.
    destruct K as [(K1 & _ & K3 & K4)|(_ & _ & K)].
    + assert (Z.log2 m1 < 53) by (apply Z.log2_lt_pow2; lia). lia.
    + assert (Z.log2 m1 = 52).
      { apply Z.log2_unique; [lia|]. change (2 ^ Z.succ 52) with (2 ^ 53). lia. }
      lia.
  - apply Z.ltb_ge in C.
    assert (M1 : m1 = 2 ^ 53) by (destruct K as [(_ & _ & K1 & K2)|(_ & _ & K)]; lia).
    assert (O : (e1 + 1 <=? 971) = (m1 * 2 ^ (e1 + 1074) <? 2 ^ 2098)).
    { rewrite M1, <- (pow2_split 53 (e1 + 1074)) by lia.
      destruct (e1 + 1 <=? 971) eqn:L; symmetry.
      - apply Z.leb_le in L. apply Z.ltb_lt. apply Z.pow_lt_mono_r; lia.
      - apply Z.leb_gt in L. apply Z.ltb_ge. apply Z.pow_le_mono_r; lia. }
    rewrite <- O. destruct (e1 + 1 <=? 971) eqn:L; [|split; reflexivity].
    cbn [of_spec valid_binary]. unfold units_of.
    rewrite Z2Pos.id by (apply pow2_pos; lia).
    split.
    + do 2 f_equal.
      rewrite M1, <- (pow2_split 52 (e1 + 1 + 1074)),
        <- (pow2_split 53 (e1 + 1074)) by lia.
      f_equal. lia.
    + unfold bounded, canonical_mantissa. apply andb_true_iff.
      split; [|exact L]. apply Z.eqb_eq.
      rewrite digits2_log2, Z2Pos.id by (apply pow2_pos; lia).
      change (Z.log2 (2 ^ 52)) with 52. rewrite fexp64_eq. lia.
Qed.

(** [binary_round_aux] on an exact mantissa, in units. *)
Lemma binary_round_aux_units (mz : positive) (ez : Z) :
  -1074 <= ez ->
  ez <= fexp 53 1024 (Zpos (digits2_pos mz) + ez) ->
  of_spec (binary_round_aux 53 1024 false (Zpos mz) ez loc_Exact)
  = Some (rounded (Zpos mz * 2 ^ (ez + 1074)) 1)
  /\ valid_binary 53 1024
       (binary_round_aux 53 1024 false (Zpos mz) ez loc_Exact) = true.
Proof.
  intros E P.
  pose proof (binary_round_aux_located_units (Zpos mz) ez 1 0
                ltac:(lia) ltac:(lia) ltac:(lia) E P) as H.
  rewrite Z.mul_1_r, Z.add_0_r in H. exact H.
Qed.

Lemma iter_xO (m d : positive) : Zpos (Pos.iter xO m d) = Zpos m * 2 ^ Zpos d.
Proof.
  change (Pos.iter xO m d) with (shift_pos d m).
  rewrite shift_pos_correct, Zpower_pos_nat, Zpower_nat_Z, positive_nat_Z. lia.
Qed.

(** [binary_round] on a positive mantissa, in units. *)
Lemma binary_round_units (m : positive) (e : Z) :
  -1074 <= e ->
  of_spec (binary_round 53 1024 false m e)
  = Some (rounded (Zpos m * 2 ^ (e + 1074)) 1)
  /\ valid_binary 53 1024 (binary_round 53 1024 false m e) = true.
Proof.
  intros E. unfold binary_round, shl_align.
  set (f := fexp 53 1024 (Zpos (digits2_pos m) + e)).
  assert (F : -1074 <= f) by (subst f; rewrite fexp64_eq; lia).
  destruct (f - e) as [|d|d] eqn:D.
  - apply binary_round_aux_units; [exact E|]. fold f. lia.
  - apply binary_round_aux_units; [exact E|]. fold f. lia.
  - assert (De : e = f + Zpos d) by lia.
    assert (Dg : Zpos (digits2_pos (Pos.iter xO m d)) + f
                 = Zpos (digits2_pos m) + e).
    { rewrite !digits2_log2, iter_xO, Z.log2_mul_pow2 by lia. lia. }
    replace (Zpos m * 2 ^ (e + 1074))
      with (Zpos (Pos.iter xO m d) * 2 ^ (f + 1074)).
    + apply binary_round_aux_units; [exact F|]. rewrite Dg. fold f. lia.
    + rewrite iter_xO, De.
      replace (f + Zpos d + 1074) with (Zpos d + (f + 1074)) by lia.
      rewrite (pow2_split (Zpos d) (f + 1074)) by lia. ring.
Qed.

(** A canonical mantissa and exponent. *)
Lemma bounded_spec (m : positive) (e : Z) :
  bounded 53 1024 m e = true ->
  -1074 <= e <= 971
  /\ fexp 53 1024 (Zpos (digits2_pos m) + e) = e
  /\ Z.log2 (Zpos m) <= 52
  /\ (-1074 < e -> Z.log2 (Zpos m) = 52).
Proof.
  unfold bounded, canonical_mantissa. intros H.
  apply andb_true_iff in H as [C B]. apply Z.eqb_eq in C. apply Z.leb_le in B.
  change (1024 - 53) with 971 in B.
  pose proof C as C'. rewrite fexp64_eq, digits2_log2 in C'.
  repeat split; lia.
Qed.

Lemma spacing_scaled (mz : positive) (ez : Z) :
  -1074 <= ez ->
  spacing (Zpos mz * 2 ^ (ez + 1074))
  = 2 ^ (fexp 53 1024 (Zpos (digits2_pos mz) + ez) + 1074).
Proof.
  intros E. unfold spacing. rewrite Z.log2_mul_pow2 by lia.
  rewrite digits2_log2, fexp64_eq. f_equal.
  pose proof (Z.log2_nonneg (Zpos mz)). lia.
Qed.

(** The numbers of [SpecFloat] that are binary64 numbers are
    representable numbers of units. *)
Lemma valid_binary_representable (x : spec_float) (a : Z) :
  valid_binary 53 1024 x = true -> of_spec x = Some (Num a) ->
  representable a = true.
Proof.
  destruct x as [[|]|[|]| |[|] m e]; cbn [of_spec valid_binary];
    intros V H; try discriminate; injection H as <-; [reflexivity|].
  unfold units_of.
  apply bounded_spec in V as ((E1 & E2) & C & L & _).
  apply representable_spec.
  assert (G : 0 < 2 ^ (e + 1074)) by (apply pow2_pos; lia).
  split; [apply Z.mul_nonneg_nonneg; lia|]. split.
  - rewrite spacing_scaled by lia. rewrite C. apply Z.mod_mul. lia.
  - pose proof (log2_bound (Zpos m) 52 ltac:(lia) L) as M.
    change (52 + 1) with 53 in M. unfold overflow.
    assert (P : 2 ^ (53 + (e + 1074)) <= 2 ^ 2098) by (apply Z.pow_le_mono_r; lia).
    rewrite (pow2_split 53 (e + 1074)) in P by lia. nia.
Qed.

(** Every representable number of units is a binary64 number of
    [SpecFloat]. *)
Lemma to_spec_of_spec (a : Z) :
  representable a = true ->
  of_spec (to_spec a) = Some (Num a) /\ valid_binary 53 1024 (to_spec a) = true.
Proof.
  intros R. pose proof R as R'. apply representable_spec in R' as (R0 & _).
  unfold to_spec, binary_normalize. destruct a as [|p|p]; [split; reflexivity| |lia].
  destruct (binary_round_units p (-1074) ltac:(lia)) as [U V].
  split; [|exact V]. rewrite U. change (-1074 + 1074) with 0.
  rewrite Z.pow_0_r, Z.mul_1_r. f_equal. apply rounded_fixed. exact R.
Qed.

Lemma shl_align_units (m : positive) (e ez : Z) :
  -1074 <= ez -> ez <= e ->
  Zpos (fst (shl_align m e ez)) * 2 ^ (ez + 1074) = Zpos m * 2 ^ (e + 1074).
Proof.
  intros E L. unfold shl_align. destruct (ez - e) as [|d|d] eqn:D; cbn [fst].
  - replace ez with e by lia. reflexivity.
  - lia.
  - rewrite iter_xO. replace (e + 1074) with (Zpos d + (ez + 1074)) by lia.
    rewrite (pow2_split (Zpos d) (ez + 1074)) by lia. ring.
Qed.

(** [x + y] of the model is the addition of [SpecFloat] at binary64. *)
Lemma add_is_SFadd (x y : spec_float) (a b : Binary64.t) :
  valid_binary 53 1024 x = true -> valid_binary 53 1024 y = true ->
  of_spec x = Some a -> of_spec y = Some b ->
  of_spec (SFadd 53 1024 x y) = Some (add a b)
  /\ valid_binary 53 1024 (SFadd 53 1024 x y) = true.
Proof.
  intros Vx Vy Hx Hy.
  destruct x as [[|]|[|]| |[|] mx ex]; cbn [of_spec] in Hx; try discriminate;
    injection Hx as <-;
    destruct y as [[|]|[|]| |[|] my ey]; cbn [of_spec] in Hy; try discriminate;
    injection Hy as <-;
    cbn [SFadd]; try (split; reflexivity).
  - (* 0 + y *)
    split; [|exact Vy]. cbn [of_spec add]. rewrite Z.add_0_l. f_equal. symmetry.
    apply rounded_fixed. eapply valid_binary_representable; [exact Vy|reflexivity].
  - (* x + 0 *)
    split; [|exact Vx]. cbn [of_spec add]. rewrite Z.add_0_r. f_equal. symmetry.
    apply rounded_fixed. eapply valid_binary_representable; [exact Vx|reflexivity].
  - (* finite + finite *)
    cbn [valid_binary] in Vx, Vy.
    apply bounded_spec in Vx as ((Ex & _) & _). apply bounded_spec in Vy as ((Ey & _) & _).
    cbn [cond_Zopp]. rewrite <- Pos2Z.inj_add. cbn [binary_normalize add].
    unfold units_of.
    set (ez := Z.min ex ey).
    destruct (binary_round_units
                (fst (shl_align mx ex ez) + fst (shl_align my ey ez)) ez
                ltac:(subst ez; lia)) as [U V].
    split; [|exact V]. rewrite U. do 2 f_equal.
    rewrite Pos2Z.inj_add, Z.mul_add_distr_r.
    rewrite !shl_align_units by (subst ez; lia). reflexivity.
Qed.

Lemma canonical_order (m1 m2 : positive) (e1 e2 : Z) :
  bounded 53 1024 m1 e1 = true -> bounded 53 1024 m2 e2 = true ->
  e1 < e2 -> Zpos m1 * 2 ^ (e1 + 1074) < Zpos m2 * 2 ^ (e2 + 1074).
Proof.
  intros B1 B2 L.
  apply bounded_spec in B1 as ((E1 & _) & _ & L1 & _).
  apply bounded_spec in B2 as ((E2 & _) & _ & _ & L2).
  specialize (L2 ltac:(lia)).
  pose proof (log2_bound (Zpos m1) 52 ltac:(lia) L1) as M1.
  change (52 + 1) with 53 in M1.
  destruct (Z.log2_spec (Zpos m2) ltac:(lia)) as [M2 _]. rewrite L2 in M2.
  assert (G1 : 0 < 2 ^ (e1 + 1074)) by (apply pow2_pos; lia).
  assert (G2 : 0 < 2 ^ (e2 + 1074)) by (apply pow2_pos; lia).
  assert (H : 2 ^ (53 + (e1 + 1074)) <= 2 ^ (52 + (e2 + 1074)))
    by (apply Z.pow_le_mono_r; lia).
  rewrite (pow2_split 53 (e1 + 1074)), (pow2_split 52 (e2 + 1074)) in H by lia.
  nia.
Qed.

(** [x <= y] of the model is the comparison of [SpecFloat]. *)
Lemma leb_is_SFleb (x y : spec_float) (a b : Binary64.t) :
  valid_binary 53 1024 x = true -> valid_binary 53 1024 y = true ->
  of_spec x = Some a -> of_spec y = Some b ->
  SFleb x y = leb a b.
Proof.
  intros Vx Vy Hx Hy.
  destruct x as [[|]|[|]| |[|] mx ex]; cbn [of_spec] in Hx; try discriminate;
    injection Hx as <-;
    destruct y as [[|]|[|]| |[|] my ey]; cbn [of_spec] in Hy; try discriminate;
    injection Hy as <-;
    try reflexivity; cbn [valid_binary] in Vx, Vy.
  - (* 0 <= finite *)
    unfold SFleb, units_of. cbn [SFcompare leb]. symmetry. apply Z.leb_le.
    apply bounded_spec in Vy as ((Ey & _) & _).
    pose proof (pow2_pos (ey + 1074) ltac:(lia)). nia.
  - (* finite <= 0 *)
    unfold SFleb, units_of. cbn [SFcompare leb]. symmetry. apply Z.leb_gt.
    apply bounded_spec in Vx as ((Ex & _) & _).
    pose proof (pow2_pos (ex + 1074) ltac:(lia)). nia.
  - unfold SFleb, units_of. cbn [SFcompare leb].
    destruct (Z.compare_spec ex ey) as [E|E|E].
    + subst ey. change (Pos.compare_cont Eq mx my) with (Pos.compare mx my).
      apply bounded_spec in Vx as ((Ex & _) & _).
      pose proof (pow2_pos (ex + 1074) ltac:(lia)) as G.
      rewrite Pos2Z.inj_compare.
      destruct (Z.compare_spec (Zpos mx) (Zpos my)) as [C|C|C]; symmetry.
      * apply Z.leb_le. rewrite C. lia.
      * apply Z.leb_le. nia.
      * apply Z.leb_gt. nia.
    + symmetry. apply Z.leb_le.
      pose proof (canonical_order _ _ _ _ Vx Vy E). lia.
    + symmetry. apply Z.leb_gt.
      apply (canonical_order _ _ _ _ Vy Vx E).
Qed.

(** [x / y] for two positive binary64 numbers whose quotient is not
    below the least normal number: the quotient of the numbers of
    units, rounded. *)
Lemma div_is_SFdiv (mx my : positive) (ex ey : Z) :
  bounded 53 1024 mx ex = true -> bounded 53 1024 my ey = true ->
  -1074 <= Z.log2 (Zpos mx) + ex - (Z.log2 (Zpos my) + ey) - 53 ->
  of_spec (SFdiv 53 1024 (S754_finite false mx ex) (S754_finite false my ey))
  = Some (rounded (units_of mx ex * 2 ^ 1074) (units_of my ey))
  /\ valid_binary 53 1024
       (SFdiv 53 1024 (S754_finite false mx ex) (S754_finite false my ey)) = true.
Proof.
  intros Bx By N.
  apply bounded_spec in Bx as ((Ex & _) & _ & Lx & _).
  apply bounded_spec in By as ((Ey & _) & _ & Ly & _).
  pose proof (Z.log2_nonneg (Zpos mx)) as Lx0.
  pose proof (Z.log2_nonneg (Zpos my)) as Ly0.
  destruct (Z.log2_spec (Zpos mx) ltac:(lia)) as [X1 X2].
  destruct (Z.log2_spec (Zpos my) ltac:(lia)) as [Y1 Y2].
  set (lx := Z.log2 (Zpos mx)) in *. set (ly := Z.log2 (Zpos my)) in *.
  cbn [SFdiv xorb]. unfold SFdiv_core_binary. cbn [Zdigits2].
  rewrite !digits2_log2. fold lx ly. rewrite fexp64_eq.
  set (e' := Z.min (Z.max (lx + 1 + ex - (ly + 1 + ey) - 53) (-1074)) (ex - ey)).
  assert (E' : e' = lx + ex - (ly + ey) - 53) by (subst e'; lia).
  set (s := ex - ey - e').
  assert (S : s = 53 - lx + ly) by (subst s; lia).
  assert (Ms : match s with
               | 0 => Zpos mx
               | Zpos _ => Z.shiftl (Zpos mx) s
               | Zneg _ => 0
               end = Zpos mx * 2 ^ s).
  { destruct s as [|p|p] eqn:Es; [lia| |lia].
    apply Z.shiftl_mul_pow2. lia. }
  rewrite Ms.
  pose proof (Z.div_eucl_eq (Zpos mx * 2 ^ s) (Zpos my) ltac:(lia)) as DE.
  pose proof (Z.mod_pos_bound (Zpos mx * 2 ^ s) (Zpos my) ltac:(lia)) as DR.
  unfold Z.modulo in DR.
  assert (DQ : fst (Z.div_eucl (Zpos mx * 2 ^ s) (Zpos my))
               = Zpos mx * 2 ^ s / Zpos my) by reflexivity.
  destruct (Z.div_eucl (Zpos mx * 2 ^ s) (Zpos my)) as [q r].
  cbn [fst] in DQ.
  assert (P2 : 0 < 2 ^ s) by (apply pow2_pos; lia).
  assert (Q52 : 2 ^ 52 <= q).
  { rewrite DQ. apply Z.div_le_lower_bound; [lia|].
    assert (A : 2 ^ (52 + Z.succ ly) <= 2 ^ (lx + s)) by (apply Z.pow_le_mono_r; lia).
    rewrite (pow2_split 52 (Z.succ ly)), (pow2_split lx s) in A by lia. nia. }
  rewrite new_location_spec by lia.
  assert (L52 : 52 <= Z.log2 q) by (apply Z.log2_le_pow2; lia).
  assert (P : e' <= fexp 53 1024 (Zdigits2 q + e')).
  { rewrite Zdigits2_log2 by lia. rewrite fexp64_eq. lia. }
  destruct (binary_round_aux_located_units q e' (Zpos my) r
              ltac:(lia) ltac:(lia) DR ltac:(lia) P) as [U V].
  split; [|exact V]. rewrite U. f_equal. unfold rounded.
  assert (R : round_ratio ((q * Zpos my + r) * 2 ^ (e' + 1074)) (Zpos my)
              = round_ratio (units_of mx ex * 2 ^ 1074) (units_of my ey)).
  { unfold units_of.
    rewrite <- (round_ratio_scale _ (Zpos my) (2 ^ (ey + 1074)))
      by (try apply pow2_pos; lia).
    f_equal. replace (q * Zpos my + r) with (Zpos mx * 2 ^ s) by lia.
    rewrite <- !Z.mul_assoc, <- !Z.pow_add_r by lia. do 2 f_equal. lia. }
  rewrite R. reflexivity.
Qed.

Lemma Some_Num_inj (a b : Z) : Some (Num a) = Some (Num b) -> a = b.
Proof. intros H. injection H. auto. Qed.

Lemma whole_representable (n : Z) :
  0 <= n < 2 ^ 53 -> representable (n * 2 ^ 1074) = true.
Proof.
  intros N. apply representable_spec.
  split; [apply Z.mul_nonneg_nonneg; [lia|apply Z.pow_nonneg; lia]|].
  destruct (Z.eq_dec n 0) as [->|N0]; [split; reflexivity|].
  assert (L : Z.log2 n < 53) by (apply Z.log2_lt_pow2; lia).
  pose proof (Z.log2_nonneg n) as L0.
  split.
  - unfold spacing. rewrite Z.log2_mul_pow2 by lia.
    replace (Z.max 0 (1074 + Z.log2 n - 52)) with (Z.log2 n + 1022) by lia.
    replace (2 ^ 1074) with (2 ^ (52 - Z.log2 n) * 2 ^ (Z.log2 n + 1022)).
    + rewrite Z.mul_assoc. apply Z.mod_mul.
      pose proof (pow2_pos (Z.log2 n + 1022) ltac:(lia)). lia.
    + rewrite <- Z.pow_add_r by lia. f_equal. lia.
  - unfold overflow. change (2 ^ 2098) with (2 ^ 1024 * 2 ^ 1074).
    apply Z.mul_lt_mono_pos_r; [reflexivity|].
    assert (2 ^ 53 < 2 ^ 1024) by reflexivity. lia.
Qed.

(** A whole number below 2^53 is a binary64 number. *)
Lemma of_whole_units (n : Z) :
  0 < n < 2 ^ 53 ->
  exists m e,
    of_whole n = S754_finite false m e
    /\ bounded 53 1024 m e = true
    /\ units_of m e = n * 2 ^ 1074.
Proof.
  intros N. unfold of_whole, binary_normalize.
  destruct n as [|p|p]; [lia| |lia].
  destruct (binary_round_units p 0 ltac:(lia)) as [U V].
  change (0 + 1074) with 1074 in U.
  rewrite (rounded_fixed _ (whole_representable (Zpos p) ltac:(lia))) in U.
  destruct (binary_round 53 1024 false p 0) as [[|]|[|]| |[|] m e];
    cbn [of_spec] in U; try discriminate; apply Some_Num_inj in U.
  do 2 eexists. split; [reflexivity|]. split; [exact V|exact U].
Qed.

(** The quotient of two whole numbers of the model is the division of
    [SpecFloat] on them. *)
Lemma quotient_is_SFdiv (n d : Z) :
  0 < n < 2 ^ 53 -> 0 < d < 2 ^ 53 ->
  of_spec (SFdiv 53 1024 (of_whole n) (of_whole d)) = Some (quotient n d)
  /\ valid_binary 53 1024 (SFdiv 53 1024 (of_whole n) (of_whole d)) = true.
Proof.
  intros N D.
  destruct (of_whole_units n N) as (mx & ex & -> & Bx & Ux).
  destruct (of_whole_units d D) as (my & ey & -> & By & Uy).
  assert (Lx : Z.log2 (Zpos mx) + ex = Z.log2 n).
  { pose proof (f_equal Z.log2 Ux) as H. unfold units_of in H.
    apply bounded_spec in Bx as ((Ex & _) & _).
    rewrite !Z.log2_mul_pow2 in H by lia. lia. }
  assert (Ly : Z.log2 (Zpos my) + ey = Z.log2 d).
  { pose proof (f_equal Z.log2 Uy) as H. unfold units_of in H.
    apply bounded_spec in By as ((Ey & _) & _).
    rewrite !Z.log2_mul_pow2 in H by lia. lia. }
  assert (Ld : Z.log2 d < 53) by (apply Z.log2_lt_pow2; lia).
  pose proof (Z.log2_nonneg n) as Ln.
  destruct (div_is_SFdiv mx my ex ey Bx By ltac:(lia)) as [U V].
  split; [|exact V]. rewrite U, Ux, Uy. f_equal. unfold quotient, rounded.
  rewrite (round_ratio_scale (n * 2 ^ 1074) d (2 ^ 1074))
    by (try apply pow2_pos; lia).
  reflexivity.
Qed.

(** The two operations of [nextTimeRef.current = startTime +
    buffer.duration], for a start that is a binary64 number and a
    buffer of [n] samples, in the terms of [SpecFloat]. *)
Lemma cursor_update_is_ieee (startTime n : Z) :
  representable startTime = true -> 0 < n < 2 ^ 53 ->
  of_spec (SFadd 53 1024 (to_spec startTime)
             (SFdiv 53 1024 (of_whole n) (of_whole AUDIO_RECEIVE_SAMPLE_RATE)))
  = Some (add (Num startTime) (quotient n AUDIO_RECEIVE_SAMPLE_RATE)).
Proof.
  intros R N.
  destruct (to_spec_of_spec startTime R) as [S1 V1].
  destruct (quotient_is_SFdiv n AUDIO_RECEIVE_SAMPLE_RATE N ltac:(split; reflexivity))
    as [S2 V2].
  apply (add_is_SFadd _ _ _ _ V1 V2 S1 S2).
Qed.

End Ieee754.

(** ** The Playback Scheduler *)

Section Playback.

Import AudioPlayback.

Lemma getContext_keeps_cursor (s s1 : t) (c : AudioContext) (e : list effect) :
  getContext s = (c, s1, e) ->
  nextTimeRef s1 = nextTimeRef s /\ ctxRef s1 = Some c.
Proof.
  unfold getContext, new_context.
  destruct (ctxRef s) as [c0|] eqn:R.
  - destruct (is_closed c0); intros H; inversion H; subst; cbn; auto.
  - intros H; inversion H; subst; cbn; auto.
Qed.

Lemma chunk_duration_pos (n : nat) :
  (0 < n)%nat ->
  (0 < inject_Z (Z.of_nat n) / inject_Z AUDIO_RECEIVE_SAMPLE_RATE)%Q.
Proof.
  intros Hn. apply Qlt_shift_div_l; [reflexivity|].
  rewrite Qmult_0_l. change 0%Q with (inject_Z 0).
  rewrite <- Zlt_Qlt. lia.
Qed.

(** What one call of [playChunk] does to the cursor. *)
Lemma playChunk_cursor (now : Q) (pcm : list byte) (s s' : t)
      (e : list effect) (o : outcome) :
  playChunk now pcm s = (s', e, o) ->
  match o with
  | Scheduled u =>
      u_start u = Qmax now (nextTimeRef s)
      /\ nextTimeRef s' = u_end u
      /\ (0 < u_duration u)%Q
  | Failed _ => nextTimeRef s' = nextTimeRef s
  end.
Proof.
  unfold playChunk.
  destruct (getContext s) as [[c s1] e1] eqn:G.
  apply getContext_keeps_cursor in G as [G _].
  destruct (int16_array pcm) as [int16|].
  - destruct int16 as [|v vs]; cbn [map].
    + intros H; inversion H; subst. exact G.
    + intros H; inversion H; subst. cbn [u_start u_duration nextTimeRef].
      rewrite G. split; [reflexivity|]. split; [reflexivity|].
      apply (chunk_duration_pos (S (List.length vs))). lia.
  - intros H; inversion H; subst. exact G.
Qed.

Lemma playChunk_after_now (now : Q) (pcm : list byte) (s : t) :
  Forall (fun nu => (fst nu <= u_start (snd nu))%Q)
         (unit_of (step (PlayChunk now pcm) s)).
Proof.
  unfold step.
  destruct (playChunk now pcm s) as [[s' e] o] eqn:P.
  apply playChunk_cursor in P. unfold unit_of; cbn [e_call e_outcome].
  destruct o as [u|x]; [|constructor].
  destruct P as (H & _). constructor; [|constructor].
  cbn [fst snd]. rewrite H. apply Q.le_max_l.
Qed.

Lemma history_after_now (s : t) (cs : list call) :
  Forall (fun nu => (fst nu <= u_start (snd nu))%Q)
         (timed_units (history s cs)).
Proof.
  revert s. induction cs as [|c r IH]; intros s; [constructor|].
  unfold timed_units. cbn [history flat_map].
  apply Forall_app. split; [|apply IH].
  destruct c as [now pcm|now|st|]; [apply playChunk_after_now| | |].
  - constructor.
  - constructor.
  - cbn. constructor.
Qed.

Example flush_then_play :
  let '(s, e, o) :=
    playChunk (3 # 1) [x00; x40]
      (fst (flush (with_cursor 1000 (fst (fst (playChunk 0 [x00; x40] init)))))) in
  e = [NewAudioContext 1%nat 24000; ResumeContext 1%nat;
       StartSource 1%nat
         {| u_start := 3; u_duration := (1 / 24000)%Q;
            u_samples := [(16384 / 32768)%Q] |}]
  /\ o = Scheduled
           {| u_start := 3; u_duration := (1 / 24000)%Q;
            u_samples := [(16384 / 32768)%Q] |}.
Proof. split; reflexivity. Qed.

(** C2.  [flush] closes the context the hook holds, if any, forgets it
    and puts the cursor at zero, whatever the cursor was; the next
    [playChunk] creates a new context before anything else and, when it
    schedules a unit, starts it at [max(now, 0)], which is not before
    [now]; and every unit scheduled in any run that follows starts no
    earlier than the clock reading of its call, the run being the same
    for every value the cursor had before the flush. *)
Theorem flush_starts_a_fresh_timeline (s : t) :
  fst (flush s)
  = {| ctxRef := None; nextTimeRef := 0; isPlayingRef := false;
       fresh := fresh s |}
  /\ snd (flush s) = if_some (ctxRef s) (fun c => [CloseContext (ctx_id c)])
  /\ (forall q : Q, flush (with_cursor q s) = flush s)
  /\ (forall (now : Q) (pcm : list byte),
        let '(s', e, o) := playChunk now pcm (fst (flush s)) in
        ctxRef s' = Some {| ctx_id := fresh s; state := suspended |}
        /\ hd_error e
           = Some (NewAudioContext (fresh s) AUDIO_RECEIVE_SAMPLE_RATE)
        /\ match o with
           | Scheduled u => u_start u = Qmax now 0 /\ (now <= u_start u)%Q
           | Failed _ => nextTimeRef s' = 0%Q
           end)
  /\ (forall (q : Q) (cs : list call),
        history (fst (flush (with_cursor q s))) cs = history (fst (flush s)) cs
        /\ Forall (fun nu => (fst nu <= u_start (snd nu))%Q)
                  (timed_units (history (fst (flush s)) cs))).
Proof.
  split; [reflexivity|]. split; [reflexivity|]. split; [reflexivity|].
  split.
  - intros now pcm. unfold playChunk, getContext, new_context, flush.
    cbn [fst ctxRef is_suspended state fresh nextTimeRef isPlayingRef].
    destruct (int16_array pcm) as [[|v vs]|]; cbn [map ctxRef nextTimeRef].
    + repeat split; reflexivity.
    + repeat split; try reflexivity. cbn [u_start]. apply Q.le_max_l.
    + repeat split; reflexivity.
  - intros q cs. split; [reflexivity|apply history_after_now].
Qed.

End Playback.

(** ** The Playback Scheduler in binary64 *)

Section PlaybackBinary64.

Import Playback64.

Lemma getContext64_keeps_cursor (s s1 : t) (c : AudioPlayback.AudioContext)
      (e : list effect) :
  getContext s = (c, s1, e) -> nextTimeRef s1 = nextTimeRef s.
Proof.
  unfold getContext, new_context.
  destruct (ctxRef s) as [c0|].
  - destruct (AudioPlayback.is_closed c0); intros H; inversion H; subst; reflexivity.
  - intros H; inversion H; subst; reflexivity.
Qed.

(** What one call of [playChunk] does to the cursor. *)
Lemma playChunk64_cursor (now : Z) (pcm : list byte) (s s' : t)
      (e : list effect) (o : outcome64) :
  playChunk now pcm s = (s', e, o) ->
  match o with
  | Scheduled64 u =>
      Binary64.Num (start u) = Binary64.max (Binary64.Num now) (nextTimeRef s)
      /\ nextTimeRef s' = computed_end u
      /\ Binary64.nonneg (duration u)
  | Failed64 _ => nextTimeRef s' = nextTimeRef s
  end.
Proof.
  unfold playChunk.
  destruct (getContext s) as [[c s1] e1] eqn:G.
  apply getContext64_keeps_cursor in G.
  destruct (int16_array pcm) as [int16|].
  - destruct int16 as [|v vs]; cbn [map].
    + intros H; inversion H; subst. exact G.
    + rewrite G.
      destruct (Binary64.max (Binary64.Num now) (nextTimeRef s)) as [a|] eqn:M;
        intros H; inversion H; subst; [|exact G].
      unfold computed_end. cbn [start duration nextTimeRef].
      split; [reflexivity|]. split; [reflexivity|].
      apply quotient_nonneg; [lia|reflexivity].
  - intros H; inversion H; subst. exact G.
Qed.

Lemma onended64_cursor (now : Z) (s : t) :
  nextTimeRef (onended now s) = nextTimeRef s.
Proof. unfold onended. destruct (Binary64.leb _ _); reflexivity. Qed.

Lemma step64_before (c : call64) (s : t) : e_before64 (step64 c s) = s.
Proof.
  destruct c as [now pcm|now|st|]; cbn; [|reflexivity|reflexivity|reflexivity].
  destruct (playChunk now pcm s) as [[s' e] o]. reflexivity.
Qed.

(** A call other than [flush], at a clock reading that is a binary64
    number, on a cursor that is one. *)
Lemma step64_cursor (c : call64) (s : t) :
  flush_free [c] = true -> clock_readings_ok [c] = true ->
  Binary64.valid (nextTimeRef s) = true ->
  Binary64.valid (nextTimeRef (e_after64 (step64 c s))) = true
  /\ Binary64.leb (nextTimeRef s) (nextTimeRef (e_after64 (step64 c s))) = true
  /\ match unit_of64 (step64 c s) with
     | [] => nextTimeRef (e_after64 (step64 c s)) = nextTimeRef s
     | u :: l =>
         l = []
         /\ (exists now pcm, c = PlayChunk64 now pcm
             /\ Binary64.Num (start u)
                = Binary64.max (Binary64.Num now) (nextTimeRef s))
         /\ Binary64.representable (start u) = true
         /\ Binary64.nonneg (duration u)
         /\ nextTimeRef (e_after64 (step64 c s)) = computed_end u
     end.
Proof.
  destruct c as [now pcm|now|st|]; cbn [flush_free clock_readings_ok forallb];
    rewrite ?andb_true_r; intros Hf Hr V; try discriminate.
  - unfold step64, unit_of64.
    destruct (playChunk now pcm s) as [[s' e] o] eqn:P.
    pose proof (playChunk64_cursor _ _ _ _ _ _ P) as H.
    cbn [e_call64 e_outcome64 e_after64].
    destruct o as [u|x].
    + destruct H as (H1 & H2 & H3).
      assert (VS : Binary64.representable (start u) = true).
      { change (Binary64.valid (Binary64.Num (start u)) = true).
        rewrite H1. apply max_valid; [exact Hr|exact V]. }
      rewrite H2. unfold computed_end.
      split; [apply add_valid; [exact VS|exact H3]|].
      split.
      * apply leb_trans with (Binary64.Num (start u)).
        -- rewrite H1. apply leb_max_r.
        -- apply leb_add; [exact VS|exact H3].
      * split; [reflexivity|]. split; [eauto|]. auto.
    + rewrite H. split; [exact V|]. split; [apply leb_refl|reflexivity].
  - cbn. rewrite onended64_cursor.
    split; [exact V|]. split; [apply leb_refl|reflexivity].
  - cbn. split; [exact V|]. split; [apply leb_refl|reflexivity].
Qed.

Lemma step64_entry (c : call64) (s : t) :
  flush_free [c] = true -> clock_readings_ok [c] = true ->
  Binary64.valid (nextTimeRef s) = true ->
  Binary64.leb (nextTimeRef (e_before64 (step64 c s)))
               (nextTimeRef (e_after64 (step64 c s))) = true
  /\ forall now pcm u,
       e_call64 (step64 c s) = PlayChunk64 now pcm ->
       e_outcome64 (step64 c s) = Some (Scheduled64 u) ->
       Binary64.Num (start u)
       = Binary64.max (Binary64.Num now) (nextTimeRef (e_before64 (step64 c s)))
       /\ nextTimeRef (e_after64 (step64 c s))
          = Binary64.add (Binary64.Num (start u)) (duration u).
Proof.
  intros Hf Hr V. rewrite step64_before.
  split; [apply (step64_cursor c s Hf Hr V)|].
  intros now pcm u Hc Ho.
  destruct c as [now' pcm'|now'|st|]; try discriminate.
  unfold step64 in *.
  destruct (playChunk now' pcm' s) as [[s' e] o] eqn:P.
  cbn in Hc, Ho |- *. inversion Hc; subst. inversion Ho; subst.
  apply playChunk64_cursor in P as (H1 & H2 & _). auto.
Qed.

Lemma run_split (c : call64) (r : list call64) :
  flush_free (c :: r) = true -> clock_readings_ok (c :: r) = true ->
  (flush_free [c] = true /\ clock_readings_ok [c] = true)
  /\ flush_free r = true /\ clock_readings_ok r = true.
Proof.
  cbn [flush_free clock_readings_ok forallb]. rewrite !andb_true_r.
  intros F R. apply andb_true_iff in F as [F1 F2].
  apply andb_true_iff in R as [R1 R2]. auto.
Qed.

Lemma units64_cons (c : call64) (r : list call64) (s : t) :
  units64 (history64 s (c :: r))
  = unit_of64 (step64 c s) ++ units64 (history64 (e_after64 (step64 c s)) r).
Proof. reflexivity. Qed.

Lemma history64_entries (s : t) (cs : list call64) :
  flush_free cs = true -> clock_readings_ok cs = true ->
  Binary64.valid (nextTimeRef s) = true ->
  Forall
    (fun e =>
       Binary64.leb (nextTimeRef (e_before64 e)) (nextTimeRef (e_after64 e)) = true
       /\ forall now pcm u,
            e_call64 e = PlayChunk64 now pcm ->
            e_outcome64 e = Some (Scheduled64 u) ->
            Binary64.Num (start u)
            = Binary64.max (Binary64.Num now) (nextTimeRef (e_before64 e))
            /\ nextTimeRef (e_after64 e)
               = Binary64.add (Binary64.Num (start u)) (duration u))
    (history64 s cs).
Proof.
  revert s. induction cs as [|c r IH]; intros s Hf Hr V; [constructor|].
  destruct (run_split c r Hf Hr) as ((F1 & R1) & F2 & R2).
  cbn [history64]. constructor.
  - apply step64_entry; assumption.
  - apply IH; try assumption. apply (step64_cursor c s F1 R1 V).
Qed.

Lemma final64_cursor (s : t) (cs : list call64) :
  flush_free cs = true -> clock_readings_ok cs = true ->
  Binary64.valid (nextTimeRef s) = true ->
  Binary64.valid (nextTimeRef (final64 s cs)) = true
  /\ Binary64.leb (nextTimeRef s) (nextTimeRef (final64 s cs)) = true.
Proof.
  revert s. induction cs as [|c r IH]; intros s Hf Hr V;
    [split; [exact V|apply leb_refl]|].
  destruct (run_split c r Hf Hr) as ((F1 & R1) & F2 & R2).
  destruct (step64_cursor c s F1 R1 V) as (V1 & L1 & _).
  cbn [final64]. destruct (IH _ F2 R2 V1) as [V2 L2].
  split; [exact V2|]. eapply leb_trans; eassumption.
Qed.

Lemma chained64_weaken (c c' : Binary64.t) (us : list sched_unit64) :
  Binary64.leb c c' = true -> chained64 c' us -> chained64 c us.
Proof.
  destruct us as [|u r]; [auto|]. cbn [chained64].
  intros L (H1 & H2). split; [|exact H2]. eapply leb_trans; eassumption.
Qed.

Lemma history64_chained (s : t) (cs : list call64) :
  flush_free cs = true -> clock_readings_ok cs = true ->
  Binary64.valid (nextTimeRef s) = true ->
  chained64 (nextTimeRef s) (units64 (history64 s cs)).
Proof.
  revert s. induction cs as [|c r IH]; intros s Hf Hr V; [exact I|].
  destruct (run_split c r Hf Hr) as ((F1 & R1) & F2 & R2).
  destruct (step64_cursor c s F1 R1 V) as (V1 & L1 & H).
  specialize (IH _ F2 R2 V1). rewrite units64_cons.
  destruct (unit_of64 (step64 c s)) as [|u l].
  - rewrite H in IH. exact IH.
  - destruct H as (-> & (now & pcm & _ & M) & VS & N & E).
    cbn [app chained64]. split; [rewrite M; apply leb_max_r|].
    split; [exact VS|]. split; [exact N|]. rewrite <- E. exact IH.
Qed.

Lemma chained64_after_computed_ends (c : Binary64.t) (us : list sched_unit64) :
  chained64 c us -> after_computed_ends us /\ overlap_within_rounding us.
Proof.
  revert c. induction us as [|u r IH]; intros c H; [split; exact I|].
  destruct H as (_ & VS & N & H). destruct (IH _ H) as [IH1 IH2].
  cbn [after_computed_ends overlap_within_rounding].
  destruct r as [|v r']; [split; exact I|].
  destruct H as (L & _). split; (split; [|assumption]); [exact L|].
  intros d D. unfold computed_end in L. rewrite D in L, N. cbn [Binary64.nonneg] in N.
  apply representable_spec in VS.
  destruct (Binary64.add (Binary64.Num (start u)) (Binary64.Num d)) as [e|] eqn:A;
    [|discriminate].
  pose proof (add_error (start u) d e ltac:(lia) A). cbn [Binary64.leb] in L.
  apply Z.leb_le in L. lia.
Qed.

Lemma running_sum_below (x : Binary64.t) (s : t) (cs : list call64) :
  flush_free cs = true -> clock_readings_ok cs = true ->
  Binary64.valid (nextTimeRef s) = true ->
  Binary64.nonneg x -> Binary64.leb x (nextTimeRef s) = true ->
  Binary64.leb (running_sum x (units64 (history64 s cs)))
               (nextTimeRef (final64 s cs)) = true.
Proof.
  revert x s. induction cs as [|c r IH]; intros x s Hf Hr V N L; [exact L|].
  destruct (run_split c r Hf Hr) as ((F1 & R1) & F2 & R2).
  destruct (step64_cursor c s F1 R1 V) as (V1 & L1 & H).
  rewrite units64_cons. cbn [final64].
  destruct (unit_of64 (step64 c s)) as [|u l].
  - cbn [app]. apply IH; try assumption. eapply leb_trans; eassumption.
  - destruct H as (-> & (now & pcm & _ & M) & VS & ND & E).
    cbn [app]. unfold running_sum. cbn [fold_left].
    apply (IH (Binary64.add x (duration u))); try assumption.
    + apply add_nonneg; assumption.
    + rewrite E. unfold computed_end. apply add_mono; try assumption.
      apply leb_trans with (nextTimeRef s); [exact L|].
      rewrite M. apply leb_max_r.
Qed.

Lemma running_sum_from_first_start (s : t) (cs : list call64) :
  flush_free cs = true -> clock_readings_ok cs = true ->
  Binary64.valid (nextTimeRef s) = true ->
  match units64 (history64 s cs) with
  | [] => True
  | u :: r =>
      Binary64.leb (running_sum (Binary64.Num (start u)) (u :: r))
                   (nextTimeRef (final64 s cs)) = true
  end.
Proof.
  revert s. induction cs as [|c r IH]; intros s Hf Hr V; [exact I|].
  destruct (run_split c r Hf Hr) as ((F1 & R1) & F2 & R2).
  destruct (step64_cursor c s F1 R1 V) as (V1 & L1 & H).
  rewrite units64_cons. cbn [final64].
  destruct (unit_of64 (step64 c s)) as [|u l].
  - cbn [app]. apply IH; assumption.
  - destruct H as (-> & _ & VS & ND & E).
    cbn [app]. unfold running_sum. cbn [fold_left].
    apply (running_sum_below _ _ _ F2 R2 V1).
    + apply add_nonneg; [|exact ND]. apply representable_spec in VS.
      cbn. lia.
    + rewrite E. apply leb_refl.
Qed.

(** Three tenths of a second scheduled at clock zero leave the cursor
    at 0.30000000000000004; an [ended] callback at a quarter of a second
    compares it with 0.25 + 0.05, which is 0.3 rounded down, and leaves
    [isPlayingRef] set. *)
Example ended_after_three_tenths :
  let s := final64 init (repeat (PlayChunk64 0 (repeat x00 4800)) 3) in
  Binary64.of_spec (S754_finite false 5404319552844596 (-54))
  = Some (nextTimeRef s)
  /\ Binary64.of_spec (S754_finite false 5404319552844595 (-54))
     = Some (Binary64.add (Binary64.Num (2 ^ 1072)) (Binary64.quotient 5 100))
  /\ isPlayingRef (onended (2 ^ 1072) s) = true.
Proof. vm_compute. repeat split. Qed.

(** C1, as the code has it.  In a run of the hook's callbacks without
    [flush], at clock readings that are binary64 numbers and from a
    cursor that is one: every call leaves the cursor where it was or
    further on; a [playChunk] that schedules a unit starts it at
    [max(now, cursor)] and moves the cursor to the binary64 sum of that
    start and the buffer's duration; every unit but the first starts at
    or after the cursor the unit before it left, which is no more than
    half a spacing of binary64 numbers before the exact sum of the
    start and the duration of that unit; and the cursor the run ends on
    is at least the first start with the durations added to it one by
    one in binary64. *)
Theorem playChunk_schedule_in_binary64 (s : t) (cs : list call64) :
  flush_free cs = true ->
  clock_readings_ok cs = true ->
  Binary64.valid (nextTimeRef s) = true ->
  Forall
    (fun e =>
       Binary64.leb (nextTimeRef (e_before64 e)) (nextTimeRef (e_after64 e)) = true
       /\ forall now pcm u,
            e_call64 e = PlayChunk64 now pcm ->
            e_outcome64 e = Some (Scheduled64 u) ->
            Binary64.Num (start u)
            = Binary64.max (Binary64.Num now) (nextTimeRef (e_before64 e))
            /\ nextTimeRef (e_after64 e)
               = Binary64.add (Binary64.Num (start u)) (duration u))
    (history64 s cs)
  /\ Binary64.leb (nextTimeRef s) (nextTimeRef (final64 s cs)) = true
  /\ after_computed_ends (units64 (history64 s cs))
  /\ overlap_within_rounding (units64 (history64 s cs))
  /\ match units64 (history64 s cs) with
     | [] => True
     | u :: r =>
         Binary64.leb (running_sum (Binary64.Num (start u)) (u :: r))
                      (nextTimeRef (final64 s cs)) = true
     end.
Proof.
  intros Hf Hr V.
  pose proof (history64_chained s cs Hf Hr V) as C.
  apply chained64_after_computed_ends in C as [C1 C2].
  split; [apply history64_entries; assumption|].
  split; [apply (final64_cursor s cs Hf Hr V)|].
  split; [exact C1|]. split; [exact C2|].
  apply running_sum_from_first_start; assumption.
Qed.

Lemma playChunk_schedule_in_binary64_witness :
  flush_free eight_tenths = true
  /\ clock_readings_ok eight_tenths = true
  /\ Binary64.valid (nextTimeRef init) = true
  /\ List.length (units64 (history64 init eight_tenths)) = 8%nat
  /\ after_computed_ends (units64 (history64 init eight_tenths))
  /\ overlap_within_rounding (units64 (history64 init eight_tenths)).
Proof.
  split; [reflexivity|]. split; [reflexivity|]. split; [reflexivity|].
  split; [vm_compute; reflexivity|].
  pose proof (playChunk_schedule_in_binary64 init eight_tenths
                eq_refl eq_refl eq_refl) as H.
  exact (conj (proj1 (proj2 (proj2 H))) (proj1 (proj2 (proj2 (proj2 H))))).
Defined.

(** With the cursor as the program computes it, the eight units of
    [eight_tenths] overlap and take less than the sum of their
    durations: the fifth starts at 0.4, before the fourth, started at
    0.30000000000000004, is a tenth of a second old, and the cursor is
    left at 0.79999999999999993..., which is 7205759403792793 * 2^-53,
    below eight tenths and below the sum of the eight durations. *)
Lemma binary64_ends_fall_short :
  flush_free eight_tenths = true
  /\ List.length (units64 (history64 init eight_tenths)) = 8%nat
  /\ ~ no_overlap64 (units64 (history64 init eight_tenths))
  /\ ~ span_covers_durations64 (units64 (history64 init eight_tenths))
  /\ match units64 (history64 init eight_tenths) with
     | _ :: _ :: _ :: u :: v :: _ =>
         (Binary64.seconds (start v) < Binary64.seconds (start u) + (1 # 10))%Q
     | _ => False
     end
  /\ (exists c, nextTimeRef (final64 init eight_tenths) = Binary64.Num c
                /\ Binary64.of_spec (S754_finite false 7205759403792793 (-53))
                   = Some (Binary64.Num c)
                /\ (Binary64.seconds c < 8 # 10)%Q
                /\ Binary64.leb (exact_sum (Binary64.Num 0)
                                   (units64 (history64 init eight_tenths)))
                                (Binary64.Num c) = false).
Proof.
  split; [reflexivity|]. split; [vm_compute; reflexivity|].
  split; [|split; [|split]].
  - vm_compute. intros (_ & _ & _ & H & _). discriminate.
  - vm_compute. discriminate.
  - vm_compute. reflexivity.
  - eexists. split; [vm_compute; reflexivity|].
    split; [vm_compute; reflexivity|]. split; vm_compute; reflexivity.
Qed.

End PlaybackBinary64.

(** ** The Frame Pacer *)

Section FramePacer.

Import CameraCapture.

Example tick_before_video_is_ready :
  interval_callback
    {| readyState := 1; context2d := true; dataUrl := lit "data:image/jpeg;base64,AAAA" |}
    {| videoRef := Some {| srcObject := Some [7%nat] |}; streamRef := Some [7%nat];
       intervalRef := Some 3%nat; canvasRef := Some 4%nat; isActive := true;
       frameCountRef := 0 |}
  = ({| videoRef := Some {| srcObject := Some [7%nat] |}; streamRef := Some [7%nat];
        intervalRef := Some 3%nat; canvasRef := Some 4%nat; isActive := true;
        frameCountRef := 0 |},
     [Console WARN (FrameSkippedVideoNotReady 1)], Returned).
Proof. reflexivity. Qed.

Example tick_with_a_frame :
  interval_callback
    {| readyState := 4; context2d := true; dataUrl := lit "data:image/jpeg;base64,AAAA" |}
    {| videoRef := Some {| srcObject := Some [7%nat] |}; streamRef := Some [7%nat];
       intervalRef := Some 3%nat; canvasRef := Some 4%nat; isActive := true;
       frameCountRef := 3 |}
  = ({| videoRef := Some {| srcObject := Some [7%nat] |}; streamRef := Some [7%nat];
        intervalRef := Some 3%nat; canvasRef := Some 4%nat; isActive := true;
        frameCountRef := 4 |},
     [DrawImage; OnFrame (Some (lit "AAAA"))], Returned).
Proof. reflexivity. Qed.



Import IntervalTimers.










Example two_timers_after_two_starts :
  let p := fst (run [Start (Stream [7%nat] None) 4%nat;
                     Start (Stream [8%nat] None) 5%nat] (init mounted)) in
  live p = [1%nat; 2%nat] /\ intervalRef (hook p) = Some 2%nat
  /\ live (fst (stop p)) = [1%nat].
Proof. repeat split; reflexivity. Qed.




End FramePacer.

(** ** The Connection Manager *)

Section ConnectionManager.

Import WebSocket.

Example send_on_open_socket :
  sendText (lit "hi")
    {| sockets := [{| readyState := OPEN; preset := lit "tutor" |}];
       wsRef := Some 0%nat; status := connected |}
  = ({| sockets := [{| readyState := OPEN; preset := lit "tutor" |}];
        wsRef := Some 0%nat; status := connected |},
     [SocketSend 0%nat (Text (lit "hi"))], Returned).
Proof. reflexivity. Qed.

Lemma send_not_open (p : outbound) (s : t) :
  ref_readyState s <> Some OPEN -> send p s = (s, [], Returned).
Proof.
  intros H. unfold send.
  destruct (ref_readyState s) as [[| | |]|]; try reflexivity.
  now elim H.
Qed.

(** C8.  While [wsRef] holds no socket, or holds one whose ready state is
    not OPEN, [sendAudio], [sendImage] and [sendText] return normally
    without calling the socket and leave the hook's state as it was. *)
Theorem send_while_not_open_is_dropped
        (s : t) (buffer : list byte) (base64Jpeg : option jsstring)
        (text : jsstring) :
  ref_readyState s <> Some OPEN ->
  sendAudio buffer s = (s, [], Returned)
  /\ sendImage base64Jpeg s = (s, [], Returned)
  /\ sendText text s = (s, [], Returned).
Proof.
  intros H. unfold sendAudio, sendImage, sendText.
  repeat split; apply send_not_open; exact H.
Qed.

Lemma send_while_not_open_witness :
  let s := {| sockets := [{| readyState := CONNECTING; preset := lit "tutor" |}];
              wsRef := Some 0%nat; status := connecting |} in
  ref_readyState s <> Some OPEN
  /\ sendAudio [x01; x00] s = (s, [], Returned)
  /\ sendImage (Some (lit "AAAA")) s = (s, [], Returned)
  /\ sendText (lit "hi") s = (s, [], Returned).
Proof.
  intros s.
  assert (H : ref_readyState s <> Some OPEN) by (cbn; discriminate).
  split; [exact H|].
  exact (send_while_not_open_is_dropped s [x01; x00] (Some (lit "AAAA"))
           (lit "hi") H).
Defined.

End ConnectionManager.

(** ** Strings *)

Lemma trim_start_nil (s : jsstring) : trim_start s = [] <-> blank s = true.
Proof.
  unfold blank. induction s as [|c r IH]; cbn; [tauto|].
  destruct (is_white_space c); cbn; [exact IH|].
  split; discriminate.
Qed.

Lemma trim_start_head (s r : jsstring) (c : code_unit) :
  trim_start s = c :: r -> is_white_space c = false.
Proof.
  induction s as [|d s IH]; cbn; [discriminate|].
  destruct (is_white_space d) eqn:W; [exact IH|].
  intros H. inversion H; subst. exact W.
Qed.

Lemma truthy_rev (s : jsstring) : truthy (rev s) = truthy s.
Proof.
  destruct s as [|c r]; [reflexivity|]. cbn.
  destruct (rev r); reflexivity.
Qed.

Lemma truthy_trim_start (s : jsstring) : truthy (trim_start s) = negb (blank s).
Proof.
  destruct (trim_start s) as [|c r] eqn:E.
  - apply trim_start_nil in E. now rewrite E.
  - destruct (blank s) eqn:B; [|reflexivity].
    apply trim_start_nil in B. congruence.
Qed.

(** [s.trim()] is truthy exactly when [s] holds a code unit that is not
    white space. *)
Lemma truthy_trim (s : jsstring) : truthy (trim s) = negb (blank s).
Proof.
  unfold trim. rewrite truthy_rev, truthy_trim_start.
  destruct (trim_start s) as [|c r] eqn:E.
  - apply trim_start_nil in E. now rewrite E.
  - pose proof (trim_start_head _ _ _ E) as W.
    assert (B : blank s = false).
    { destruct (blank s) eqn:B; [|reflexivity].
      apply trim_start_nil in B. congruence. }
    rewrite B. unfold blank. cbn [rev]. rewrite forallb_app. cbn.
    rewrite W. now rewrite andb_false_r.
Qed.

Lemma blank_nil_or (s : jsstring) : truthy s && truthy (trim s) = negb (blank s).
Proof.
  rewrite truthy_trim. destruct s; reflexivity.
Qed.

(** ** The Session Controller: inbound control messages *)

Section ControlDispatch.

Import AgentPanel.

Example hello_scenario :
  reacts
    [SocketMessage (WebSocket.TextFrame (Some (control Tag.transcript (Some (lit "Hel"))))) 0;
     SocketMessage (WebSocket.TextFrame (Some (control Tag.transcript (Some (lit "lo"))))) 0;
     SocketMessage (WebSocket.TextFrame (Some (control Tag.turn_complete None))) 0]
    init
  = (addEntry assistant (lit "Hello") init, []).
Proof. reflexivity. Qed.

Example spoken_words_are_shown_at_once :
  handleMessage (control Tag.input_transcript (Some (lit "hi"))) init
  = (addEntry user (lit "hi") init, []).
Proof. reflexivity. Qed.

Example blank_speech_is_not_shown :
  handleMessage (control Tag.input_transcript (Some [32; 9; 10]%N)) init
  = (init, []).
Proof. reflexivity. Qed.

(** C4, as the code has it.  A [transcript] message appends its text to
    the assistant accumulator and notifies nobody.  An
    [input_transcript] message is not accumulated: when its text holds
    anything but white space it is shown at once as one user
    notification, otherwise it is dropped; the assistant accumulator is
    untouched either way.  A [turn_complete] that finds the accumulator
    non-empty emits one assistant notification holding all of it and
    empties it.  So "Hel", "lo", [turn_complete] on an empty accumulator
    add exactly the one assistant notification "Hello". *)
Theorem transcript_is_accumulated_until_turn_complete (msg : WSMessage) (p : t) :
  (type msg = Tag.transcript ->
   handleMessage msg p
   = (set_assistantBuffer (assistantBufferRef p ++ or_else (text msg) []) p, []))
  /\ (type msg = Tag.input_transcript ->
      handleMessage msg p
      = (match text msg with
         | Some txt => if blank txt then p else addEntry user txt p
         | None => p
         end, [])
      /\ assistantBufferRef (fst (handleMessage msg p)) = assistantBufferRef p)
  /\ (type msg = Tag.turn_complete ->
      assistantBufferRef p <> [] ->
      handleMessage msg p
      = (set_assistantBuffer [] (addEntry assistant (assistantBufferRef p) p),
         []))
  /\ (assistantBufferRef p = [] ->
      reacts
        [SocketMessage (WebSocket.TextFrame
                          (Some (control Tag.transcript (Some (lit "Hel"))))) 0;
         SocketMessage (WebSocket.TextFrame
                          (Some (control Tag.transcript (Some (lit "lo"))))) 0;
         SocketMessage (WebSocket.TextFrame
                          (Some (control Tag.turn_complete None))) 0]
        p
      = (addEntry assistant (lit "Hello") p, [])).
Proof.
  split; [|split; [|split]].
  - intros T. unfold handleMessage. rewrite T. reflexivity.
  - intros T. unfold handleMessage. rewrite T.
    destruct (text msg) as [txt|]; [|split; reflexivity].
    rewrite blank_nil_or. destruct (blank txt); split; reflexivity.
  - intros T B. unfold handleMessage. rewrite T.
    destruct (assistantBufferRef p); [now elim B|reflexivity].
  - intros B. destruct p; cbn in B; subst. reflexivity.
Qed.

Lemma transcript_accumulation_witness :
  type (control Tag.turn_complete None) = Tag.turn_complete
  /\ assistantBufferRef (set_assistantBuffer (lit "Hello") init) <> []
  /\ handleMessage (control Tag.turn_complete None)
       (set_assistantBuffer (lit "Hello") init)
     = (addEntry assistant (lit "Hello") init, []).
Proof.
  split; [reflexivity|]. split; [discriminate|].
  refine (proj1 (proj2 (proj2
    (transcript_is_accumulated_until_turn_complete
       (control Tag.turn_complete None)
       (set_assistantBuffer (lit "Hello") init)))) eq_refl _).
  discriminate.
Defined.

(** C4 as the specification words it fails twice: an [input_transcript]
    is not accumulated but notified immediately, and a [turn_complete]
    on an empty accumulator emits no notification at all. *)
Lemma input_transcript_is_not_accumulated :
  transcript (fst (handleMessage
                     (control Tag.input_transcript (Some (lit "hi"))) init))
  = [(user, lit "hi")]
  /\ transcript (fst (handleMessage
                       (control Tag.input_transcript (Some (lit "hi"))) init))
     <> transcript init
  /\ transcript (fst (handleMessage (control Tag.turn_complete None) init)) = [].
Proof.
  split; [reflexivity|]. split; [discriminate|reflexivity].
Qed.

Example interrupted_scenario :
  handleMessage (control Tag.interrupted None)
    (set_assistantBuffer (lit "Hel") init)
  = (addEntry assistant (lit "Hel [interrupted]") init, []).
Proof. reflexivity. Qed.

(** C5, as the code has it.  An [interrupted] message always calls the
    scheduler's [flush] and leaves the accumulator empty; when the
    accumulator held text it emits exactly one assistant notification,
    that text followed by " [interrupted]".  With "Hel" accumulated the
    one notification is "Hel [interrupted]". *)
Theorem interrupted_flushes_and_marks_the_partial_turn (msg : WSMessage) (p : t) :
  type msg = Tag.interrupted ->
  snd (handleMessage msg p) = snd (AudioPlayback.flush (playback p))
  /\ playback (fst (handleMessage msg p)) = fst (AudioPlayback.flush (playback p))
  /\ assistantBufferRef (fst (handleMessage msg p)) = []
  /\ (assistantBufferRef p <> [] ->
      fst (handleMessage msg p)
      = set_assistantBuffer []
          (addEntry assistant (assistantBufferRef p ++ lit " [interrupted]")
             (set_playback (fst (AudioPlayback.flush (playback p))) p)))
  /\ (assistantBufferRef p = lit "Hel" ->
      transcript (fst (handleMessage msg p))
      = transcript p ++ [(assistant, lit "Hel [interrupted]")]).
Proof.
  intros T. unfold handleMessage. rewrite T.
  cbn [AudioPlayback.flush fst snd].
  cbn [set_playback assistantBufferRef].
  destruct (assistantBufferRef p) as [|c r] eqn:B; cbn [truthy].
  - split; [reflexivity|]. split; [reflexivity|].
    split; [cbn; exact B|].
    split; [intros H; now elim H|discriminate].
  - split; [reflexivity|]. split; [reflexivity|]. split; [reflexivity|].
    split; [reflexivity|].
    intros H. inversion H; subst. reflexivity.
Qed.

Lemma interrupted_witness :
  type (control Tag.interrupted None) = Tag.interrupted
  /\ assistantBufferRef (set_assistantBuffer (lit "Hel") init) = lit "Hel"
  /\ transcript (fst (handleMessage (control Tag.interrupted None)
                        (set_assistantBuffer (lit "Hel") init)))
     = [(assistant, lit "Hel [interrupted]")].
Proof.
  split; [reflexivity|]. split; [reflexivity|].
  exact (proj2 (proj2 (proj2 (proj2
    (interrupted_flushes_and_marks_the_partial_turn
       (control Tag.interrupted None)
       (set_assistantBuffer (lit "Hel") init) eq_refl)))) eq_refl).
Defined.

(** C5 as the specification words it fails on an empty accumulator: the
    message then emits no notification, not one reading " [interrupted]". *)
Lemma interrupted_on_empty_accumulator_is_silent :
  transcript (fst (handleMessage (control Tag.interrupted None) init)) = []
  /\ transcript (fst (handleMessage (control Tag.interrupted None) init))
     <> transcript init
        ++ [(assistant, assistantBufferRef init ++ lit " [interrupted]")].
Proof. split; [reflexivity|discriminate]. Qed.

(** C9.  With the assistant accumulator empty, [turn_complete] changes
    nothing and calls nothing, and [interrupted] does nothing but call
    the scheduler's [flush]: no transcript entry is added by either. *)
Theorem empty_accumulator_emits_no_notification (msg : WSMessage) (p : t) :
  assistantBufferRef p = [] ->
  (type msg = Tag.turn_complete -> handleMessage msg p = (p, []))
  /\ (type msg = Tag.interrupted ->
      handleMessage msg p
      = (set_playback (fst (AudioPlayback.flush (playback p))) p,
         snd (AudioPlayback.flush (playback p)))
      /\ transcript (fst (handleMessage msg p)) = transcript p).
Proof.
  intros B. split; intros T; unfold handleMessage; rewrite T.
  - rewrite B. reflexivity.
  - cbn [AudioPlayback.flush fst snd set_playback assistantBufferRef].
    rewrite B. split; reflexivity.
Qed.

Lemma empty_accumulator_witness :
  assistantBufferRef init = []
  /\ handleMessage (control Tag.turn_complete None) init = (init, [])
  /\ transcript (fst (handleMessage (control Tag.interrupted None) init))
     = transcript init.
Proof.
  split; [reflexivity|].
  pose proof (empty_accumulator_emits_no_notification
                (control Tag.turn_complete None) init eq_refl) as H1.
  pose proof (empty_accumulator_emits_no_notification
                (control Tag.interrupted None) init eq_refl) as H2.
  exact (conj (proj1 H1 eq_refl) (proj2 (proj2 H2 eq_refl))).
Defined.

Example session_ready_names_the_agent :
  handleMessage
    {| type := Tag.session_ready; text := None; session_id := None;
       agent := Some (lit "tutor"); message := None |} init
  = (addEntry system (lit "Connected to tutor agent.")
       (setAgentName (lit "tutor") init), []).
Proof. reflexivity. Qed.

(** C10.  A [session_ready] message whose [agent] field is missing or is
    the empty string sets the agent name to "general" and adds exactly
    one system notification, "Connected to general agent.". *)
Theorem session_ready_defaults_to_general (msg : WSMessage) (p : t) :
  type msg = Tag.session_ready ->
  agent msg = None \/ agent msg = Some [] ->
  handleMessage msg p
  = (addEntry system (lit "Connected to general agent.")
       (setAgentName (lit "general") p), [])
  /\ agentName (fst (handleMessage msg p)) = lit "general"
  /\ transcript (fst (handleMessage msg p))
     = transcript p ++ [(system, lit "Connected to general agent.")].
Proof.
  intros T A. unfold handleMessage. rewrite T.
  destruct A as [-> | ->]; repeat split; reflexivity.
Qed.

Lemma session_ready_witness :
  type (control Tag.session_ready None) = Tag.session_ready
  /\ (agent (control Tag.session_ready None) = None
      \/ agent (control Tag.session_ready None) = Some [])
  /\ transcript (fst (handleMessage (control Tag.session_ready None) init))
     = [(system, lit "Connected to general agent.")].
Proof.
  split; [reflexivity|]. split; [left; reflexivity|].
  exact (proj2 (proj2
    (session_ready_defaults_to_general (control Tag.session_ready None) init
       eq_refl (or_introl eq_refl)))).
Defined.

End ControlDispatch.

(** ** Teardown *)

Section Teardown.

Import AgentPanel.

Example end_of_a_live_session :
  handleEndSession
    (set_ws {| WebSocket.sockets :=
                 [{| WebSocket.readyState := WebSocket.OPEN;
                     WebSocket.preset := lit "tutor" |}];
               WebSocket.wsRef := Some 0%nat;
               WebSocket.status := WebSocket.connected |}
       (set_mic {| AudioCapture.audioContextRef := Some 1%nat;
                   AudioCapture.streamRef := Some [2%nat];
                   AudioCapture.processorRef := Some 3%nat;
                   AudioCapture.isCapturing := true |}
          (setSessionState active init)))
  = (set_ws {| WebSocket.sockets :=
                 [{| WebSocket.readyState := WebSocket.CLOSING;
                     WebSocket.preset := lit "tutor" |}];
               WebSocket.wsRef := None;
               WebSocket.status := WebSocket.disconnected |} init,
     [DisconnectNode 3%nat; CloseContext 1%nat; StopTrack 2%nat;
      Console LOG (CameraStopped 0); SocketClose 0%nat]).
Proof. reflexivity. Qed.

Lemma capture_stop_twice (m : AudioCapture.t) :
  AudioCapture.stop (fst (AudioCapture.stop m)) = (fst (AudioCapture.stop m), []).
Proof. reflexivity. Qed.

Lemma camera_stop_twice (c : CameraCapture.t) :
  CameraCapture.stop (fst (CameraCapture.stop c))
  = (fst (CameraCapture.stop c),
     [Console LOG (CameraStopped (CameraCapture.frameCountRef c))]).
Proof.
  unfold CameraCapture.stop. cbn.
  destruct (CameraCapture.videoRef c); reflexivity.
Qed.

Lemma disconnect_result (w : WebSocket.t) :
  exists l,
    fst (WebSocket.disconnect w)
    = {| WebSocket.sockets := l; WebSocket.wsRef := None;
         WebSocket.status := WebSocket.disconnected |}.
Proof.
  unfold WebSocket.disconnect.
  destruct (WebSocket.wsRef w) as [k|]; [|eexists; reflexivity].
  destruct (WebSocket.close k (WebSocket.sockets w)) as [l e].
  eexists; reflexivity.
Qed.

Lemma disconnect_twice (w : WebSocket.t) :
  WebSocket.disconnect (fst (WebSocket.disconnect w))
  = (fst (WebSocket.disconnect w), []).
Proof.
  destruct (disconnect_result w) as [l ->]. reflexivity.
Qed.

(** A socket the peer already closed, or that is closing, is not called
    again. *)
Lemma disconnect_of_a_closed_socket (w : WebSocket.t) :
  WebSocket.ref_readyState w <> Some WebSocket.OPEN ->
  WebSocket.ref_readyState w <> Some WebSocket.CONNECTING ->
  WebSocket.disconnect w
  = ({| WebSocket.sockets := WebSocket.sockets w; WebSocket.wsRef := None;
        WebSocket.status := WebSocket.disconnected |}, []).
Proof.
  unfold WebSocket.ref_readyState, WebSocket.disconnect, WebSocket.close.
  destruct (WebSocket.wsRef w) as [k|]; [|reflexivity].
  destruct (option_map WebSocket.readyState
              (nth_error (WebSocket.sockets w) k)) as [[| | |]|];
    intros H1 H2; try reflexivity; [now elim H2|now elim H1].
Qed.

Lemma flush_twice (pb : AudioPlayback.t) :
  AudioPlayback.flush (fst (AudioPlayback.flush pb))
  = (fst (AudioPlayback.flush pb), []).
Proof. reflexivity. Qed.

Lemma handleEndSession_result (p : t) :
  fst (handleEndSession p)
  = setSessionState idle
      (set_ws (fst (WebSocket.disconnect (ws p)))
         (set_camera (fst (CameraCapture.stop (camera p)))
            (set_mic (fst (AudioCapture.stop (mic p))) p))).
Proof.
  unfold handleEndSession.
  cbn [AudioCapture.stop CameraCapture.stop fst].
  destruct (WebSocket.disconnect (ws p)) as [w e]. reflexivity.
Qed.

Lemma handleEndSession_twice (p : t) :
  handleEndSession (fst (handleEndSession p))
  = (fst (handleEndSession p),
     [Console LOG (CameraStopped (CameraCapture.frameCountRef (camera p)))]).
Proof.
  rewrite handleEndSession_result.
  unfold handleEndSession at 1.
  cbn [mic camera ws setSessionState set_ws set_camera set_mic].
  rewrite capture_stop_twice, camera_stop_twice, disconnect_twice.
  reflexivity.
Qed.

Lemma ended_notices_snoc (l : list TranscriptEntry) :
  ended_notices (l ++ [(system, lit "Session ended.")]) = S (ended_notices l).
Proof.
  unfold ended_notices. rewrite filter_app, length_app.
  cbn [filter fst snd].
  destruct (list_eq_dec N.eq_dec (lit "Session ended.") (lit "Session ended."))
    as [_|N]; [|now elim N].
  cbn [List.length]. apply Nat.add_1_r.
Qed.

Lemma socket_closed_notifies_once (k : handle) (p : t) :
  transcript (fst (react (SocketClosed k) p))
  = transcript p ++ [(system, lit "Session ended.")].
Proof. reflexivity. Qed.

(** C6.  Each teardown callback, run on state that was never acquired or
    that the same callback has already released, returns that state
    unchanged and calls nothing on the platform; the only thing written
    is the console line of the camera's [stop].  None of them has a
    raising path.  A second [handleEndSession] leaves the transcript as
    the first left it, and whether the session is ended once or twice
    the closing of the socket then adds exactly one "Session ended."
    entry. *)
Theorem teardown_is_a_no_op_when_repeated
        (m : AudioCapture.t) (c : CameraCapture.t) (w : WebSocket.t)
        (pb : AudioPlayback.t) (p : t) (k : handle) :
  (AudioCapture.stop AudioCapture.init = (AudioCapture.init, [])
   /\ AudioCapture.stop (fst (AudioCapture.stop m))
      = (fst (AudioCapture.stop m), []))
  /\ (CameraCapture.stop CameraCapture.init
      = (CameraCapture.init, [Console LOG (CameraStopped 0)])
      /\ CameraCapture.stop (fst (CameraCapture.stop c))
         = (fst (CameraCapture.stop c),
            [Console LOG (CameraStopped (CameraCapture.frameCountRef c))]))
  /\ (WebSocket.disconnect WebSocket.init = (WebSocket.init, [])
      /\ WebSocket.disconnect (fst (WebSocket.disconnect w))
         = (fst (WebSocket.disconnect w), []))
  /\ (AudioPlayback.flush AudioPlayback.init = (AudioPlayback.init, [])
      /\ AudioPlayback.flush (fst (AudioPlayback.flush pb))
         = (fst (AudioPlayback.flush pb), []))
  /\ (handleEndSession init = (init, [Console LOG (CameraStopped 0)])
      /\ handleEndSession (fst (handleEndSession p))
         = (fst (handleEndSession p),
            [Console LOG
               (CameraStopped (CameraCapture.frameCountRef (camera p)))]))
  /\ transcript (fst (reacts [EndSession; EndSession] p)) = transcript p
  /\ ended_notices
       (transcript (fst (reacts [EndSession; EndSession; SocketClosed k] p)))
     = S (ended_notices (transcript p))
  /\ ended_notices (transcript (fst (reacts [EndSession; SocketClosed k] p)))
     = S (ended_notices (transcript p)).
Proof.
  assert (T1 : forall q, transcript (fst (handleEndSession q)) = transcript q).
  { intros q. rewrite handleEndSession_result. reflexivity. }
  assert (R1 : forall q evs,
             fst (reacts (EndSession :: evs) q)
             = fst (reacts evs (fst (handleEndSession q)))).
  { intros q evs. cbn [reacts react].
    destruct (handleEndSession q) as [q1 e1]. cbn [fst].
    destruct (reacts evs q1) as [q2 e2]. reflexivity. }
  assert (R2 : forall q,
             transcript (fst (reacts [SocketClosed k] q))
             = transcript q ++ [(system, lit "Session ended.")]).
  { intros q. reflexivity. }
  split; [split; [reflexivity|apply capture_stop_twice]|].
  split; [split; [reflexivity|apply camera_stop_twice]|].
  split; [split; [reflexivity|apply disconnect_twice]|].
  split; [split; [reflexivity|apply flush_twice]|].
  split; [split; [reflexivity|apply handleEndSession_twice]|].
  split; [|split].
  - rewrite !R1. cbn [reacts fst]. now rewrite !T1.
  - rewrite !R1, R2, !T1. apply ended_notices_snoc.
  - rewrite R1, R2, T1. apply ended_notices_snoc.
Qed.

End Teardown.

(** ** Scenarios across the hooks *)

Section Scenarios.

Import AgentPanel.

Example start_then_session_ready :
  let '(p, e) :=
    reacts
      [Start (lit "tutor") (lit "0f8c");
       SocketOpen 0%nat;
       SocketMessage
         (WebSocket.TextFrame
            (Some {| type := Tag.session_ready; text := None;
                     session_id := None; agent := Some (lit "tutor");
                     message := None |})) 0]
      init in
  e = [NewWebSocket 0%nat (lit "0f8c");
       SocketSend 0%nat (Config (lit "tutor"))]
  /\ WebSocket.status (ws p) = WebSocket.connected
  /\ agentName p = lit "tutor"
  /\ transcript p = [(system, lit "Connected to tutor agent.")].
Proof. repeat split; reflexivity. Qed.

Example microphone_block_reaches_the_open_socket :
  let connected :=
    fst (reacts [Start (lit "tutor") (lit "0f8c"); SocketOpen 0%nat] init) in
  snd (react (MicBlock [Finite 1; Finite (-1)]) connected)
  = [SocketSend 0%nat (Binary [xff; x7f; x00; x80])]
  /\ snd (react (MicBlock [Finite 1; Finite (-1)]) init) = [].
Proof. split; reflexivity. Qed.

End Scenarios.

(* ================================================================= *)
(** * Part III.  Further properties of the code *)
(* ================================================================= *)

(** ** PCM buffers *)

Lemma wrap16_range (z : Z) : -32768 <= wrap16 z <= 32767.
Proof. unfold wrap16. Z.div_mod_to_equations. lia. Qed.

Lemma Z_of_byte_range (b : byte) : 0 <= Z_of_byte b <= 255.
Proof.
  unfold Z_of_byte. pose proof (Byte.to_N_bounded b). lia.
Qed.

Lemma byte_of_Z_of_byte (z : Z) (b : byte) :
  z mod 256 = Z_of_byte b -> byte_of_Z z = b.
Proof.
  intros H. unfold byte_of_Z. rewrite H. unfold Z_of_byte.
  rewrite N2Z.id, Byte.of_to_N. reflexivity.
Qed.

Lemma int16_bytes_of_bytes (lo hi : byte) :
  int16_bytes (int16_of_bytes lo hi) = [lo; hi].
Proof.
  pose proof (Z_of_byte_range lo). pose proof (Z_of_byte_range hi).
  unfold int16_bytes, int16_of_bytes, wrap16.
  f_equal; [|f_equal]; apply byte_of_Z_of_byte;
    Z.div_mod_to_equations; lia.
Qed.

(** Induction over a byte list two bytes at a time. *)
Lemma pairs_ind (P : list byte -> Prop) :
  P [] -> (forall b, P [b]) ->
  (forall lo hi r, P r -> P (lo :: hi :: r)) ->
  forall bs, P bs.
Proof.
  intros H0 H1 H2 bs.
  assert (H : P bs /\ forall b, P (b :: bs)); [|apply H].
  induction bs as [|a r [IH1 IH2]]; split; auto.
Qed.

Lemma int16_array_decodes (bs : list byte) (vs : list Z) :
  int16_array bs = Some vs ->
  buffer_of_int16 vs = bs
  /\ Forall (fun v => -32768 <= v <= 32767) vs
  /\ List.length bs = (2 * List.length vs)%nat.
Proof.
  revert vs. induction bs as [|b|lo hi r IH] using pairs_ind; intros vs H.
  - inversion H; subst. repeat split; constructor.
  - discriminate.
  - cbn [int16_array] in H.
    destruct (int16_array r) as [ws|]; [|discriminate].
    inversion H; subst. destruct (IH ws eq_refl) as (E & F & L).
    split; [|split].
    + change (buffer_of_int16 (int16_of_bytes lo hi :: ws))
        with (int16_bytes (int16_of_bytes lo hi) ++ buffer_of_int16 ws).
      rewrite int16_bytes_of_bytes, E. reflexivity.
    + constructor; [apply wrap16_range|exact F].
    + cbn [List.length]. rewrite L. lia.
Qed.

Lemma int16_array_odd (bs : list byte) :
  int16_array bs = None <-> Nat.even (List.length bs) = false.
Proof.
  induction bs as [|b|lo hi r IH] using pairs_ind.
  - cbn. split; discriminate.
  - cbn. split; reflexivity.
  - cbn [int16_array List.length]. rewrite Nat.even_succ_succ, <- IH.
    destruct (int16_array r); cbn; split; congruence.
Qed.

(** X1.  The bytes of an [Int16Array] and the array read back from bytes
    are inverse to each other: values in the 16-bit range survive being
    written and read, and every buffer that can be read as an
    [Int16Array] is rebuilt byte for byte from what was read, which is
    always in the 16-bit range and half as long as the buffer. *)
Theorem pcm_buffer_round_trip (vs : list Z) (bs : list byte) :
  (Forall (fun v => -32768 <= v <= 32767) vs ->
   int16_array (buffer_of_int16 vs) = Some vs)
  /\ (int16_array bs = Some vs ->
      buffer_of_int16 vs = bs
      /\ Forall (fun v => -32768 <= v <= 32767) vs
      /\ List.length bs = (2 * List.length vs)%nat).
Proof.
  split; [apply int16_array_buffer|apply int16_array_decodes].
Qed.

Lemma pcm_buffer_round_trip_witness :
  Forall (fun v => -32768 <= v <= 32767) [-32768; -1; 0; 32767]
  /\ int16_array (buffer_of_int16 [-32768; -1; 0; 32767])
     = Some [-32768; -1; 0; 32767]
  /\ int16_array [x00; x80; xff; xff] = Some [-32768; -1]
  /\ buffer_of_int16 [-32768; -1] = [x00; x80; xff; xff].
Proof.
  assert (F : Forall (fun v => -32768 <= v <= 32767) [-32768; -1; 0; 32767])
    by (repeat constructor; lia).
  split; [exact F|]. split.
  - exact (proj1 (pcm_buffer_round_trip [-32768; -1; 0; 32767] []) F).
  - split; [reflexivity|].
    exact (proj1 (proj2 (pcm_buffer_round_trip [-32768; -1]
                           [x00; x80; xff; xff]) eq_refl)).
Defined.

(** ** [playChunk]: what is scheduled and what is refused *)

Section PlayChunk.

Import AudioPlayback.

Lemma getContext_effects (s s1 : t) (c : AudioContext) (e : list effect) :
  getContext s = (c, s1, e) ->
  started e = [] /\ isPlayingRef s1 = isPlayingRef s.
Proof.
  unfold getContext, new_context.
  destruct (ctxRef s) as [c0|].
  - destruct (is_closed c0); intros H; inversion H; subst;
      destruct (is_suspended _); split; reflexivity.
  - intros H; inversion H; subst. split; reflexivity.
Qed.

Lemma started_app (a b : list effect) : started (a ++ b) = started a ++ started b.
Proof. unfold started. apply flat_map_app. Qed.

Lemma playChunk_holds_context (now : Q) (pcm : list byte) (s : t) :
  ctxRef (fst (fst (playChunk now pcm s))) <> None.
Proof.
  unfold playChunk.
  destruct (getContext s) as [[c s1] e1] eqn:G.
  apply getContext_keeps_cursor in G as [_ G].
  destruct (int16_array pcm) as [[|v vs]|]; cbn; congruence.
Qed.

(** X2.  [playChunk] schedules a unit exactly when the buffer has an
    even, non-zero number of bytes: the unit then has one sample per two
    bytes, lasts that many samples at 24000 per second, is the only
    source started, and the hook is marked playing.  On an odd length
    it ends in a [RangeError] and on an empty buffer in a
    [NotSupportedError]; in both cases nothing is started and the cursor
    and the playing mark are left alone.  Either way the hook holds a
    context afterwards. *)
Theorem playChunk_schedules_or_refuses (now : Q) (pcm : list byte) (s : t) :
  let '(s', e, o) := playChunk now pcm s in
  ctxRef s' <> None
  /\ match o with
     | Scheduled u =>
         pcm <> []
         /\ List.length pcm = (2 * List.length (u_samples u))%nat
         /\ u_duration u
            = (inject_Z (Z.of_nat (List.length (u_samples u)))
               / inject_Z AUDIO_RECEIVE_SAMPLE_RATE)%Q
         /\ map snd (started e) = [u]
         /\ isPlayingRef s' = true
     | Failed x =>
         (x = RangeError /\ Nat.even (List.length pcm) = false
          \/ x = NotSupportedError /\ pcm = [])
         /\ started e = []
         /\ nextTimeRef s' = nextTimeRef s
         /\ isPlayingRef s' = isPlayingRef s
     end.
Proof.
  unfold playChunk.
  destruct (getContext s) as [[c s1] e1] eqn:G.
  pose proof (getContext_keeps_cursor _ _ _ _ G) as [GC GR].
  pose proof (getContext_effects _ _ _ _ G) as [GE GP].
  destruct (int16_array pcm) as [int16|] eqn:A.
  - apply int16_array_decodes in A as (E & _ & L).
    destruct int16 as [|v vs]; cbn [map].
    + split; [congruence|].
      split; [right; split; [reflexivity|]|auto].
      destruct pcm; [reflexivity|discriminate].
    + split; [cbn; congruence|].
      cbn [u_samples u_duration isPlayingRef].
      split; [intros ->; discriminate|].
      split; [rewrite L; cbn [List.length]; rewrite length_map; reflexivity|].
      split; [reflexivity|].
      split; [|reflexivity].
      rewrite started_app, GE. reflexivity.
  - split; [congruence|].
    split; [left; split; [reflexivity|apply int16_array_odd; exact A]|auto].
Qed.

(** X3.  Every sample [playChunk] hands to the audio device lies in
    [-1, 1): it is a 16-bit value divided by 32768. *)
Theorem playChunk_samples_are_normalised (now : Q) (pcm : list byte) (s : t) :
  match snd (playChunk now pcm s) with
  | Scheduled u => Forall (fun f => (-1 <= f /\ f < 1)%Q) (u_samples u)
  | Failed _ => True
  end.
Proof.
  unfold playChunk.
  destruct (getContext s) as [[c s1] e1].
  destruct (int16_array pcm) as [int16|] eqn:A; [|exact I].
  apply int16_array_decodes in A as (_ & F & _).
  destruct int16 as [|v vs]; [exact I|].
  cbn [snd u_samples]. change (Forall (fun f => (-1 <= f /\ f < 1)%Q)
    (map (fun v => (inject_Z v / 32768)%Q) (v :: vs))).
  apply Forall_map. revert F. apply Forall_impl. intros a Ha. split.
  - apply Qle_shift_div_l; [reflexivity|].
    change (-1 * 32768)%Q with (inject_Z (-32768)). rewrite <- Zle_Qle. lia.
  - apply Qlt_shift_div_r; [reflexivity|].
    change (1 * 32768)%Q with (inject_Z 32768). rewrite <- Zlt_Qlt. lia.
Qed.

End PlayChunk.

(** ** The sample conversion as a function of the sample *)

Lemma Qtrunc_nonneg (q : Q) : (0 <= q)%Q -> Qtrunc q = Qfloor q.
Proof.
  destruct q as [n d]. unfold Qle, Qtrunc, Qfloor. cbn [Qnum Qden].
  intros H. apply Z.quot_div_nonneg; lia.
Qed.

Lemma Qtrunc_nonpos (q : Q) : (q <= 0)%Q -> Qtrunc q = Qceiling q.
Proof.
  destruct q as [n d]. unfold Qle, Qtrunc, Qceiling, Qfloor, Qopp.
  cbn [Qnum Qden]. intros H.
  replace n with (- (- n)) at 1 by lia.
  rewrite Z.quot_opp_l by lia. f_equal.
  apply Z.quot_div_nonneg; lia.
Qed.

Lemma Qtrunc_monotone (p q : Q) : (p <= q)%Q -> Qtrunc p <= Qtrunc q.
Proof.
  intros H.
  destruct (Qlt_le_dec p 0) as [Hp|Hp]; destruct (Qlt_le_dec 0 q) as [Hq|Hq].
  - rewrite (Qtrunc_nonpos p) by lra. rewrite (Qtrunc_nonneg q) by lra.
    assert (Qceiling p <= Qceiling 0) by (apply Qceiling_resp_le; lra).
    assert (Qfloor 0 <= Qfloor q) by (apply Qfloor_resp_le; lra).
    change (Qceiling 0) with 0 in *. change (Qfloor 0) with 0 in *. lia.
  - rewrite !Qtrunc_nonpos by lra. apply Qceiling_resp_le. exact H.
  - rewrite !Qtrunc_nonneg by lra. apply Qfloor_resp_le. exact H.
  - rewrite !Qtrunc_nonneg by lra. apply Qfloor_resp_le. exact H.
Qed.

(** The clamped and scaled sample, by the interval the sample is in. *)
Lemma scaled_cases (x : Q) :
  let g := (Spec.clamp x * inject_Z (Spec.full_scale x))%Q in
  ((1 <= x)%Q /\ g == 32767 /\ Spec.clamp x == 1)%Q
  \/ ((0 <= x < 1)%Q /\ g == x * 32767 /\ Spec.clamp x == x)%Q
  \/ ((-1 <= x < 0)%Q /\ g == x * 32768 /\ Spec.clamp x == x)%Q
  \/ ((x < -1)%Q /\ g == -32768 /\ Spec.clamp x == -1)%Q.
Proof.
  unfold Spec.clamp, Spec.full_scale.
  destruct (Qle_bool 1 x) eqn:E1.
  - apply Qle_bool_iff in E1.
    assert (E0 : Qle_bool 0 x = true) by (apply Qle_bool_iff; lra).
    rewrite E0. left. cbn [negb]. repeat split; first [lra|reflexivity].
  - apply Qle_bool_false in E1. right.
    destruct (Qle_bool 0 x) eqn:E0; cbn [negb].
    + apply Qle_bool_iff in E0.
      assert (E2 : Qle_bool (-1) x = true) by (apply Qle_bool_iff; lra).
      rewrite E2. left. repeat split; first [lra|reflexivity].
    + apply Qle_bool_false in E0. right.
      destruct (Qle_bool (-1) x) eqn:E2.
      * apply Qle_bool_iff in E2. left. repeat split; first [lra|reflexivity].
      * apply Qle_bool_false in E2. right. repeat split; first [lra|reflexivity].
Qed.

Lemma Qtrunc_comp (p q : Q) : (p == q)%Q -> Qtrunc p = Qtrunc q.
Proof.
  intros H. apply Z.le_antisymm; apply Qtrunc_monotone; lra.
Qed.

(** X4.  The conversion never turns a larger sample into a smaller
    16-bit value: it is monotone over all finite samples, across the
    clamping at -1 and 1 and across the change of scale at 0. *)
Theorem sample_to_int16_is_monotone (x y : Q) :
  (x <= y)%Q -> sample_to_int16 (Finite x) <= sample_to_int16 (Finite y).
Proof.
  intros H.
  rewrite (proj1 (sample_to_int16_finite x)), (proj1 (sample_to_int16_finite y)).
  unfold Spec.truncated_sample. apply Qtrunc_monotone.
  destruct (scaled_cases x) as [(X & GX & _)|[(X & GX & _)|[(X & GX & _)|(X & GX & _)]]];
  destruct (scaled_cases y) as [(Y & GY & _)|[(Y & GY & _)|[(Y & GY & _)|(Y & GY & _)]]];
  rewrite GX, GY; lra.
Qed.

Lemma sample_to_int16_is_monotone_witness :
  ((-3 # 2) <= (1 # 3))%Q
  /\ sample_to_int16 (Finite (-3 # 2)) <= sample_to_int16 (Finite (1 # 3)).
Proof.
  assert (H : ((-3 # 2) <= (1 # 3))%Q) by (unfold Qle; cbn; lia).
  split; [exact H|].
  exact (sample_to_int16_is_monotone (-3 # 2) (1 # 3) H).
Defined.

(** What the playback side reads from the 16-bit value of a sample is
    within 2^-14 of the clamped sample. *)
Lemma sample_quantisation (x : Q) :
  let y := (inject_Z (sample_to_int16 (Finite x)) / 32768)%Q in
  (Spec.clamp x - (1 # 16384) < y /\ y < Spec.clamp x + (1 # 16384))%Q.
Proof.
  cbv zeta. rewrite (proj1 (sample_to_int16_finite x)).
  unfold Spec.truncated_sample.
  set (g := (Spec.clamp x * inject_Z (Spec.full_scale x))%Q).
  pose proof (scaled_cases x) as C. fold g in C.
  set (c := Spec.clamp x) in *.
  assert (D : forall v : Z, (inject_Z v / 32768 == inject_Z v * (1 # 32768))%Q).
  { intros v. unfold Qdiv. reflexivity. }
  rewrite D.
  destruct C as [(X & G & K)|[(X & G & K)|[(X & G & K)|(X & G & K)]]].
  - rewrite (Qtrunc_comp g 32767 G). change (inject_Z (Qtrunc 32767)) with 32767%Q.
    lra.
  - rewrite Qtrunc_nonneg by lra.
    pose proof (Qfloor_le g) as L. pose proof (Qlt_floor g) as U.
    rewrite inject_Z_plus in U. change (inject_Z 1) with 1%Q in U. lra.
  - rewrite Qtrunc_nonpos by lra.
    pose proof (Qle_ceiling g) as L. pose proof (Qceiling_lt g) as U.
    unfold Z.sub in U. rewrite inject_Z_plus in U.
    change (inject_Z (- (1))) with (-1)%Q in U. lra.
  - rewrite (Qtrunc_comp g (-32768) G).
    change (inject_Z (Qtrunc (-32768))) with (-32768)%Q. lra.
Qed.

(** X5.  A captured block, fed to [playChunk] as it is, is always
    scheduled, and every sample the audio device then gets is within
    2^-14 of the captured sample clamped to [-1, 1]. *)
Theorem captured_block_plays_back_close
        (xs : list Q) (now : Q) (s : AudioPlayback.t) :
  xs <> [] ->
  exists frame s' e u,
    AudioCapture.onaudioprocess (map Finite xs) = [OnChunk frame]
    /\ AudioPlayback.playChunk now frame s = (s', e, AudioPlayback.Scheduled u)
    /\ Forall2
         (fun x y =>
            (Spec.clamp x - (1 # 16384) < y /\ y < Spec.clamp x + (1 # 16384))%Q)
         xs (u_samples u).
Proof.
  intros N.
  set (vs := map sample_to_int16 (map Finite xs)).
  assert (A : int16_array (buffer_of_int16 vs) = Some vs).
  { apply int16_array_buffer. apply Forall_forall. intros v Hv.
    apply in_map_iff in Hv as [f [<- _]]. apply sample_to_int16_range. }
  exists (buffer_of_int16 vs).
  unfold AudioPlayback.playChunk, AudioCapture.onaudioprocess. fold vs.
  destruct (AudioPlayback.getContext s) as [[c s1] e1].
  rewrite A.
  destruct xs as [|x r]; [now elim N|].
  cbn [map] in vs. subst vs. cbn [map].
  do 3 eexists. split; [reflexivity|]. split; [reflexivity|].
  cbn [u_samples]. clear.
  constructor; [apply sample_quantisation|].
  induction r as [|a r IH]; cbn [map]; constructor;
    [apply sample_quantisation|exact IH].
Qed.

Lemma captured_block_plays_back_close_witness :
  [1 # 3; -2 # 1]%Q <> []
  /\ exists frame s' e u,
       AudioCapture.onaudioprocess (map Finite [1 # 3; -2 # 1]%Q) = [OnChunk frame]
       /\ AudioPlayback.playChunk 0 frame AudioPlayback.init
          = (s', e, AudioPlayback.Scheduled u)
       /\ Forall2
            (fun x y =>
               (Spec.clamp x - (1 # 16384) < y
                /\ y < Spec.clamp x + (1 # 16384))%Q)
            [1 # 3; -2 # 1]%Q (u_samples u).
Proof.
  assert (N : [1 # 3; -2 # 1]%Q <> []) by discriminate.
  split; [exact N|].
  exact (captured_block_plays_back_close [1 # 3; -2 # 1]%Q 0
           AudioPlayback.init N).
Defined.

(** ** The playback hook over whole runs *)

Section PlaybackRuns.

Import AudioPlayback.

Lemma getContext_between (f0 : handle) (s s1 : t) (c : AudioContext)
      (e : list effect) :
  held_between f0 s ->
  getContext s = (c, s1, e) ->
  held_between f0 s1 /\ (fresh s <= fresh s1)%nat
  /\ (f0 <= ctx_id c < fresh s1)%nat.
Proof.
  intros [Hf Hc]. unfold getContext, new_context, held_between.
  destruct (ctxRef s) as [c0|] eqn:R.
  - specialize (Hc c0 eq_refl).
    destruct (is_closed c0); intros H; inversion H; subst; cbn;
      rewrite ?R; repeat split; intros;
      repeat match goal with
             | E : Some _ = Some _ |- _ => inversion E; subst; clear E
             end; cbn; lia.
  - intros H; inversion H; subst; cbn.
    repeat split; intros;
      repeat match goal with
             | E : Some _ = Some _ |- _ => inversion E; subst; clear E
             end; cbn; lia.
Qed.

Lemma step_between (f0 : handle) (c : call) (s : t) :
  held_between f0 s ->
  held_between f0 (e_after (step c s))
  /\ (fresh s <= fresh (e_after (step c s)))%nat
  /\ Forall (fun cu => (f0 <= fst cu < fresh (e_after (step c s)))%nat)
            (started (e_effects (step c s))).
Proof.
  intros H. destruct c as [now pcm|now|st|].
  - unfold step, playChunk.
    destruct (getContext s) as [[c s1] e1] eqn:G.
    pose proof (getContext_effects _ _ _ _ G) as [GE _].
    destruct (getContext_between f0 _ _ _ _ H G) as (H1 & F1 & C1).
    destruct (int16_array pcm) as [[|v vs]|]; cbn [map e_after e_effects].
    + rewrite GE. split; [exact H1|]. split; [exact F1|constructor].
    + split; [exact H1|]. split; [exact F1|].
      rewrite started_app, GE. cbn. constructor; [cbn; lia|constructor].
    + rewrite GE. split; [exact H1|]. split; [exact F1|constructor].
  - cbn. unfold onended. destruct (Qle_bool _ _).
    + split; [exact H|]. split; [cbn; lia|constructor].
    + split; [exact H|]. split; [lia|constructor].
  - cbn. destruct H as [Hf Hc]. split; [split; [exact Hf|]|].
    + intros c E. cbn in E. destruct (ctxRef s) as [c0|]; [|discriminate].
      inversion E; subst. cbn. apply Hc. reflexivity.
    + split; [lia|constructor].
  - cbn. destruct H as [Hf Hc]. split; [split; [exact Hf|]|].
    + intros c E. discriminate.
    + split; [lia|].
      destruct (ctxRef s); cbn; constructor.
Qed.

Lemma run_between (f0 : handle) (cs : list call) (s : t) :
  held_between f0 s ->
  held_between f0 (final s cs)
  /\ (fresh s <= fresh (final s cs))%nat
  /\ Forall (fun cu => (f0 <= fst cu < fresh (final s cs))%nat)
            (started (platform_calls (history s cs))).
Proof.
  revert s. induction cs as [|c r IH]; intros s H.
  - cbn. split; [exact H|]. split; [lia|constructor].
  - cbn [final history]. unfold platform_calls. cbn [flat_map].
    destruct (step_between f0 c s H) as (H1 & F1 & S1).
    destruct (IH _ H1) as (H2 & F2 & S2).
    split; [exact H2|]. split; [lia|].
    rewrite started_app. apply Forall_app. split; [|exact S2].
    revert S1. apply Forall_impl. intros cu. lia.
Qed.

Lemma init_between : held_between 0%nat init.
Proof. split; [cbn; lia|discriminate]. Qed.

(** The state a hook can be in after any calls from its initial state. *)
Lemma reachable_idle (cs : list call) (s : t) :
  (ctxRef s = None -> nextTimeRef s = 0%Q /\ isPlayingRef s = false) ->
  ctxRef (final s cs) = None ->
  nextTimeRef (final s cs) = 0%Q /\ isPlayingRef (final s cs) = false.
Proof.
  revert s. induction cs as [|c r IH]; intros s H; [exact H|].
  cbn [final]. apply IH. clear IH r.
  destruct c as [now pcm|now|st|].
  - pose proof (playChunk_holds_context now pcm s) as P.
    unfold step. destruct (playChunk now pcm s) as [[s' e] o].
    cbn [e_after]. intros E. now elim P.
  - cbn. unfold onended. destruct (Qle_bool _ _); cbn; [|exact H].
    intros E. split; [apply (H E)|reflexivity].
  - cbn. intros E. destruct (ctxRef s); [discriminate|]. apply H. reflexivity.
  - cbn. intros _. split; reflexivity.
Qed.

(** X6.  However the hook was driven from its initial state, whenever it
    holds no context its cursor is zero and it is not marked playing;
    so a hook marked playing always holds a context. *)
Theorem playback_without_context_is_reset (cs : list call) :
  (ctxRef (final init cs) = None ->
   nextTimeRef (final init cs) = 0%Q /\ isPlayingRef (final init cs) = false)
  /\ (isPlayingRef (final init cs) = true -> ctxRef (final init cs) <> None).
Proof.
  assert (H : ctxRef (final init cs) = None ->
              nextTimeRef (final init cs) = 0%Q
              /\ isPlayingRef (final init cs) = false).
  { apply reachable_idle. intros _. split; reflexivity. }
  split; [exact H|].
  intros P E. destruct (H E) as [_ F]. congruence.
Qed.

Lemma playback_without_context_is_reset_witness :
  ctxRef (final init [PlayChunk 0 [x00; x40]; Ended 1; Flush]) = None
  /\ nextTimeRef (final init [PlayChunk 0 [x00; x40]; Ended 1; Flush]) = 0%Q
  /\ isPlayingRef (final init [PlayChunk 0 [x00; x40]; Ended 1; Flush]) = false.
Proof.
  split; [reflexivity|].
  exact (proj1 (playback_without_context_is_reset
                  [PlayChunk 0 [x00; x40]; Ended 1; Flush]) eq_refl).
Defined.

Example sources_before_and_after_a_flush :
  map fst (started (platform_calls
                      (history init [PlayChunk 0 [x00; x40]; Flush;
                                    PlayChunk 0 [x00; x40];
                                    PlayChunk 0 [x00; x40]])))
  = [0; 1; 1]%nat.
Proof. reflexivity. Qed.

(** X7.  No source is ever started on a context that was in use before a
    [flush]: in any run from the initial state, the contexts of the
    sources started after a [flush] are all different from the contexts
    of the sources started before it. *)
Theorem no_source_on_a_flushed_context (cs1 cs2 : list call) :
  Forall
    (fun after =>
       Forall (fun before => fst after <> fst before)
              (started (platform_calls (history init cs1))))
    (started (platform_calls
                (history (fst (flush (final init cs1))) cs2))).
Proof.
  destruct (run_between 0%nat cs1 init init_between) as (_ & _ & B).
  assert (H : held_between (fresh (final init cs1))
                           (fst (flush (final init cs1)))).
  { split; [cbn; lia|discriminate]. }
  destruct (run_between _ cs2 _ H) as (_ & _ & A).
  revert A. apply Forall_impl. intros a Ha.
  revert B. apply Forall_impl. intros b Hb E.
  destruct a as [a ua], b as [b ub]. cbn [fst] in *. subst. lia.
Qed.

End PlaybackRuns.

(** ** The Frame Pacer over whole runs *)

Section FramePacerRuns.

Import CameraCapture.

Lemma split_comma_1_none (s : jsstring) :
  split_comma_1 s = None <-> ~ In 44%N s.
Proof.
  induction s as [|c r IH]; cbn [split_comma_1 In]; [tauto|].
  destruct (N.eqb_spec c 44) as [->|N].
  - split; [discriminate|]. intros H. elim H. now left.
  - rewrite IH. split.
    + intros H [E|I]; [congruence|auto].
    + intros H I. apply H. now right.
Qed.

Lemma until_comma_all (s : jsstring) : ~ In 44%N s -> until_comma s = s.
Proof.
  induction s as [|c r IH]; cbn [until_comma In]; [reflexivity|].
  intros H. destruct (N.eqb_spec c 44) as [->|N].
  - elim H. now left.
  - rewrite IH; [reflexivity|]. intros I. apply H. now right.
Qed.

Lemma until_comma_stops (a b : jsstring) :
  ~ In 44%N a -> until_comma (a ++ 44%N :: b) = a.
Proof.
  induction a as [|c r IH]; cbn [until_comma In app]; [reflexivity|].
  intros H. destruct (N.eqb_spec c 44) as [->|N].
  - elim H. now left.
  - rewrite IH; [reflexivity|]. intros I. apply H. now right.
Qed.

(** X8.  [dataUrl.split(",")[1]] is the text between the first comma and
    the next one or the end: for a data URL whose header has no comma it
    is the whole payload when the payload has none, it is cut at the
    payload's first comma otherwise, and it is [undefined] exactly when
    the URL has no comma at all. *)
Theorem data_url_payload (header payload rest s : jsstring) :
  (~ In 44%N header -> ~ In 44%N payload ->
   split_comma_1 (header ++ 44%N :: payload) = Some payload
   /\ split_comma_1 (header ++ 44%N :: payload ++ 44%N :: rest) = Some payload)
  /\ (split_comma_1 s = None <-> ~ In 44%N s).
Proof.
  split; [|apply split_comma_1_none].
  intros H P.
  induction header as [|c r IH]; cbn [app split_comma_1].
  - rewrite N.eqb_refl, until_comma_all, until_comma_stops by assumption.
    split; reflexivity.
  - destruct (N.eqb_spec c 44) as [->|N].
    + elim H. now left.
    + apply IH. intros I. apply H. now right.
Qed.

Lemma data_url_payload_witness :
  ~ In 44%N (lit "data:image/jpeg;base64")
  /\ ~ In 44%N (lit "/9j/4AAQ")
  /\ split_comma_1 (lit "data:image/jpeg;base64,/9j/4AAQ") = Some (lit "/9j/4AAQ").
Proof.
  assert (H : ~ In 44%N (lit "data:image/jpeg;base64")).
  { cbn. intuition discriminate. }
  assert (P : ~ In 44%N (lit "/9j/4AAQ")).
  { cbn. intuition discriminate. }
  split; [exact H|]. split; [exact P|].
  exact (proj1 (proj1 (data_url_payload (lit "data:image/jpeg;base64")
                         (lit "/9j/4AAQ") [] []) H P)).
Defined.

Lemma interval_callback_drawable (o : observation) (s : t) :
  videoRef s <> None -> canvasRef s <> None ->
  In 44%N (dataUrl o) ->
  exists s' e,
    interval_callback o s = (s', e, Returned)
    /\ videoRef s' = videoRef s /\ canvasRef s' = canvasRef s
    /\ frames e = (if drawable o then [split_comma_1 (dataUrl o)] else [])
    /\ frameCountRef s'
       = frameCountRef s + (if drawable o then 1 else 0).
Proof.
  intros V C D. unfold interval_callback, drawable.
  destruct (videoRef s) as [v|] eqn:EV; [|now elim V].
  destruct (canvasRef s) as [c|] eqn:EC; [|now elim C].
  destruct (readyState o <? 2) eqn:R.
  - assert (R2 : (2 <=? readyState o) = false)
      by (apply Z.leb_gt; apply Z.ltb_lt in R; exact R).
    rewrite R2. cbn [andb]. do 2 eexists.
    split; [reflexivity|]. rewrite EV, EC. repeat split. lia.
  - assert (R2 : (2 <=? readyState o) = true)
      by (apply Z.leb_le; apply Z.ltb_ge in R; exact R).
    rewrite R2. cbn [andb].
    destruct (context2d o); cbn [negb].
    + destruct (split_comma_1 (dataUrl o)) as [b|] eqn:S;
        [|apply split_comma_1_none in S; now elim S].
      destruct ((frameCountRef (count_frame s) <=? 3)
                || (Z.rem (frameCountRef (count_frame s)) 10 =? 0));
        do 2 eexists; (split; [reflexivity|]); cbn; auto.
    + do 2 eexists. split; [reflexivity|]. rewrite EV, EC. repeat split. lia.
Qed.

(** X9.  With the video element and the canvas in place and every data
    URL holding a comma, the frames handed to [onFrame] over a run of
    ticks are exactly the payloads of the ticks at which the video had a
    current frame and the canvas a 2d context, one each and in order,
    and [frameCountRef] has advanced by their number. *)
Theorem frames_are_the_drawable_ticks (os : list observation) (s : t) :
  videoRef s <> None -> canvasRef s <> None ->
  Forall (fun o => In 44%N (dataUrl o)) os ->
  frames (List.concat (snd (run os s)))
  = map (fun o => split_comma_1 (dataUrl o)) (filter drawable os)
  /\ frameCountRef (fst (run os s))
     = frameCountRef s + Z.of_nat (List.length (filter drawable os)).
Proof.
  intros V C F. revert s V C.
  induction F as [|o r D _ IH]; intros s V C.
  - cbn. split; [reflexivity|lia].
  - cbn [run].
    destruct (interval_callback_drawable o s V C D)
      as (s1 & e & E & V1 & C1 & Fr & Cn).
    rewrite E.
    assert (V' : videoRef s1 <> None) by congruence.
    assert (C' : canvasRef s1 <> None) by congruence.
    destruct (IH s1 V' C') as [IH1 IH2].
    destruct (run r s1) as [s2 es]. cbn [fst snd] in *.
    cbn [List.concat filter]. unfold frames in *.
    rewrite flat_map_app, Fr, IH1, IH2, Cn.
    destruct (drawable o); cbn [map app List.length]; split;
      try reflexivity; lia.
Qed.

Lemma frames_are_the_drawable_ticks_witness :
  let s := {| videoRef := Some {| srcObject := Some [7%nat] |};
              streamRef := Some [7%nat]; intervalRef := Some 3%nat;
              canvasRef := Some 4%nat; isActive := true; frameCountRef := 0 |} in
  let os := [{| readyState := 1; context2d := true; dataUrl := lit "data:,A" |};
             {| readyState := 4; context2d := true; dataUrl := lit "data:,B" |};
             {| readyState := 4; context2d := false; dataUrl := lit "data:,C" |};
             {| readyState := 2; context2d := true; dataUrl := lit "data:,D" |}] in
  frames (List.concat (snd (run os s))) = [Some (lit "B"); Some (lit "D")]
  /\ frameCountRef (fst (run os s)) = 2.
Proof.
  intros s os.
  assert (F : Forall (fun o => In 44%N (dataUrl o)) os).
  { repeat constructor; cbn; tauto. }
  assert (V : videoRef s <> None) by discriminate.
  assert (C : canvasRef s <> None) by discriminate.
  exact (frames_are_the_drawable_ticks os s V C F).
Defined.

End FramePacerRuns.

(** ** Acquiring twice *)

(** X10.  Neither [start] looks at what the hook already holds.  After
    two successful starts a [stop] releases what the second one
    acquired and nothing else: the tracks, the audio context and the
    processor of the first microphone acquisition, and the tracks and
    the interval timer of the first camera acquisition, are in no call
    [stop] makes, and a further [stop] releases nothing at all. *)
Theorem second_start_leaks_the_first
        (tracks1 tracks2 : list handle) (a1 b1 a2 b2 : handle)
        (m : AudioCapture.t) (c : CameraCapture.t) :
  (let m1 := fst (fst (AudioCapture.start (AudioCapture.Granted tracks1) a1 b1 m)) in
   let m2 := fst (fst (AudioCapture.start (AudioCapture.Granted tracks2) a2 b2 m1)) in
   AudioCapture.stop m2
   = (AudioCapture.init,
      [DisconnectNode b2; CloseContext a2] ++ map StopTrack tracks2)
   /\ AudioCapture.stop (fst (AudioCapture.stop m2)) = (AudioCapture.init, []))
  /\ (let c1 := fst (fst (CameraCapture.start (CameraCapture.Granted tracks1) a1 b1 c)) in
      let c2 := fst (fst (CameraCapture.start (CameraCapture.Granted tracks2) a2 b2 c1)) in
      snd (CameraCapture.stop c2)
      = [ClearInterval b2] ++ map StopTrack tracks2
        ++ [Console LOG (CameraStopped 0)]
      /\ snd (CameraCapture.stop (fst (CameraCapture.stop c2)))
         = [Console LOG (CameraStopped 0)]
      /\ CameraCapture.isActive (fst (CameraCapture.stop c2)) = false).
Proof.
  split; [split; reflexivity|].
  cbn. repeat split; reflexivity.
Qed.

(** ** The panel: which event touches what *)

Section PanelFrames.

Import AgentPanel.

Lemma send_keeps_state (o : outbound) (w : WebSocket.t) :
  fst (fst (WebSocket.send o w)) = w
  /\ forallb media_only (snd (fst (WebSocket.send o w))) = true.
Proof.
  unfold WebSocket.send.
  destruct (WebSocket.is_open (WebSocket.ref_readyState w)); [|split; reflexivity].
  destruct (WebSocket.wsRef w) as [k|]; [|split; reflexivity].
  unfold WebSocket.socket_send.
  destruct (WebSocket.ref_readyState w) as [[| | |]|]; split; reflexivity.
Qed.

Lemma set_ws_same (p : t) : set_ws (ws p) p = p.
Proof. destruct p; reflexivity. Qed.

Lemma set_camera_same (p : t) : set_camera (camera p) p = p.
Proof. destruct p; reflexivity. Qed.

Lemma prop_media_only (now : Q) (e : effect) (p : t) :
  media_only e = true ->
  fst (prop now e p) = p
  /\ forallb media_only (snd (prop now e p)) = true.
Proof.
  destruct e; cbn [media_only]; intros H; try discriminate;
    try (cbn; rewrite ?andb_true_r; split; reflexivity).
  - cbn [prop]. unfold WebSocket.sendAudio.
    pose proof (send_keeps_state (Binary pcmBuffer) (ws p)) as [S M].
    destruct (WebSocket.send (Binary pcmBuffer) (ws p)) as [[w e'] c].
    cbn [fst snd] in *. subst w. rewrite set_ws_same. split; [reflexivity|exact M].
  - cbn [prop]. unfold WebSocket.sendImage.
    pose proof (send_keeps_state (Image base64Jpeg) (ws p)) as [S M].
    destruct (WebSocket.send (Image base64Jpeg) (ws p)) as [[w e'] c].
    cbn [fst snd] in *. subst w. rewrite set_ws_same. split; [reflexivity|exact M].
Qed.

Lemma props_media_only (now : Q) (es : list effect) (p : t) :
  forallb media_only es = true ->
  fst (props now es p) = p
  /\ forallb media_only (snd (props now es p)) = true.
Proof.
  revert p. induction es as [|e r IH]; intros p H; [split; reflexivity|].
  cbn [forallb] in H. apply andb_true_iff in H as [He Hr].
  cbn [props].
  destruct (prop_media_only now e p He) as [P1 M1].
  destruct (prop now e p) as [p1 e1]. cbn [fst snd] in *. subst p1.
  destruct (IH p Hr) as [P2 M2].
  destruct (props now r p) as [p2 e2]. cbn [fst snd] in *. subst p2.
  split; [reflexivity|]. rewrite forallb_app, M1, M2. reflexivity.
Qed.

Lemma interval_callback_media_only (o : CameraCapture.observation)
      (c : CameraCapture.t) :
  forallb media_only (snd (fst (CameraCapture.interval_callback o c))) = true.
Proof.
  unfold CameraCapture.interval_callback.
  destruct (CameraCapture.videoRef c); [|reflexivity].
  destruct (CameraCapture.canvasRef c); [|reflexivity].
  destruct (CameraCapture.readyState o <? 2); [reflexivity|].
  destruct (negb (CameraCapture.context2d o)); [reflexivity|].
  destruct (_ || _); [|reflexivity].
  destruct (split_comma_1 (CameraCapture.dataUrl o)); reflexivity.
Qed.

Lemma onopen_media_only (k : handle) (w : WebSocket.t) :
  forallb media_only (snd (WebSocket.onopen k w)) = true.
Proof.
  unfold WebSocket.onopen. cbn [snd].
  destruct (nth_error _ k) as [x|]; [|reflexivity].
  cbn [if_some]. destruct (WebSocket.readyState x); reflexivity.
Qed.

(** What each event other than an inbound message leaves alone. *)
Lemma react_media_event (ev : event) (p : t) :
  match ev with
  | MicBlock _ => fst (react ev p) = p
  | CameraTick o =>
      fst (react ev p)
      = set_camera (fst (fst (CameraCapture.interval_callback o (camera p)))) p
  | SocketOpen k => fst (react ev p) = set_ws (fst (WebSocket.onopen k (ws p))) p
  | SocketError => fst (react ev p) = set_ws (fst (WebSocket.onerror (ws p))) p
  | _ => True
  end.
Proof.
  destruct ev; try exact I; cbn [react].
  - apply props_media_only. reflexivity.
  - pose proof (interval_callback_media_only o (camera p)) as M.
    destruct (CameraCapture.interval_callback o (camera p)) as [[c e] x].
    cbn [fst snd] in *. apply props_media_only. exact M.
  - pose proof (onopen_media_only k (ws p)) as M.
    destruct (WebSocket.onopen k (ws p)) as [w e].
    cbn [fst snd] in *. apply props_media_only. exact M.
  - cbn. reflexivity.
Qed.

Lemma handleMessage_transcript (msg : WSMessage) (p : t) :
  exists l, transcript (fst (handleMessage msg p)) = transcript p ++ l
            /\ (List.length l <= 1)%nat.
Proof.
  unfold handleMessage.
  destruct (type msg).
  - eexists; split; [reflexivity|cbn; lia].
  - exists []. rewrite app_nil_r. split; [reflexivity|cbn; lia].
  - destruct (text msg) as [txt|];
      [destruct (truthy txt && truthy (trim txt))|].
    + eexists; split; [reflexivity|cbn; lia].
    + exists []. rewrite app_nil_r. split; [reflexivity|cbn; lia].
    + exists []. rewrite app_nil_r. split; [reflexivity|cbn; lia].
  - destruct (truthy (assistantBufferRef p)).
    + eexists; split; [reflexivity|cbn; lia].
    + exists []. rewrite app_nil_r. split; [reflexivity|cbn; lia].
  - cbn [AudioPlayback.flush set_playback assistantBufferRef].
    destruct (truthy (assistantBufferRef p)).
    + eexists; split; [reflexivity|cbn; lia].
    + exists []. rewrite app_nil_r. split; [reflexivity|cbn; lia].
  - eexists; split; [reflexivity|cbn; lia].
  - exists []. rewrite app_nil_r. split; [reflexivity|cbn; lia].
Qed.

Lemma handleAudioChunk_core (now : Q) (data : list byte) (p : t) :
  transcript (fst (handleAudioChunk now data p)) = transcript p
  /\ assistantBufferRef (fst (handleAudioChunk now data p)) = assistantBufferRef p
  /\ sessionState (fst (handleAudioChunk now data p)) = sessionState p
  /\ agentName (fst (handleAudioChunk now data p)) = agentName p
  /\ ws (fst (handleAudioChunk now data p)) = ws p
  /\ mic (fst (handleAudioChunk now data p)) = mic p
  /\ camera (fst (handleAudioChunk now data p)) = camera p.
Proof.
  unfold handleAudioChunk.
  destruct (AudioPlayback.playChunk now data (playback p)) as [[pb e] o].
  repeat split; reflexivity.
Qed.

(** X11.  Apart from [handleStart], which empties it, no event ever
    removes or rewrites a transcript entry: each event leaves the
    transcript as it was or appends exactly one entry to it. *)
Theorem transcript_only_grows (ev : event) (p : t) :
  match ev with
  | Start _ _ => transcript (fst (react ev p)) = []
  | _ =>
      exists l, transcript (fst (react ev p)) = transcript p ++ l
                /\ (List.length l <= 1)%nat
  end.
Proof.
  pose proof (react_media_event ev p) as M.
  destruct ev.
  - cbn [react]. unfold handleStart.
    destruct (WebSocket.connect _ _ _) as [w e]. reflexivity.
  - exists []. rewrite app_nil_r. split; [|cbn; lia].
    cbn [react]. rewrite handleEndSession_result. reflexivity.
  - exists [(user, text0)]. split; [|cbn; lia].
    cbn [react]. unfold handleSendText.
    destruct (WebSocket.sendText text0 (ws p)) as [[w e] c]. reflexivity.
  - exists []. rewrite app_nil_r. split; [|cbn; lia]. now rewrite M.
  - exists []. rewrite app_nil_r. split; [|cbn; lia]. now rewrite M.
  - exists []. rewrite app_nil_r. split; [|cbn; lia]. now rewrite M.
  - cbn [react]. destruct d as [data|[msg|]]; cbn [WebSocket.onmessage].
    + exists []. rewrite app_nil_r. split; [|cbn; lia].
      cbn [props prop]. rewrite set_ws_same.
      pose proof (handleAudioChunk_core now data p) as (T & _).
      destruct (handleAudioChunk now data p) as [p1 e1]. exact T.
    + cbn [props prop]. rewrite set_ws_same.
      destruct (handleMessage_transcript msg p) as (l & T & L).
      exists l. split; [|exact L].
      destruct (handleMessage msg p) as [p1 e1]. exact T.
    + exists []. rewrite app_nil_r. split; [|cbn; lia]. reflexivity.
  - exists []. rewrite app_nil_r. split; [|cbn; lia]. now rewrite M.
  - exists [(system, lit "Session ended.")]. split; [|cbn; lia]. reflexivity.
  - exists []. rewrite app_nil_r. split; [|cbn; lia]. reflexivity.
Qed.

(** X12.  No control message, whatever its tag and fields, reaches the
    capture hooks, the socket or the session state: the microphone, the
    camera, the connection, [sessionState] and the session id are left
    as they were, no source is started, nothing is sent, no socket is
    closed and no track stopped; and unless the tag is [interrupted] the
    playback state is untouched and no platform call is made at all. *)
Theorem control_messages_stay_off_the_media (msg : WSMessage) (p : t) :
  mic (fst (handleMessage msg p)) = mic p
  /\ camera (fst (handleMessage msg p)) = camera p
  /\ ws (fst (handleMessage msg p)) = ws p
  /\ sessionState (fst (handleMessage msg p)) = sessionState p
  /\ sessionIdRef (fst (handleMessage msg p)) = sessionIdRef p
  /\ started (snd (handleMessage msg p)) = []
  /\ sent (snd (handleMessage msg p)) = []
  /\ closed_sockets (snd (handleMessage msg p)) = []
  /\ stopped_tracks (snd (handleMessage msg p)) = []
  /\ match type msg with
     | Tag.interrupted => True
     | _ => playback (fst (handleMessage msg p)) = playback p
            /\ snd (handleMessage msg p) = []
     end.
Proof.
  unfold handleMessage.
  destruct (type msg).
  - repeat split; reflexivity.
  - repeat split; reflexivity.
  - destruct (text msg) as [txt|];
      [destruct (truthy txt && truthy (trim txt))|]; repeat split; reflexivity.
  - destruct (truthy (assistantBufferRef p)); repeat split; reflexivity.
  - cbn [AudioPlayback.flush set_playback assistantBufferRef].
    destruct (truthy (assistantBufferRef p));
      destruct (AudioPlayback.ctxRef (playback p)); repeat split; reflexivity.
  - repeat split; reflexivity.
  - repeat split; reflexivity.
Qed.

Lemma react_control (msg : WSMessage) (now : Q) (p : t) :
  fst (react (SocketMessage (WebSocket.TextFrame (Some msg)) now) p)
  = fst (handleMessage msg p).
Proof.
  cbn [react WebSocket.onmessage props prop]. rewrite set_ws_same.
  destruct (handleMessage msg p) as [p1 e1]. reflexivity.
Qed.

Lemma reacts_cons (ev : event) (evs : list event) (p : t) :
  fst (reacts (ev :: evs) p) = fst (reacts evs (fst (react ev p))).
Proof.
  cbn [reacts]. destruct (react ev p) as [p1 e1]. cbn [fst].
  destruct (reacts evs p1) as [p2 e2]. reflexivity.
Qed.

Lemma react_keeps_accumulator (ev : event) (p : t) :
  match ev with
  | SocketMessage (WebSocket.TextFrame (Some _)) _ => True
  | _ => assistantBufferRef (fst (react ev p)) = assistantBufferRef p
  end.
Proof.
  pose proof (react_media_event ev p) as M.
  destruct ev; try (now rewrite M).
  - cbn [react]. unfold handleStart.
    destruct (WebSocket.connect _ _ _) as [w e]. reflexivity.
  - cbn [react]. rewrite handleEndSession_result. reflexivity.
  - cbn [react]. unfold handleSendText.
    destruct (WebSocket.sendText text0 (ws p)) as [[w e] c]. reflexivity.
  - destruct d as [data|[msg|]]; [|exact I|reflexivity].
    cbn [react WebSocket.onmessage props prop]. rewrite set_ws_same.
    pose proof (handleAudioChunk_core now data p) as (_ & B & _).
    destruct (handleAudioChunk now data p) as [p1 e1]. exact B.
  - reflexivity.
  - reflexivity.
Qed.

Lemma reacts_nil (p : t) : fst (reacts [] p) = p.
Proof. reflexivity. Qed.

Lemma transcript_after_start (presetId sessionId : jsstring) (p : t) :
  transcript (fst (react (Start presetId sessionId) p)) = [].
Proof.
  cbn [react]. unfold handleStart.
  destruct (WebSocket.connect _ _ _) as [w e]. reflexivity.
Qed.

Lemma turn_complete_flushes (p : t) :
  assistantBufferRef p <> [] ->
  fst (handleMessage (control Tag.turn_complete None) p)
  = set_assistantBuffer [] (addEntry assistant (assistantBufferRef p) p).
Proof.
  intros B. unfold handleMessage. cbn [type control].
  destruct (assistantBufferRef p); [now elim B|reflexivity].
Qed.

Lemma transcript_set_assistantBuffer (x : jsstring) (p : t) :
  transcript (set_assistantBuffer x p) = transcript p.
Proof. reflexivity. Qed.

Lemma transcript_addEntry (r : role) (x : jsstring) (p : t) :
  transcript (addEntry r x p) = transcript p ++ [(r, x)].
Proof. reflexivity. Qed.

(** X13.  Only an inbound control message changes the assistant
    accumulator; in particular neither ending a session, nor the socket
    closing, nor starting the next session clears it, so text that was
    accumulated and not yet flushed when a session ended is the first
    assistant entry of the next session's transcript as soon as a
    [turn_complete] arrives there. *)
Theorem accumulator_survives_the_session
        (ev : event) (presetId sessionId : jsstring) (k : handle) (p : t) :
  match ev with
  | SocketMessage (WebSocket.TextFrame (Some _)) _ => True
  | _ => assistantBufferRef (fst (react ev p)) = assistantBufferRef p
  end
  /\ (assistantBufferRef p <> [] ->
      transcript
        (fst (reacts [EndSession; SocketClosed k; Start presetId sessionId;
                      turn_complete_event] p))
      = [(assistant, assistantBufferRef p)]).
Proof.
  split; [apply react_keeps_accumulator|].
  intros B. rewrite !reacts_cons, reacts_nil.
  unfold turn_complete_event. rewrite react_control.
  set (q := fst (react (Start presetId sessionId)
                   (fst (react (SocketClosed k) (fst (react EndSession p)))))).
  assert (A : assistantBufferRef q = assistantBufferRef p).
  { unfold q.
    rewrite (react_keeps_accumulator (Start presetId sessionId)).
    rewrite (react_keeps_accumulator (SocketClosed k)).
    apply (react_keeps_accumulator EndSession). }
  assert (T : transcript q = []).
  { unfold q. apply (transcript_after_start presetId sessionId). }
  rewrite turn_complete_flushes by (rewrite A; exact B).
  rewrite transcript_set_assistantBuffer, transcript_addEntry, T, A.
  reflexivity.
Qed.

Lemma accumulator_survives_the_session_witness :
  assistantBufferRef (set_assistantBuffer (lit "Hel") init) <> []
  /\ transcript
       (fst (reacts [EndSession; SocketClosed 0%nat;
                     Start (lit "tutor") (lit "0f8c"); turn_complete_event]
               (set_assistantBuffer (lit "Hel") init)))
     = [(assistant, lit "Hel")].
Proof.
  assert (B : assistantBufferRef (set_assistantBuffer (lit "Hel") init) <> [])
    by discriminate.
  split; [exact B|].
  exact (proj2 (accumulator_survives_the_session EndSession (lit "tutor")
                  (lit "0f8c") 0%nat (set_assistantBuffer (lit "Hel") init)) B).
Defined.

End PanelFrames.

(** ** The Connection Manager: connecting *)

Section Connecting.

Import WebSocket.

Lemma nth_error_snoc {A} (l : list A) (x : A) :
  nth_error (l ++ [x]) (List.length l) = Some x.
Proof.
  rewrite nth_error_app2 by lia. rewrite Nat.sub_diag. reflexivity.
Qed.

Lemma set_nth_snoc {A} (l : list A) (x y : A) :
  set_nth (List.length l) y (l ++ [x]) = l ++ [y].
Proof.
  induction l as [|a l IH]; [reflexivity|].
  cbn [List.length app set_nth]. now rewrite IH.
Qed.

Lemma set_nth_app_l {A} (n : nat) (y : A) (a b : list A) :
  (n < List.length a)%nat -> set_nth n y (a ++ b) = set_nth n y a ++ b.
Proof.
  revert n. induction a as [|x a IH]; intros n H; [cbn in H; lia|].
  destruct n as [|n]; [reflexivity|].
  cbn [app set_nth]. rewrite IH; [reflexivity|cbn in H; lia].
Qed.

Lemma set_ready_snoc (l : list socket) (w : socket) (rs : ready_state) :
  set_ready (List.length l) rs (l ++ [w])
  = l ++ [{| readyState := rs; preset := preset w |}].
Proof.
  unfold set_ready. rewrite nth_error_snoc. apply set_nth_snoc.
Qed.

Lemma connect_not_open (sessionId : jsstring) (p : option jsstring) (s : t) :
  ref_readyState s <> Some OPEN ->
  connect sessionId p s
  = ({| sockets :=
          sockets s
          ++ [{| readyState := CONNECTING;
                 preset := match p with Some x => x | None => lit "general" end |}];
        wsRef := Some (List.length (sockets s));
        status := connecting |},
     [NewWebSocket (List.length (sockets s)) sessionId]).
Proof.
  intros H. unfold connect.
  destruct (ref_readyState s) as [[| | |]|]; try reflexivity. now elim H.
Qed.

(** X14.  [connect] does nothing when the socket the hook holds is
    open.  In every other case, a socket still connecting or already
    closing included, it creates exactly one new socket for the session
    id, holds it in place of the old one without closing or changing any
    socket created before, captures the preset ("general" when none is
    given), and reports "connecting"; until that socket opens whatever
    is sent is dropped. *)
Theorem connect_replaces_without_closing
        (sessionId : jsstring) (p : option jsstring) (o : outbound) (s : t) :
  (ref_readyState s = Some OPEN -> connect sessionId p s = (s, []))
  /\ (ref_readyState s <> Some OPEN ->
      snd (connect sessionId p s)
      = [NewWebSocket (List.length (sockets s)) sessionId]
      /\ sockets (fst (connect sessionId p s))
         = sockets s
           ++ [{| readyState := CONNECTING;
                  preset := match p with
                            | Some x => x
                            | None => lit "general"
                            end |}]
      /\ wsRef (fst (connect sessionId p s)) = Some (List.length (sockets s))
      /\ status (fst (connect sessionId p s)) = connecting
      /\ ref_readyState (fst (connect sessionId p s)) = Some CONNECTING
      /\ send o (fst (connect sessionId p s))
         = (fst (connect sessionId p s), [], Returned)).
Proof.
  split.
  - intros H. unfold connect. rewrite H. reflexivity.
  - intros H. rewrite (connect_not_open sessionId p s H). cbn [fst snd].
    assert (R : ref_readyState
                  {| sockets :=
                       sockets s
                       ++ [{| readyState := CONNECTING;
                              preset := match p with
                                        | Some x => x
                                        | None => lit "general"
                                        end |}];
                     wsRef := Some (List.length (sockets s));
                     status := connecting |} = Some CONNECTING).
    { unfold ref_readyState. cbn [wsRef sockets].
      rewrite nth_error_snoc. reflexivity. }
    repeat split; try reflexivity; try exact R.
    unfold send. rewrite R. reflexivity.
Qed.

Lemma connect_replaces_without_closing_witness :
  let s := {| sockets := [{| readyState := CONNECTING; preset := lit "tutor" |}];
              wsRef := Some 0%nat; status := connecting |} in
  ref_readyState s <> Some OPEN
  /\ connect (lit "0f8c") None s
     = ({| sockets := [{| readyState := CONNECTING; preset := lit "tutor" |};
                       {| readyState := CONNECTING; preset := lit "general" |}];
           wsRef := Some 1%nat; status := connecting |},
        [NewWebSocket 1%nat (lit "0f8c")])
  /\ ref_readyState (fst (connect (lit "0f8c") None s)) = Some CONNECTING.
Proof.
  intros s.
  assert (H : ref_readyState s <> Some OPEN) by (cbn; discriminate).
  split; [exact H|]. split; [reflexivity|].
  exact (proj1 (proj2 (proj2 (proj2 (proj2
    (proj2 (connect_replaces_without_closing (lit "0f8c") None
              (Text (lit "hi")) s) H)))))).
Defined.

(** X15.  Once the socket [connect] created opens, the hook sends one
    message on it, the config carrying the preset given to that
    [connect], and reports "connected"; from then on text is
    transmitted on that socket and a further [connect] does nothing. *)
Theorem config_is_sent_when_the_socket_opens
        (sessionId sessionId' preset txt : jsstring) (p' : option jsstring)
        (s : t) :
  ref_readyState s <> Some OPEN ->
  let k := List.length (sockets s) in
  let s1 := fst (connect sessionId (Some preset) s) in
  let s2 := fst (onopen k s1) in
  snd (onopen k s1) = [SocketSend k (Config preset)]
  /\ status s2 = connected
  /\ ref_readyState s2 = Some OPEN
  /\ sendText txt s2 = (s2, [SocketSend k (Text txt)], Returned)
  /\ connect sessionId' p' s2 = (s2, []).
Proof.
  intros H. cbv zeta.
  rewrite (connect_not_open sessionId (Some preset) s H). cbn [fst].
  unfold onopen. cbn [sockets fst snd].
  rewrite set_ready_snoc, nth_error_snoc.
  cbn [if_some WebSocket.preset WebSocket.readyState socket_send fst].
  assert (R : ref_readyState
                (with_status connected
                   (sockets s ++ [{| readyState := OPEN; preset := preset |}])
                   {| sockets :=
                        sockets s
                        ++ [{| readyState := CONNECTING; preset := preset |}];
                      wsRef := Some (List.length (sockets s));
                      status := connecting |}) = Some OPEN).
  { unfold ref_readyState, with_status. cbn [wsRef sockets].
    rewrite nth_error_snoc. reflexivity. }
  split; [reflexivity|]. split; [reflexivity|]. split; [exact R|].
  split.
  - unfold sendText, send. rewrite R. reflexivity.
  - unfold connect. rewrite R. reflexivity.
Qed.

Lemma config_is_sent_when_the_socket_opens_witness :
  ref_readyState init <> Some OPEN
  /\ snd (onopen 0%nat (fst (connect (lit "0f8c") (Some (lit "tutor")) init)))
     = [SocketSend 0%nat (Config (lit "tutor"))].
Proof.
  assert (H : ref_readyState init <> Some OPEN) by (cbn; discriminate).
  split; [exact H|].
  exact (proj1 (config_is_sent_when_the_socket_opens (lit "0f8c") (lit "0f8d")
                  (lit "tutor") (lit "hi") None init H)).
Defined.

End Connecting.

(** ** The panel across sessions *)

Section Sessions.

Import AgentPanel.

Lemma ws_handleDisconnect (p : t) : ws (handleDisconnect p) = ws p.
Proof. reflexivity. Qed.

Lemma ws_set_ws (w : WebSocket.t) (p : t) : ws (set_ws w p) = w.
Proof. reflexivity. Qed.

Lemma react_start (presetId sessionId : jsstring) (p : t) :
  WebSocket.ref_readyState (ws p) <> Some WebSocket.OPEN ->
  ws (fst (react (Start presetId sessionId) p))
  = {| WebSocket.sockets :=
         WebSocket.sockets (ws p)
         ++ [{| WebSocket.readyState := WebSocket.CONNECTING;
                WebSocket.preset := presetId |}];
       WebSocket.wsRef := Some (List.length (WebSocket.sockets (ws p)));
       WebSocket.status := WebSocket.connecting |}
  /\ sessionState (fst (react (Start presetId sessionId) p)) = active.
Proof.
  intros H. cbn [react]. unfold handleStart.
  cbn [ws setAgentName setTranscript setSessionState set_sessionId].
  rewrite (connect_not_open sessionId (Some presetId) (ws p) H).
  split; reflexivity.
Qed.

(** X16.  The close handler does not look at which socket closed: the
    close event of any socket the hook ever created sets the panel to
    idle and the status to "disconnected" and adds a "Session ended."
    entry, leaving [wsRef] as it is.  So when a session is started,
    ended and started again, the close of the first socket ends the
    second session in the panel while the second socket is still held
    and connecting. *)
Theorem close_of_an_old_socket_ends_the_new_session
        (k : handle) (a b c d : jsstring) (p : t) :
  (sessionState (fst (react (SocketClosed k) p)) = idle
   /\ WebSocket.status (ws (fst (react (SocketClosed k) p)))
      = WebSocket.disconnected
   /\ WebSocket.wsRef (ws (fst (react (SocketClosed k) p)))
      = WebSocket.wsRef (ws p)
   /\ transcript (fst (react (SocketClosed k) p))
      = transcript p ++ [(system, lit "Session ended.")])
  /\ (WebSocket.ref_readyState (ws p) <> Some WebSocket.OPEN ->
      let first := List.length (WebSocket.sockets (ws p)) in
      let q := fst (reacts [Start a b; EndSession; Start c d;
                            SocketClosed first] p) in
      sessionState q = idle
      /\ WebSocket.status (ws q) = WebSocket.disconnected
      /\ WebSocket.wsRef (ws q) = Some (S first)
      /\ WebSocket.ref_readyState (ws q) = Some WebSocket.CONNECTING).
Proof.
  split; [repeat split; reflexivity|].
  intros H. cbv zeta. rewrite !reacts_cons. cbn [reacts fst].
  destruct (react_start a b p H) as [W1 _].
  set (p1 := fst (react (Start a b) p)) in *.
  set (l := WebSocket.sockets (ws p)) in *.
  assert (W2 : ws (fst (react EndSession p1))
               = {| WebSocket.sockets :=
                      l ++ [{| WebSocket.readyState := WebSocket.CLOSING;
                               WebSocket.preset := a |}];
                    WebSocket.wsRef := None;
                    WebSocket.status := WebSocket.disconnected |}).
  { cbn [react]. rewrite handleEndSession_result.
    cbn [ws setSessionState set_ws]. rewrite W1.
    unfold WebSocket.disconnect, WebSocket.close.
    cbn [WebSocket.wsRef WebSocket.sockets].
    rewrite nth_error_snoc. cbn [option_map WebSocket.readyState].
    rewrite set_ready_snoc. reflexivity. }
  set (p2 := fst (react EndSession p1)) in *.
  assert (H2 : WebSocket.ref_readyState (ws p2) <> Some WebSocket.OPEN).
  { rewrite W2. discriminate. }
  destruct (react_start c d p2 H2) as [W3 _].
  set (p3 := fst (react (Start c d) p2)) in *.
  rewrite W2 in W3. cbn [WebSocket.sockets] in W3.
  rewrite length_app in W3. cbn [List.length] in W3.
  rewrite Nat.add_1_r in W3.
  split; [reflexivity|]. split; [reflexivity|].
  cbn [react WebSocket.onclose props prop handleDisconnect fst].
  cbn [ws addEntry setTranscript setSessionState set_ws].
  unfold WebSocket.with_status, WebSocket.ref_readyState.
  cbn [WebSocket.wsRef WebSocket.sockets].
  rewrite W3. cbn [WebSocket.wsRef WebSocket.sockets].
  split; [reflexivity|].
  unfold WebSocket.set_ready.
  rewrite nth_error_app1 by (rewrite length_app; cbn; lia).
  rewrite nth_error_snoc.
  rewrite set_nth_app_l by (rewrite length_app; cbn; lia).
  rewrite set_nth_snoc.
  rewrite ws_handleDisconnect, ws_set_ws.
  cbn [WebSocket.wsRef WebSocket.sockets].
  replace (S (List.length l))
    with (List.length (l ++ [{| WebSocket.readyState := WebSocket.CLOSED;
                                WebSocket.preset :=
                                  WebSocket.preset
                                    {| WebSocket.readyState := WebSocket.CLOSING;
                                       WebSocket.preset := a |} |}]))
    by (rewrite length_app; cbn; lia).
  rewrite nth_error_snoc. reflexivity.
Qed.

Lemma close_of_an_old_socket_witness :
  WebSocket.ref_readyState (ws init) <> Some WebSocket.OPEN
  /\ (let q := fst (reacts [Start (lit "tutor") (lit "0f8c"); EndSession;
                            Start (lit "coach") (lit "0f8d");
                            SocketClosed 0%nat] init) in
      sessionState q = idle
      /\ WebSocket.status (ws q) = WebSocket.disconnected
      /\ WebSocket.wsRef (ws q) = Some 1%nat
      /\ WebSocket.ref_readyState (ws q) = Some WebSocket.CONNECTING).
Proof.
  assert (H : WebSocket.ref_readyState (ws init) <> Some WebSocket.OPEN)
    by (cbn; discriminate).
  split; [exact H|].
  exact (proj2 (close_of_an_old_socket_ends_the_new_session 0%nat
                  (lit "tutor") (lit "0f8c") (lit "coach") (lit "0f8d") init) H).
Defined.

End Sessions.

(** ** The panel: text, turns and the end of a session *)

Section PanelText.

Import AgentPanel.

(** X17.  [handleSendText] adds the user's text to the transcript
    whether or not it could be transmitted: with the socket open the
    text goes out as one message, otherwise nothing is sent, and in both
    cases the entry is appended. *)
Theorem typed_text_is_shown_even_when_dropped (txt : jsstring) (p : t) :
  transcript (fst (handleSendText txt p)) = transcript p ++ [(user, txt)]
  /\ ws (fst (handleSendText txt p)) = ws p
  /\ (WebSocket.ref_readyState (ws p) <> Some WebSocket.OPEN ->
      snd (handleSendText txt p) = [])
  /\ (forall k, WebSocket.wsRef (ws p) = Some k ->
                WebSocket.ref_readyState (ws p) = Some WebSocket.OPEN ->
                snd (handleSendText txt p) = [SocketSend k (Text txt)]).
Proof.
  unfold handleSendText, WebSocket.sendText.
  pose proof (send_keeps_state (Text txt) (ws p)) as [S _].
  split; [|split; [|split]].
  - destruct (WebSocket.send (Text txt) (ws p)) as [[w e] c]. reflexivity.
  - destruct (WebSocket.send (Text txt) (ws p)) as [[w e] c].
    cbn [fst] in S. subst w. reflexivity.
  - intros H. rewrite (send_not_open (Text txt) (ws p) H). reflexivity.
  - intros k K R. unfold WebSocket.send. rewrite R, K. reflexivity.
Qed.

Lemma typed_text_is_shown_even_when_dropped_witness :
  WebSocket.ref_readyState (ws init) <> Some WebSocket.OPEN
  /\ snd (handleSendText (lit "hi") init) = []
  /\ transcript (fst (handleSendText (lit "hi") init)) = [(user, lit "hi")].
Proof.
  assert (H : WebSocket.ref_readyState (ws init) <> Some WebSocket.OPEN)
    by (cbn; discriminate).
  split; [exact H|].
  exact (conj
           (proj1 (proj2 (proj2
              (typed_text_is_shown_even_when_dropped (lit "hi") init))) H)
           (proj1 (typed_text_is_shown_even_when_dropped (lit "hi") init))).
Defined.

Lemma stopped_tracks_app (a b : list effect) :
  stopped_tracks (a ++ b) = stopped_tracks a ++ stopped_tracks b.
Proof. unfold stopped_tracks. apply flat_map_app. Qed.

Lemma stopped_tracks_stop (r : option (list handle)) :
  stopped_tracks (if_some r (map StopTrack)) = tracks_of r.
Proof.
  destruct r as [l|]; [|reflexivity]. cbn [if_some tracks_of].
  induction l as [|x l IH]; [reflexivity|].
  cbn [map]. change (stopped_tracks (StopTrack x :: map StopTrack l))
    with (x :: stopped_tracks (map StopTrack l)).
  now rewrite IH.
Qed.

Lemma disconnect_stops_no_track (w : WebSocket.t) :
  stopped_tracks (snd (WebSocket.disconnect w)) = []
  /\ started (snd (WebSocket.disconnect w)) = [].
Proof.
  unfold WebSocket.disconnect.
  destruct (WebSocket.wsRef w) as [k|]; [|split; reflexivity].
  unfold WebSocket.close.
  destruct (option_map _ _) as [[| | |]|]; split; reflexivity.
Qed.

Lemma handleEndSession_effects (p : t) :
  snd (handleEndSession p)
  = snd (AudioCapture.stop (mic p)) ++ snd (CameraCapture.stop (camera p))
    ++ snd (WebSocket.disconnect (ws p)).
Proof.
  unfold handleEndSession.
  cbn [AudioCapture.stop CameraCapture.stop fst snd].
  destruct (WebSocket.disconnect (ws p)) as [w e]. reflexivity.
Qed.

(** X18.  [handleEndSession] releases the capture hardware and the
    socket and nothing else.  Every track of the microphone stream and
    of the camera stream is stopped, exactly once and in that order, the
    hooks are left holding no stream, no timer and no socket, and the
    panel is idle; but the playback scheduler is not flushed, so audio
    already scheduled keeps playing, and the transcript and the
    assistant accumulator are kept. *)
Theorem end_session_releases_capture_but_not_playback (p : t) :
  stopped_tracks (snd (handleEndSession p))
  = tracks_of (AudioCapture.streamRef (mic p))
    ++ tracks_of (CameraCapture.streamRef (camera p))
  /\ started (snd (handleEndSession p)) = []
  /\ mic (fst (handleEndSession p)) = AudioCapture.init
  /\ CameraCapture.streamRef (camera (fst (handleEndSession p))) = None
  /\ CameraCapture.intervalRef (camera (fst (handleEndSession p))) = None
  /\ CameraCapture.isActive (camera (fst (handleEndSession p))) = false
  /\ WebSocket.wsRef (ws (fst (handleEndSession p))) = None
  /\ WebSocket.status (ws (fst (handleEndSession p))) = WebSocket.disconnected
  /\ sessionState (fst (handleEndSession p)) = idle
  /\ playback (fst (handleEndSession p)) = playback p
  /\ transcript (fst (handleEndSession p)) = transcript p
  /\ assistantBufferRef (fst (handleEndSession p)) = assistantBufferRef p.
Proof.
  rewrite handleEndSession_effects, handleEndSession_result.
  destruct (disconnect_stops_no_track (ws p)) as [D1 D2].
  destruct (disconnect_result (ws p)) as [l D].
  split; [|split].
  - rewrite !stopped_tracks_app, D1, app_nil_r.
    unfold AudioCapture.stop, CameraCapture.stop. cbn [snd].
    rewrite !stopped_tracks_app, !stopped_tracks_stop.
    destruct (AudioCapture.processorRef (mic p));
      destruct (AudioCapture.audioContextRef (mic p));
      destruct (CameraCapture.intervalRef (camera p));
      cbn [if_some stopped_tracks flat_map app]; rewrite ?app_nil_r;
      reflexivity.
  - rewrite !started_app, D2, app_nil_r.
    unfold AudioCapture.stop, CameraCapture.stop. cbn [snd].
    rewrite !started_app.
    assert (S : forall r, started (if_some r (map StopTrack)) = []).
    { intros [l0|]; [|reflexivity]. cbn [if_some].
      induction l0 as [|x l0 IH]; [reflexivity|exact IH]. }
    rewrite !S.
    destruct (AudioCapture.processorRef (mic p));
      destruct (AudioCapture.audioContextRef (mic p));
      destruct (CameraCapture.intervalRef (camera p)); reflexivity.
  - cbn [mic camera ws sessionState playback transcript assistantBufferRef
         setSessionState set_ws set_camera set_mic].
    rewrite D. repeat split; reflexivity.
Qed.

Lemma reacts_app (a b : list event) (p : t) :
  fst (reacts (a ++ b) p) = fst (reacts b (fst (reacts a p))).
Proof.
  revert p. induction a as [|ev a IH]; intros p; [reflexivity|].
  cbn [app]. rewrite !reacts_cons. apply IH.
Qed.

Lemma set_assistantBuffer_twice (x y : jsstring) (p : t) :
  set_assistantBuffer x (set_assistantBuffer y p) = set_assistantBuffer x p.
Proof. reflexivity. Qed.

Lemma react_transcript_event (txt : option jsstring) (p : t) :
  fst (react (transcript_event txt) p)
  = fst (handleMessage (control Tag.transcript txt) p).
Proof. apply react_control. Qed.

Lemma transcripts_accumulate (ts : list (option jsstring)) (p : t) :
  fst (reacts (map transcript_event ts) p)
  = set_assistantBuffer (assistantBufferRef p ++ joined ts) p.
Proof.
  revert p. induction ts as [|t0 ts IH]; intros p.
  - cbn [map]. rewrite reacts_nil. unfold joined. cbn [map List.concat].
    rewrite app_nil_r. destruct p; reflexivity.
  - cbn [map]. rewrite reacts_cons, react_transcript_event, IH.
    unfold handleMessage. cbn [type control text fst].
    rewrite set_assistantBuffer_twice.
    unfold joined. cbn [map List.concat assistantBufferRef set_assistantBuffer].
    now rewrite app_assoc.
Qed.

(** X19.  Any number of [transcript] messages, with or without a [text]
    field, only extend the assistant accumulator, by their texts joined
    in arrival order; the [turn_complete] that follows emits that whole
    text as one assistant entry and empties the accumulator, unless the
    text is empty, in which case nothing is emitted. *)
Theorem turn_text_is_the_joined_transcripts
        (ts : list (option jsstring)) (p : t) :
  fst (reacts (map transcript_event ts) p)
  = set_assistantBuffer (assistantBufferRef p ++ joined ts) p
  /\ (assistantBufferRef p ++ joined ts <> [] ->
      fst (reacts (map transcript_event ts ++ [turn_complete_event]) p)
      = set_assistantBuffer []
          (addEntry assistant (assistantBufferRef p ++ joined ts) p))
  /\ (assistantBufferRef p ++ joined ts = [] ->
      fst (reacts (map transcript_event ts ++ [turn_complete_event]) p) = p).
Proof.
  split; [apply transcripts_accumulate|].
  split; intros B; rewrite reacts_app, transcripts_accumulate, reacts_cons,
    reacts_nil; unfold turn_complete_event; rewrite react_control.
  - rewrite turn_complete_flushes by exact B. reflexivity.
  - unfold handleMessage. cbn [type control assistantBufferRef set_assistantBuffer].
    rewrite B. cbn [truthy fst].
    apply app_eq_nil in B as [B _]. rewrite <- B. destruct p; reflexivity.
Qed.

Lemma turn_text_is_the_joined_transcripts_witness :
  assistantBufferRef init ++ joined [Some (lit "Hel"); None; Some []; Some (lit "lo")]
  <> []
  /\ fst (reacts (map transcript_event
                    [Some (lit "Hel"); None; Some []; Some (lit "lo")]
                  ++ [turn_complete_event]) init)
     = addEntry assistant (lit "Hello") init.
Proof.
  assert (B : assistantBufferRef init
              ++ joined [Some (lit "Hel"); None; Some []; Some (lit "lo")]
              <> []) by discriminate.
  split; [exact B|].
  exact (proj1 (proj2 (turn_text_is_the_joined_transcripts
                         [Some (lit "Hel"); None; Some []; Some (lit "lo")]
                         init)) B).
Defined.

End PanelText.

(** ** The text box *)

Lemma trim_start_suffix (s : jsstring) :
  exists pre, s = pre ++ trim_start s.
Proof.
  induction s as [|c r [pre IH]]; [exists []; reflexivity|].
  cbn [trim_start]. destruct (is_white_space c).
  - exists (c :: pre). cbn [app]. now rewrite <- IH.
  - exists []. reflexivity.
Qed.

Lemma trim_start_fixed (c : code_unit) (r : jsstring) :
  is_white_space c = false -> trim_start (c :: r) = c :: r.
Proof. intros H. cbn [trim_start]. now rewrite H. Qed.

(** A trimmed text that is not empty begins and ends with a code unit
    that is not white space. *)
Lemma trim_ends (s : jsstring) :
  trim s <> [] ->
  (exists c r, trim s = c :: r /\ is_white_space c = false)
  /\ (exists r c, trim s = r ++ [c] /\ is_white_space c = false).
Proof.
  unfold trim. intros N.
  destruct (trim_start (rev (trim_start s))) as [|b B] eqn:E; [now elim N|].
  pose proof (trim_start_head _ _ _ E) as Wb.
  destruct (trim_start_suffix (rev (trim_start s))) as [pre P].
  rewrite E in P.
  assert (A : trim_start s = rev (b :: B) ++ rev pre).
  { rewrite <- rev_app_distr, <- P, rev_involutive. reflexivity. }
  split.
  - destruct (rev (b :: B)) as [|c r] eqn:R.
    + apply (f_equal (@List.length _)) in R. rewrite length_rev in R.
      discriminate.
    + exists c, r. split; [reflexivity|].
      cbn [app] in A. apply (trim_start_head _ _ _ A).
  - exists (rev B), b. split; [reflexivity|exact Wb].
Qed.

Lemma trim_fixed (t : jsstring) :
  (exists c r, t = c :: r /\ is_white_space c = false) ->
  (exists r c, t = r ++ [c] /\ is_white_space c = false) ->
  trim t = t.
Proof.
  intros (c & r & E1 & W1) (r' & c' & E2 & W2). unfold trim.
  rewrite E1 at 1. rewrite (trim_start_fixed c r W1). rewrite <- E1.
  rewrite E2 at 1. rewrite rev_app_distr. cbn [rev app].
  rewrite (trim_start_fixed c' (rev r') W2).
  change (c' :: rev r') with ([c'] ++ rev r').
  rewrite rev_app_distr, rev_involutive. cbn [rev app]. now rewrite <- E2.
Qed.

(** X20.  The text box never sends an empty or blank text.  When the
    input holds anything but white space, [handleTextSend] calls
    [onSendText] with the input trimmed, which begins and ends with a
    code unit that is not white space and which trimming again leaves
    unchanged, and clears the input; otherwise it calls nothing and
    keeps the input as typed. *)
Theorem text_box_sends_trimmed_text (textInput : jsstring) :
  match Controls.handleTextSend textInput with
  | (input', Some t) =>
      input' = [] /\ blank textInput = false /\ t = trim textInput
      /\ (exists c r, t = c :: r /\ is_white_space c = false)
      /\ (exists r c, t = r ++ [c] /\ is_white_space c = false)
      /\ trim t = t
  | (input', None) => input' = textInput /\ blank textInput = true
  end.
Proof.
  unfold Controls.handleTextSend.
  pose proof (truthy_trim textInput) as T.
  destruct (truthy (trim textInput)) eqn:E.
  - assert (N : trim textInput <> []) by (intros Z; rewrite Z in E; discriminate).
    destruct (trim_ends textInput N) as [H1 H2].
    split; [reflexivity|]. split; [destruct (blank textInput); [discriminate|reflexivity]|].
    split; [reflexivity|]. split; [exact H1|]. split; [exact H2|].
    apply trim_fixed; assumption.
  - split; [reflexivity|]. destruct (blank textInput); [reflexivity|discriminate].
Qed.

Example text_box_examples :
  Controls.handleTextSend (lit "  hello there ") = ([], Some (lit "hello there"))
  /\ Controls.handleTextSend [32; 9; 160]%N = ([32; 9; 160]%N, None)
  /\ Controls.handleTextSend [] = ([], None).
Proof. repeat split; reflexivity. Qed.

(** ** The agent selector *)

Section Selector.

Import AgentSelector.

Lemma clicks_while_loading (l : list nat) (s : t) :
  loading s = true -> clicks l s = s.
Proof.
  intros L. induction l as [|i l IH]; [reflexivity|].
  unfold clicks in *. cbn [fold_left]. unfold click_agent at 2.
  rewrite L. exact IH.
Qed.

Lemma clicks_keep_listed (l : list nat) (s : t) :
  loading s = false ->
  (selected s = lit "general" \/ In (selected s) (map id (agents s))) ->
  loading (clicks l s) = false
  /\ agents (clicks l s) = agents s
  /\ (selected (clicks l s) = selected s
      \/ In (selected (clicks l s)) (map id (agents s))).
Proof.
  revert s. induction l as [|i l IH]; intros s L H.
  - repeat split; auto.
  - unfold clicks in *. cbn [fold_left].
    assert (C : loading (click_agent i s) = false
                /\ agents (click_agent i s) = agents s
                /\ (selected (click_agent i s) = selected s
                    \/ In (selected (click_agent i s)) (map id (agents s)))).
    { unfold click_agent. rewrite L.
      destruct (nth_error (agents s) i) as [a|] eqn:N; cbn; auto.
      repeat split; auto. right. apply in_map. eapply nth_error_In; eauto. }
    destruct C as (L1 & A1 & S1).
    destruct (IH (click_agent i s) L1) as (L2 & A2 & S2).
    { destruct S1 as [S1|S1]; [rewrite S1; rewrite A1; exact H|].
      right. rewrite A1. exact S1. }
    split; [exact L2|]. split; [congruence|].
    rewrite A1 in S2. destruct S2 as [S2|S2]; [|right; exact S2].
    rewrite S2. exact S1.
Qed.

(** X21.  Clicks made before the list of agents has arrived change
    nothing.  After it has arrived, however it ended and whatever is
    clicked, the preset handed to [onStart] is "general" or the id of
    one of the listed agents; and when the request failed it is always
    "general", the only agent then listed. *)
Theorem start_gets_general_or_a_listed_agent
        (before after : list nat) (r : fetched) :
  clicks before init = init
  /\ loading (clicks after (on_fetch r (clicks before init))) = false
  /\ agents (clicks after (on_fetch r (clicks before init)))
     = agents (on_fetch r init)
  /\ (click_start (clicks after (on_fetch r (clicks before init)))
      = lit "general"
      \/ In (click_start (clicks after (on_fetch r (clicks before init))))
            (map id (agents (on_fetch r init))))
  /\ (r = Rejected ->
      click_start (clicks after (on_fetch r (clicks before init)))
      = lit "general").
Proof.
  assert (B : clicks before init = init)
    by (apply clicks_while_loading; reflexivity).
  rewrite B. split; [reflexivity|].
  assert (L : loading (on_fetch r init) = false) by (destruct r; reflexivity).
  assert (S : selected (on_fetch r init) = lit "general")
    by (destruct r; reflexivity).
  destruct (clicks_keep_listed after (on_fetch r init) L (or_introl S))
    as (L1 & A1 & S1).
  split; [exact L1|]. split; [exact A1|].
  unfold click_start. rewrite S in S1. split; [exact S1|].
  intros ->. destruct S1 as [S1|S1]; [exact S1|].
  cbn in S1. destruct S1 as [S1|[]]. symmetry. exact S1.
Qed.

Lemma start_gets_general_witness :
  Rejected = Rejected
  /\ click_start (clicks [0; 5; 0]%nat (on_fetch Rejected (clicks [2]%nat init)))
     = lit "general".
Proof.
  split; [reflexivity|].
  exact (proj2 (proj2 (proj2 (proj2
    (start_gets_general_or_a_listed_agent [2]%nat [0; 5; 0]%nat Rejected))))
    eq_refl).
Defined.

End Selector.

(** ** Gapless playback *)

Section Gapless.

Import Playback64.

(** What a call other than [flush] schedules and where it leaves the
    cursor. *)
Lemma step64_shape (c : call64) (s : t) :
  flush_free [c] = true ->
  match unit_of64 (step64 c s) with
  | [] => nextTimeRef (e_after64 (step64 c s)) = nextTimeRef s
  | u :: l =>
      l = []
      /\ (exists now pcm,
            c = PlayChunk64 now pcm
            /\ Binary64.Num (start u)
               = Binary64.max (Binary64.Num now) (nextTimeRef s))
      /\ nextTimeRef (e_after64 (step64 c s)) = computed_end u
  end.
Proof.
  destruct c as [now pcm|now|st|]; cbn [flush_free forallb]; intros Hf;
    try discriminate.
  - unfold step64, unit_of64.
    destruct (playChunk now pcm s) as [[s' e] o] eqn:P.
    pose proof (playChunk64_cursor _ _ _ _ _ _ P) as H.
    cbn [e_outcome64 e_after64].
    destruct o as [u|x]; [|exact H].
    destruct H as (H1 & H2 & _). split; [reflexivity|]. split; [eauto|exact H2].
  - cbn. apply onended64_cursor.
  - reflexivity.
Qed.

(** X22.  When every chunk of a run without [flush] arrives in time,
    that is, its call reads a clock that has not passed the cursor, no
    gap is put between the units: the first starts at the cursor the
    run began with, every other one starts exactly at the cursor the
    one before it left, and the cursor the run ends on is the cursor it
    began with and the durations added to it one by one in binary64. *)
Theorem chunks_in_time_play_without_gaps (s : t) (cs : list call64) :
  flush_free cs = true ->
  in_time64 s cs ->
  back_to_back64 (nextTimeRef s) (units64 (history64 s cs))
  /\ nextTimeRef (final64 s cs)
     = running_sum (nextTimeRef s) (units64 (history64 s cs)).
Proof.
  revert s. induction cs as [|c r IH]; intros s Hf T; [split; [exact I|reflexivity]|].
  cbn [flush_free forallb] in Hf. apply andb_true_iff in Hf as [F1 F2].
  assert (F : flush_free [c] = true) by (cbn; rewrite F1; reflexivity).
  destruct T as [T1 T2].
  pose proof (step64_shape c s F) as H.
  destruct (IH _ F2 T2) as [B E].
  rewrite units64_cons. cbn [final64].
  destruct (unit_of64 (step64 c s)) as [|u l].
  - cbn [app]. rewrite H in B, E. split; assumption.
  - destruct H as (-> & (now & pcm & -> & M) & C).
    assert (S : Binary64.Num (start u) = nextTimeRef s).
    { rewrite M. unfold Binary64.max. rewrite T1. reflexivity. }
    cbn [app back_to_back64]. rewrite C in B, E.
    split; [split; [exact S|exact B]|].
    rewrite E. unfold running_sum. cbn [fold_left].
    unfold computed_end. rewrite S. reflexivity.
Qed.

Lemma chunks_in_time_witness :
  flush_free eight_tenths = true
  /\ in_time64 init eight_tenths
  /\ back_to_back64 (nextTimeRef init) (units64 (history64 init eight_tenths))
  /\ nextTimeRef (final64 init eight_tenths)
     = running_sum (Binary64.Num 0) (units64 (history64 init eight_tenths)).
Proof.
  assert (F : flush_free eight_tenths = true) by reflexivity.
  assert (T : in_time64 init eight_tenths).
  { vm_compute. repeat split. }
  split; [exact F|]. split; [exact T|].
  exact (chunks_in_time_play_without_gaps init eight_tenths F T).
Defined.

End Gapless.

(** ** Ticks without a video element, and inbound traffic *)

Section Remaining.

Import AgentPanel.

Lemma interval_callback_without_refs (o : CameraCapture.observation)
      (c : CameraCapture.t) :
  CameraCapture.videoRef c = None \/ CameraCapture.canvasRef c = None ->
  CameraCapture.interval_callback o c
  = (c, [Console WARN FrameSkippedRefsNotReady], Returned).
Proof.
  unfold CameraCapture.interval_callback. intros [H|H]; rewrite H.
  - reflexivity.
  - destruct (CameraCapture.videoRef c); reflexivity.
Qed.

(** X23.  Without a video element, or without the canvas, no tick ever
    produces a frame: every run of the interval callback only writes
    the "refs not ready" warning and leaves the hook as it was, however
    many ticks there are and whatever the camera shows; this holds in
    particular after a [start] that found no video element mounted. *)
Theorem no_video_element_no_frames
        (os : list CameraCapture.observation) (c : CameraCapture.t)
        (tracks : list handle) (canvas timer : handle) :
  (CameraCapture.videoRef c = None \/ CameraCapture.canvasRef c = None ->
   CameraCapture.run os c
   = (c, map (fun _ => [Console WARN FrameSkippedRefsNotReady]) os))
  /\ (CameraCapture.videoRef c = None ->
      CameraCapture.frames
        (List.concat
           (snd (CameraCapture.run os
                   (fst (fst (CameraCapture.start
                                (CameraCapture.Granted tracks) canvas timer c))))))
      = []).
Proof.
  assert (R : forall s,
             CameraCapture.videoRef s = None \/ CameraCapture.canvasRef s = None ->
             CameraCapture.run os s
             = (s, map (fun _ => [Console WARN FrameSkippedRefsNotReady]) os)).
  { intros s H. induction os as [|o r IH]; [reflexivity|].
    cbn [CameraCapture.run map].
    rewrite (interval_callback_without_refs o s H), IH. reflexivity. }
  split; [apply R|].
  intros V. rewrite R.
  - cbn [snd]. clear. induction os as [|o r IH]; [reflexivity|exact IH].
  - left. cbn. rewrite V. reflexivity.
Qed.

Lemma no_video_element_witness :
  CameraCapture.videoRef CameraCapture.init = None
  /\ CameraCapture.frames
       (List.concat
          (snd (CameraCapture.run
                  [{| CameraCapture.readyState := 4;
                      CameraCapture.context2d := true;
                      CameraCapture.dataUrl := lit "data:,A" |}]
                  (fst (fst (CameraCapture.start (CameraCapture.Granted [7%nat])
                               4%nat 3%nat CameraCapture.init))))))
     = [].
Proof.
  split; [reflexivity|].
  exact (proj2 (no_video_element_no_frames
                  [{| CameraCapture.readyState := 4;
                      CameraCapture.context2d := true;
                      CameraCapture.dataUrl := lit "data:,A" |}]
                  CameraCapture.init [7%nat] 4%nat 3%nat) eq_refl).
Defined.

Lemma playChunk_sends_nothing (now : Q) (data : list byte)
      (s : AudioPlayback.t) :
  sent (snd (fst (AudioPlayback.playChunk now data s))) = [].
Proof.
  unfold AudioPlayback.playChunk, AudioPlayback.getContext,
    AudioPlayback.new_context.
  destruct (AudioPlayback.ctxRef s) as [c|];
    [destruct (AudioPlayback.is_closed c)|];
    destruct (AudioPlayback.is_suspended _);
    destruct (int16_array data) as [[|v vs]|]; reflexivity.
Qed.

(** X24.  Inbound audio reaches the playback scheduler and nothing
    else: a binary message leaves the transcript, the accumulator, the
    session state, the agent name, the socket and both capture hooks as
    they were, changes the playback state exactly as [playChunk] does
    and makes exactly the platform calls of [playChunk]; nothing is
    sent in reply. *)
Theorem inbound_audio_only_reaches_playback
        (data : list byte) (now : Q) (p : t) :
  let r := react (SocketMessage (WebSocket.BinaryFrame data) now) p in
  playback (fst r) = fst (fst (AudioPlayback.playChunk now data (playback p)))
  /\ snd r = snd (fst (AudioPlayback.playChunk now data (playback p)))
  /\ sent (snd r) = []
  /\ transcript (fst r) = transcript p
  /\ assistantBufferRef (fst r) = assistantBufferRef p
  /\ sessionState (fst r) = sessionState p
  /\ agentName (fst r) = agentName p
  /\ ws (fst r) = ws p
  /\ mic (fst r) = mic p
  /\ camera (fst r) = camera p.
Proof.
  cbv zeta. cbn [react WebSocket.onmessage props prop]. rewrite set_ws_same.
  unfold handleAudioChunk.
  pose proof (playChunk_sends_nothing now data (playback p)) as S.
  destruct (AudioPlayback.playChunk now data (playback p)) as [[pb e] o].
  cbn [fst snd] in *. rewrite app_nil_r.
  repeat split; try reflexivity. exact S.
Qed.

(** X25.  A text message that cannot be parsed or dispatched, and a
    control message with a tag the panel does not know, change nothing
    in the panel: the first only writes a console warning, the second
    does nothing at all, and neither closes the socket.  An [error]
    message adds one system entry, "Error: " followed by its [message]
    field, which reads "Error: undefined" when the field is missing. *)
Theorem malformed_and_unknown_messages_are_dropped
        (msg : WSMessage) (now : Q) (p : t) :
  react (SocketMessage (WebSocket.TextFrame None) now) p
  = (p, [Console WARN InvalidWsMessage])
  /\ (type msg = Tag.unrecognized ->
      react (SocketMessage (WebSocket.TextFrame (Some msg)) now) p = (p, []))
  /\ (type msg = Tag.error ->
      react (SocketMessage (WebSocket.TextFrame (Some msg)) now) p
      = (addEntry system
           (lit "Error: "
            ++ match message msg with
               | Some m => m
               | None => lit "undefined"
               end) p, [])).
Proof.
  split; [|split].
  - cbn [react WebSocket.onmessage props prop]. rewrite set_ws_same.
    reflexivity.
  - intros T. cbn [react WebSocket.onmessage props prop]. rewrite set_ws_same.
    unfold handleMessage. rewrite T. reflexivity.
  - intros T. cbn [react WebSocket.onmessage props prop]. rewrite set_ws_same.
    unfold handleMessage. rewrite T. reflexivity.
Qed.

Lemma malformed_and_unknown_messages_witness :
  type (control Tag.error None) = Tag.error
  /\ react (SocketMessage (WebSocket.TextFrame (Some (control Tag.error None))) 0)
       init
     = (addEntry system (lit "Error: undefined") init, []).
Proof.
  split; [reflexivity|].
  exact (proj2 (proj2 (malformed_and_unknown_messages_are_dropped
                         (control Tag.error None) 0 init)) eq_refl).
Defined.

End Remaining.
